(** * ckanext.oaipmh.importformats: the metadata projection engine

    A shallow embedding of [src/ckanext/oaipmh/importformats.py]:
    [ExceptReturn], [copy_element], [person_attrs] and
    [nrd_metadata_reader] with its three local callbacks and its rule
    table, followed by the properties the specification states about
    them.

    The metadata dictionary [md] of the Python code is one mutable object
    shared by every call; it is modelled by explicit state passing.
    Python exceptions are an explicit outcome, and the recursion of
    [copy_element], which Python bounds only by its interpreter stack, is
    indexed by a depth budget. *)

From Stdlib Require Import ZArith Ascii String DecimalString DecimalNat DecimalFacts.
From stdpp Require Import gmap strings list.

Local Open Scope Z_scope.
Set Warnings "-register-all".

(** ** Values, exceptions, outcomes *)

(** The values a flat record holds: text, integers (the [.count]
    entries) and [None] (the [.text] of an element without text). *)
Inductive value : Type :=
  | VNone
  | VInt (z : Z)
  | VStr (s : string).

Global Instance value_eq_dec : EqDecision value.
Proof. solve_decision. Defined.

(** A Python exception, identified by the name of its class. *)
Record exn : Type := Exn { exn_class : string }.

Global Instance exn_eq_dec : EqDecision exn.
Proof. solve_decision. Defined.

Definition TypeError : exn := Exn "TypeError".
Definition MalformedRecordError : exn := Exn "MalformedRecordError".

(** The outcome of running a piece of the program: a normal return, a
    raised exception, or a recursion deeper than the budget allowed.
    What had been written to the dictionary when an exception was raised
    is not part of the outcome: within this module nothing catches an
    exception of [copy_element]. *)
Inductive res (A : Type) : Type :=
  | Ok (a : A)
  | Raise (e : exn)
  | OutOfFuel.
Global Arguments Ok {A} a.
Global Arguments Raise {A} e.
Global Arguments OutOfFuel {A}.

Global Instance res_ret : MRet res := λ A a, Ok a.
Global Instance res_bind : MBind res := λ A B f m,
  match m with
  | Ok a => f a
  | Raise e => Raise e
  | OutOfFuel => OutOfFuel
  end.

(** ** The shared dictionary *)

(** [store] is the metadata dictionary.  [calls] is a ghost log: every
    time [copy_element] executes [callback(source, dest, md)] the pair
    [(source, dest)] is appended to it; the third argument is always the
    one shared dictionary. *)
Record state : Type := State {
  store : gmap string value;
  calls : list (string * string)
}.

(** [md[key] = v] *)
Definition set_item (key : string) (v : value) (st : state) : state :=
  State (<[key := v]> (store st)) (calls st).

Definition log_call (source dest : string) (st : state) : state :=
  State (store st) (calls st ++ [(source, dest)]).

(** A callback receives [(source, dest, md)] and mutates [md]; its first
    argument is the depth budget left for the calls it makes. *)
Definition callback : Type := nat → string → string → state → res state.

(** Python truth value, as tested by [if not count]. *)
Definition truthy (v : value) : bool :=
  match v with
  | VNone => false
  | VInt z => negb (z =? 0)
  | VStr s => negb (String.eqb s "")
  end.

(** ['%d' % i] for an index [i] of [range(count)]. *)
Definition fmt_d (i : nat) : string := NilZero.string_of_uint (Nat.to_uint i).

(** ['%s.%d' % (key, i)] *)
Definition indexed (key : string) (i : nat) : string :=
  key +:+ "." +:+ fmt_d i.

(** [range(count)]: the indices below an integer [count] of any size
    (none when it is negative); for any other type of value a
    [TypeError]. *)
Definition range (count : value) : res (list nat) :=
  match count with
  | VInt z => Ok (seq 0 (Z.to_nat z))
  | _ => Raise TypeError
  end.

(** [for x in xs: body(x)] *)
Fixpoint for_each {A : Type} (body : A → state → res state)
    (xs : list A) (st : state) : res state :=
  match xs with
  | [] => Ok st
  | x :: xs' => st' ← body x st; for_each body xs' st'
  end.

(** ** [copy_element] *)

Fixpoint copy_element (fuel : nat) (source dest : string)
    (cb : option callback) (st : state) : res state :=
  match fuel with
  | O => OutOfFuel
  | S n =>
    match store st !! source with
    | Some v =>
        let st := set_item dest v st in
        st ← copy_element n (source +:+ "/language") (dest +:+ "/language") None st;
        st ← copy_element n (source +:+ "/@lang") (dest +:+ "/language") None st;
        st ← copy_element n (source +:+ "/@xml:lang") (dest +:+ "/language") None st;
        st ← copy_element n (source +:+ "/@rdf:resource") dest None st;
        match cb with
        | Some f => f n source dest (log_call source dest st)
        | None => Ok st
        end
    | None =>
        let count := default (VInt 0) (store st !! (source +:+ ".count")) in
        if negb (truthy count) then Ok st
        else
          let st := set_item (dest +:+ ".count") count st in
          idx ← range count;
          for_each (λ i, copy_element n (indexed source i) (indexed dest i) cb)
                   idx st
    end
  end.

(** ** Attribute callbacks *)

Definition person_attrs : callback := λ n source dest result,
  result ← copy_element n (source +:+ "/foaf:name") (dest +:+ "/name") None result;
  result ← copy_element n (source +:+ "/foaf:mbox") (dest +:+ "/email") None result;
  copy_element n (source +:+ "/foaf:phone") (dest +:+ "/phone") None result.

Definition document_attrs : callback := λ n source dest result,
  result ← copy_element n (source +:+ "/dct:title") (dest +:+ "/title") None result;
  result ← copy_element n (source +:+ "/dct:identifier") dest None result;
  result ← copy_element n (source +:+ "/dct:creator") (dest +:+ "/creator.0/name") None result;
  result ← copy_element n (source +:+ "/nrd:creator") (dest +:+ "/creator") (Some person_attrs) result;
  copy_element n (source +:+ "/dct:description") (dest +:+ "/description") None result.

Definition funding_attrs : callback := λ n source dest result,
  result ← copy_element n (source +:+ "/rev:arpfo:funds.0/arpfo:grantNumber")
                          (dest +:+ "/fundingNumber") None result;
  copy_element n (source +:+ "/rev:arpfo:funds.0/rev:arpfo:provides")
                 (dest +:+ "/funder") (Some person_attrs) result.

Definition file_attrs : callback := λ n source dest result,
  result ← copy_element n (source +:+ "/dcat:mediaType") (dest +:+ "/mimetype") None result;
  result ← copy_element n (source +:+ "/fp:checksum.0/fp:checksumValue.0")
                          (dest +:+ "/checksum.0") None result;
  result ← copy_element n (source +:+ "/fp:checksum.0/fp:generator.0")
                          (dest +:+ "/checksum.0/algorithm") None result;
  copy_element n (source +:+ "/dcat:byteSize") (dest +:+ "/size") None result.

(** ** The rule table of [nrd_metadata_reader] *)

Definition mapping : list (string * string * option callback) :=
  [ ("dataset", "versionidentifier", None);
    ("dataset/nrd:continuityIdentifier", "continuityidentifier", None);
    ("dataset/rev:foaf:primaryTopic.0/nrd:metadataIdentifier", "metadata/identifier", None);
    ("dataset/rev:foaf:primaryTopic.0/nrd:metadataModified", "metadata/modified", None);
    ("dataset/dct:title", "title", None);
    ("dataset/nrd:modified", "modified", None);
    ("dataset/nrd:rights", "rights", None);
    ("dataset/nrd:language", "language", None);
    ("dataset/nrd:owner", "owner", Some person_attrs);
    ("dataset/nrd:creator", "creator", Some person_attrs);
    ("dataset/nrd:distributor", "distributor", Some person_attrs);
    ("dataset/nrd:contributor", "contributor", Some person_attrs);
    ("dataset/nrd:subject", "subject", None);
    ("dataset/nrd:producerProject", "project", Some funding_attrs);
    ("dataset/dct:isPartOf", "collection", Some document_attrs);
    ("dataset/dct:requires", "requires", None);
    ("dataset/nrd:discipline", "discipline", None);
    ("dataset/nrd:temporal", "temporalcoverage", None);
    ("dataset/nrd:spatial", "spatialcoverage", None);
    ("dataset/nrd:manifestation", "resource", Some file_attrs);
    ("dataset/nrd:observationMatrix", "variables", None);
    ("dataset/nrd:usedByPublication", "publication", Some document_attrs);
    ("dataset/dct:description", "description", None) ].

(** [for source, dest, callback in mapping: copy_element(...)] *)
Definition apply_mapping (fuel : nat)
    (rules : list (string * string * option callback)) (st : state) : res state :=
  for_each (λ '(source, dest, cb), copy_element fuel source dest cb) rules st.

(** ** Rights post-processing *)

(** An [lxml] element, as far as the reader looks at it: [attrib], [text]
    and the child elements. *)
Inductive element : Type :=
  | Element (attrib : gmap string string) (text : option string)
            (children : list element).

Definition attrib (e : element) : gmap string string :=
  match e with Element a _ _ => a end.
Definition text (e : element) : option string :=
  match e with Element _ t _ => t end.
Definition children (e : element) : list element :=
  match e with Element _ _ c => c end.

Definition KeyError : exn := Exn "KeyError".
Definition IndexError : exn := Exn "IndexError".

(** [str.lower()] on a string of ASCII characters: the letters [A] to
    [Z] become [a] to [z], every other character stays.  It stands for
    [lower] in the examples below, whose strings are ASCII; of strings
    with other characters it says nothing that matters here. *)
Definition ascii_lower_char (c : ascii) : ascii :=
  let n := nat_of_ascii c in
  if ((65 <=? n)%nat && (n <=? 90)%nat)%bool then ascii_of_nat (n + 32) else c.

Fixpoint ascii_lower (s : string) : string :=
  match s with
  | EmptyString => EmptyString
  | String c s' => String (ascii_lower_char c) (ascii_lower s')
  end.

(** [.text] as a dictionary value: a string, or [None]. *)
Definition text_value (e : element) : value :=
  match text e with
  | Some s => VStr s
  | None => VNone
  end.

Section Reader.
(** [lxml.etree.XML]: the parsed root element, or the exception raised
    for a value that is not well-formed markup. *)
Variable XML : value → exn + element.

(** [str.lower()].  What it makes of a string with letters outside
    ASCII depends on the type of the string and on the Unicode tables
    of the interpreter, so the reader takes it as it comes. *)
Variable lower : string → string.

(** [result[key] = rights[0].text]; the dictionary as left behind and
    the exception that escaped, if any. *)
Definition set_first_child_text (key : string) (rights : element)
    (result : gmap string value) : gmap string value * option exn :=
  match children rights !! 0%nat with
  | Some child => (<[key := text_value child]> result, None)
  | None => (result, Some IndexError)
  end.

(** The body of the [try] block of [nrd_metadata_reader]. *)
Definition rights_try (result : gmap string value)
    : gmap string value * option exn :=
  match result !! "rights" with
  | None => (result, Some KeyError)
  | Some r =>
    match XML r with
    | inl e => (result, Some e)
    | inr rights =>
      match attrib rights !! "RIGHTSCATEGORY" with
      | None => (result, Some KeyError)
      | Some category =>
        let rightsclass := lower category in
        let result := <["rightsclass" := VStr rightsclass]> result in
        let '(result, raised) :=
          if decide (rightsclass = "licensed")
          then set_first_child_text "license" rights result
          else (result, None) in
        match raised with
        | Some e => (result, Some e)
        | None =>
          if decide (rightsclass = "contractual")
          then set_first_child_text "accessURL" rights result
          else (result, None)
        end
      end
    end
  end.

(** [try: ... except: pass] *)
Definition rights_pass (result : gmap string value) : gmap string value :=
  (rights_try result).1.

(** [nrd_metadata_reader], from the flat record that
    [rdf_reader(xml).getMap()] delivers to the map that is wrapped
    into [oc.Metadata]. *)
Definition nrd_metadata_reader (fuel : nat) (result : gmap string value)
    : res (gmap string value) :=
  st ← apply_mapping fuel mapping (State result []);
  Ok (rights_pass (store st)).
End Reader.

(** ** [ExceptReturn] *)

(** [ExceptReturn(exception, returns)(f)]: [exception] is given by the
    exceptions it matches.  The wrapped function may have effects of its
    own on a world [W]; they persist when it raises.  The messages sent
    to [log] are not modelled. *)
Definition ExceptReturn {W A B : Type} (exception : exn → bool) (returns : B)
    (f : A → W → res B * W) : A → W → res B * W := λ args w,
  match f args w with
  | (Ok r, w') => (Ok r, w')
  | (Raise e, w') => if exception e then (Ok returns, w') else (Raise e, w')
  | (OutOfFuel, w') => (OutOfFuel, w')
  end.

(** * Vocabulary of the properties *)

(** ** Keys: prefixes and subtrees *)

(** [k] begins with [p]. *)
Definition key_prefix (p k : string) : Prop := ∃ t, k = p +:+ t.

(** [k] lies in the subtree of [d]: it is [d] itself, or [d] followed by
    a [/] segment or a [.] suffix. *)
Definition under (d k : string) : Prop :=
  k = d ∨ key_prefix (d +:+ "/") k ∨ key_prefix (d +:+ ".") k.

(** ** The two branches of [copy_element], named for the proofs *)

Definition scalar_branch (n : nat) (source dest : string)
    (cb : option callback) (v : value) (st : state) : res state :=
  let st := set_item dest v st in
  st ← copy_element n (source +:+ "/language") (dest +:+ "/language") None st;
  st ← copy_element n (source +:+ "/@lang") (dest +:+ "/language") None st;
  st ← copy_element n (source +:+ "/@xml:lang") (dest +:+ "/language") None st;
  st ← copy_element n (source +:+ "/@rdf:resource") dest None st;
  match cb with
  | Some f => f n source dest (log_call source dest st)
  | None => Ok st
  end.

Definition repeated_branch (n : nat) (source dest : string)
    (cb : option callback) (count : value) (st : state) : res state :=
  if negb (truthy count) then Ok st
  else
    let st := set_item (dest +:+ ".count") count st in
    idx ← range count;
    for_each (λ i, copy_element n (indexed source i) (indexed dest i) cb) idx st.

(** ** Footprints: what a piece of the program reads and writes *)

(** Two dictionaries agree on the keys in [R]. *)
Definition agree (R : string → Prop) (m1 m2 : gmap string value) : Prop :=
  ∀ k, R k → m1 !! k = m2 !! k.

(** Two runs made the same update: every key was left alone by both, or
    ends with the same value in both. *)
Definition same_update (m1 m1' m2 m2' : gmap string value) : Prop :=
  ∀ k, (m1' !! k = m1 !! k ∧ m2' !! k = m2 !! k) ∨ m2' !! k = m1' !! k.

(** [f] reads only keys in [R] and writes only keys in [W]: whenever it
    returns, keys outside [W] are unchanged and no key is lost; and on
    any dictionary that agrees on [R] it returns too, having made the
    same update. *)
Definition localized (R W : string → Prop) (f : state → res state) : Prop :=
  ∀ st1 st1', f st1 = Ok st1' →
    (∀ k, ¬ W k → store st1' !! k = store st1 !! k) ∧
    (∀ k, is_Some (store st1 !! k) → is_Some (store st1' !! k)) ∧
    (∀ st2, agree R (store st1) (store st2) →
       ∃ st2', f st2 = Ok st2' ∧
               same_update (store st1) (store st1') (store st2) (store st2')).

Definition cb_localized (cb : option callback) : Prop :=
  match cb with
  | None => True
  | Some f => ∀ n s d, localized (key_prefix s) (under d) (f n s d)
  end.

(** A state transformer that makes no callback invocation. *)
Definition quiet (f : state → res state) : Prop :=
  ∀ st st', f st = Ok st' → calls st' = calls st.

(** ** Termination *)

(** Every [.count] entry of the record is an integer. *)
Definition counts_int (m : gmap string value) : Prop :=
  ∀ k v, m !! (k +:+ ".count") = Some v → ∃ z, v = VInt z.

(** What a call on [s] relies on: below [s] no key is longer than [L]
    and every [.count] entry is an integer. *)
Definition readable (s : string) (L : nat) (st : state) : Prop :=
  (∀ k, key_prefix s k → is_Some (store st !! k) → (String.length k ≤ L)%nat) ∧
  (∀ k v, key_prefix s (k +:+ ".count") →
          store st !! (k +:+ ".count") = Some v → ∃ z, v = VInt z).

(** [f] returns on every state in [P], and stays in [P]. *)
Definition total_on (P : state → Prop) (f : state → res state) : Prop :=
  ∀ st, P st → ∃ st', f st = Ok st' ∧ P st'.

(** The writes under [d] miss everything below [s]. *)
Definition apart (s d : string) : Prop := ∀ k, under d k → ¬ key_prefix s k.

(** A callback returns whenever it is given a depth budget that covers
    the keys below its source. *)
Definition cb_total (L : nat) (cb : option callback) : Prop :=
  match cb with
  | None => True
  | Some f => ∀ m s d, apart s d → (0 < m)%nat → (L < m + String.length s)%nat →
                       total_on (readable s L) (f m s d)
  end.

(** The depth budget [n] covers the keys below [s], none of which is
    longer than [L]. *)
Definition covers (L n : nat) (s : string) : Prop :=
  (0 < n ∧ L + 1 < n + String.length s)%nat.

(** [run] returns one and the same result for every depth budget from
    some point on. *)
Definition returns_eventually {A : Type} (run : nat → res A) : Prop :=
  ∃ a n0, ∀ n, (n0 ≤ n)%nat → run n = Ok a.

(** [g] returns whatever [f] returns. *)
Definition extends (f g : state → res state) : Prop :=
  ∀ st st', f st = Ok st' → g st = Ok st'.

(** A callback returns the same with a larger depth budget. *)
Definition cb_mono (cb : option callback) : Prop :=
  match cb with
  | None => True
  | Some f => ∀ n s d, extends (f n s d) (f (S n) s d)
  end.

(** A callback as [copy_element] can be reasoned about: it reads below
    its source and writes under its destination only, returns whenever
    its depth budget covers the keys below its source, and returns the
    same with a larger budget. *)
Definition cb_regular (cb : option callback) : Prop :=
  cb_localized cb ∧ cb_mono cb ∧ ∀ L, cb_total L cb.

(** ** Inputs and vocabulary of the individual properties *)

(** A fresh dictionary, before any callback invocation. *)
Definition st_of (m : gmap string value) : state := State m [].

(** The four variants of a scalar element that [copy_element] projects. *)
Definition variants : list string :=
  ["/language"; "/@lang"; "/@xml:lang"; "/@rdf:resource"].

(** The variants of [source] are leaves: the record has no key that
    extends one of them. *)
Definition leaf_variants (source : string) (m : gmap string value) : Prop :=
  ∀ x t, x ∈ variants → t ≠ "" → m !! ((source +:+ x) +:+ t) = None.

(** A value that is present overwrites the previous one. *)
Definition overwrite (new old : option value) : option value :=
  match new with
  | Some x => Some x
  | None => old
  end.

(** [md[key] = x] when there is an [x]. *)
Definition put_opt (key : string) (o : option value) (st : state) : state :=
  match o with
  | Some x => set_item key x st
  | None => st
  end.

(** A callback that records its visit under the destination. *)
Definition mark_seen : callback := λ _ _ dest st,
  Ok (set_item (dest +:+ "/seen") (VInt 1) st).

(** A scalar element with all of its variants. *)
Definition lang_record : gmap string value :=
  <["x" := VStr "text"]> (<["x/language" := VStr "en"]> (<["x/@lang" := VStr "fi"]>
  (<["x/@xml:lang" := VStr "sv"]> (<["x/@rdf:resource" := VStr "http://ex"]> ∅)))).

(** A repeated element with two scalar instances, its projection onto
    [b], and the projection with [mark_seen] as the callback. *)
Definition pair_record : gmap string value :=
  <["a.count" := VInt 2]> (<["a.0" := VStr "x"]> (<["a.1" := VStr "y"]> ∅)).
Definition pair_projected : gmap string value :=
  <["b.count" := VInt 2]> (<["b.0" := VStr "x"]> (<["b.1" := VStr "y"]> pair_record)).
Definition pair_marked : state :=
  State (<["b.0/seen" := VInt 1]> (<["b.1/seen" := VInt 1]> pair_projected))
        [("a.0", "b.0"); ("a.1", "b.1")].

(** A repeated element that announces instances it does not have. *)
Definition empty_pair : gmap string value := {["a.count" := VInt 2]}.

(** A scalar element whose resource has a language of its own. *)
Definition nested_lang_record : gmap string value :=
  <["x/@rdf:resource/language" := VStr "de"]> lang_record.

(** The scenario record of the specification. *)
Definition scenario_record : gmap string value :=
  <["dataset/dct:title" := VStr "Sample"]>
  (<["dataset/nrd:creator.count" := VInt 2]>
  (<["dataset/nrd:creator.0/foaf:name" := VStr "Alice"]>
  (<["dataset/nrd:creator.1/foaf:name" := VStr "Bob"]> ∅))).

(** What the reader makes of it. *)
Definition scenario_result : gmap string value :=
  <["title" := VStr "Sample"]> (<["creator.count" := VInt 2]> scenario_record).

(** The scenario with the two creators present as elements of their
    own, and what the reader makes of that. *)
Definition scenario_with_instances : gmap string value :=
  <["dataset/nrd:creator.0" := VStr ""]>
  (<["dataset/nrd:creator.1" := VStr ""]> scenario_record).
Definition scenario_with_instances_result : gmap string value :=
  <["title" := VStr "Sample"]> (<["creator.count" := VInt 2]>
  (<["creator.0" := VStr ""]> (<["creator.0/name" := VStr "Alice"]>
  (<["creator.1" := VStr ""]> (<["creator.1/name" := VStr "Bob"]>
   scenario_with_instances))))).

(** A parser that rejects every value. *)
Definition no_markup : value → exn + element :=
  λ _, inl (Exn "XMLSyntaxError").

(** ** The rule table, as the reader relies on it *)

(** [under], decided. *)
Definition underb (d k : string) : bool :=
  String.eqb k d || String.prefix (d +:+ "/") k || String.prefix (d +:+ ".") k.

(** The keys a rule table can write. *)
Definition written_by (rules : list (string * string * option callback))
    (k : string) : Prop :=
  ∃ s d cb, (s, d, cb) ∈ rules ∧ under d k.

(** The three keys of the rights post-processing. *)
Definition rights_keys : list string := ["rightsclass"; "license"; "accessURL"].

(** What the table of [nrd_metadata_reader] relies on: every source lies
    under [dataset], no destination does, and no destination subtree
    holds one of the rights keys. *)
Definition rule_ok (rule : string * string * option callback) : bool :=
  let '(s, d, _) := rule in
  String.prefix "dataset" s
  && negb (String.prefix d "dataset") && negb (String.prefix "dataset" d)
  && forallb (λ k, negb (underb d k)) rights_keys.

(** A record on which projecting [a/language] onto [a] rewrites its own
    source. *)
Definition looped_record : gmap string value :=
  <["a/language" := VStr "en"]> (<["a/language/language" := VStr "fi"]> ∅).

(** [looped_record] after one and after two projections of
    [a/language] onto [a]. *)
Definition looped_once : gmap string value :=
  <["a" := VStr "en"]> (<["a/language" := VStr "fi"]> looped_record).
Definition looped_twice : gmap string value :=
  <["a" := VStr "fi"]> looped_once.

(** Rights markup with a category and no child element. *)
Definition licensed_text : value := VStr "<rights RIGHTSCATEGORY='LICENSED'/>".

(** [lxml.etree.XML] on [licensed_text]: an element with the category
    attribute and no child; anything else is rejected here. *)
Definition licensed_markup : value → exn + element := λ v,
  if decide (v = licensed_text)
  then inr (Element {["RIGHTSCATEGORY" := "LICENSED"]} None [])
  else inl (Exn "XMLSyntaxError").

Definition rights_record : gmap string value :=
  {["dataset/nrd:rights" := licensed_text]}.

(** The projection of [rights_record], and what the reader returns. *)
Definition rights_projected : gmap string value :=
  <["rights" := licensed_text]> rights_record.
Definition rights_result : gmap string value :=
  <["rightsclass" := VStr "licensed"]> rights_projected.

(** * Vocabulary of the further properties *)

(** Nothing lies below [s]: the record has no key that extends [s]. *)
Definition childless (s : string) (m : gmap string value) : Prop :=
  ∀ t, t ≠ "" → m !! (s +:+ t) = None.

(** [md[key] = x] when there is an [x], followed by the invocation of
    the callback being logged. *)
Definition put_logged (source key : string) (o : option value) (st : state)
    : state :=
  match o with
  | Some x => log_call source key (set_item key x st)
  | None => st
  end.

(** A decimal digit. *)
Definition is_digit (c : ascii) : bool :=
  match c with
  | "0" | "1" | "2" | "3" | "4" | "5" | "6" | "7" | "8" | "9" => true
  | _ => false
  end%char.

(** A string of decimal digits. *)
Fixpoint all_digits (s : string) : bool :=
  match s with
  | EmptyString => true
  | String c s' => is_digit c && all_digits s'
  end.

(** A string that does not go on with a digit. *)
Definition no_digit_head (s : string) : bool :=
  match s with
  | EmptyString => true
  | String c _ => negb (is_digit c)
  end.

(** [g] decides the new value of a key from its old value alone. *)
Definition keywise (g : state → state) : Prop :=
  ∀ cur cur' k, store cur !! k = store cur' !! k →
                store (g cur) !! k = store (g cur') !! k.

(** A person element with plain attributes: no language or resource
    variant, and nothing below its name, mailbox and phone. *)
Definition plain_person (s : string) (m : gmap string value) : Prop :=
  (∀ x t, x ∈ variants → m !! ((s +:+ x) +:+ t) = None) ∧
  childless (s +:+ "/foaf:name") m ∧
  childless (s +:+ "/foaf:mbox") m ∧
  childless (s +:+ "/foaf:phone") m.

(** What projecting a person with value [v] and the given attributes
    leaves under [d]. *)
Definition copy_person (s d : string) (v : value)
    (name mbox phone : option value) (st : state) : state :=
  put_opt (d +:+ "/phone") phone
    (put_opt (d +:+ "/email") mbox
       (put_opt (d +:+ "/name") name (log_call s d (set_item d v st)))).

(** The instance [i] of a list of persons, read from [m]. *)
Definition copy_person_at (m : gmap string value) (s d : string) (i : nat)
    (st : state) : state :=
  copy_person (indexed s i) (indexed d i) (default VNone (m !! indexed s i))
    (m !! (indexed s i +:+ "/foaf:name")) (m !! (indexed s i +:+ "/foaf:mbox"))
    (m !! (indexed s i +:+ "/foaf:phone")) st.

(** [g] ends as [f] does whenever [f] ends within its depth budget, be
    it with a result or with an exception. *)
Definition settles (f g : state → res state) : Prop :=
  ∀ st r, f st = r → r ≠ OutOfFuel → g st = r.

(** A callback ends the same way with a larger depth budget. *)
Definition cb_settles (cb : option callback) : Prop :=
  match cb with
  | None => True
  | Some f => ∀ n s d, settles (f n s d) (f (S n) s d)
  end.

(** A callback raises nothing but a [TypeError]. *)
Definition cb_raises (cb : option callback) : Prop :=
  match cb with
  | None => True
  | Some f => ∀ n s d st e, f n s d st = Raise e → e = TypeError
  end.

(** [rights[0].text], when [rights] has a first child. *)
Definition first_child_text (rights : element) : option value :=
  text_value <$> children rights !! 0%nat.

Definition rule : Type := string * string * option callback.
Definition rule_source (r : rule) : string := r.1.1.
Definition rule_dest (r : rule) : string := r.1.2.
Definition rule_callback (r : rule) : option callback := r.2.

(** Nothing lies under both [d] and [d']. *)
Definition separate (d d' : string) : Prop := ∀ k, under d k → ¬ under d' k.

Definition separateb (d d' : string) : bool :=
  negb (String.prefix d d') && negb (String.prefix d' d).

(** A rule table in which every source lies under [dataset], nothing a
    rule writes does, and no two rules write the same key. *)
Definition table_ok (rules : list rule) : Prop :=
  NoDup (rule_dest <$> rules) ∧
  (∀ r, r ∈ rules →
     cb_localized (rule_callback r) ∧ key_prefix "dataset" (rule_source r) ∧
     ∀ k, under (rule_dest r) k → ¬ key_prefix "dataset" k) ∧
  (∀ r r', r ∈ rules → r' ∈ rules → rule_dest r ≠ rule_dest r' →
     separate (rule_dest r) (rule_dest r')).

Definition table_okb (rules : list rule) : bool :=
  forallb (λ r, forallb (λ r', String.eqb (rule_dest r) (rule_dest r')
                               || separateb (rule_dest r) (rule_dest r')) rules) rules.

(** The invocation that projecting a person leaves in the log, if the
    person is there. *)
Definition logged (source key : string) (o : option value)
    : list (string * string) :=
  match o with
  | Some _ => [(source, key)]
  | None => []
  end.

(** What projecting a list of [N] plain scalars leaves behind. *)
Definition copy_list (s d : string) (N : Z) (st : state) : state :=
  foldl (λ cur i, put_opt (indexed d i) (store st !! indexed s i) cur)
        (set_item (d +:+ ".count") (VInt N) st) (seq 0 (Z.to_nat N)).

(** What projecting a list of [N] persons leaves behind. *)
Definition copy_persons (s d : string) (N : Z) (st : state) : state :=
  foldl (λ cur i, copy_person_at (store st) s d i cur)
        (set_item (d +:+ ".count") (VInt N) st) (seq 0 (Z.to_nat N)).

(** [s] ends with [suffix]. *)
Fixpoint ends_with (suffix s : string) : bool :=
  String.eqb suffix s ||
  match s with
  | EmptyString => false
  | String _ s' => ends_with suffix s'
  end.

(** ** Records of the examples *)

(** A list of two persons, the second one without a mailbox. *)
Definition persons_record : gmap string value :=
  list_to_map [("p.count", VInt 2);
               ("p.0", VStr "first"); ("p.0/foaf:name", VStr "Alice");
               ("p.0/foaf:mbox", VStr "alice@example.org");
               ("p.1", VStr "second"); ("p.1/foaf:name", VStr "Bob")].

(** A list that announces a negative number of instances. *)
Definition negative_record : gmap string value :=
  list_to_map [("a.count", VInt (-3)); ("a.0", VStr "x")].

(** A list whose count is a string. *)
Definition text_count_record : gmap string value :=
  list_to_map [("a.count", VStr "2"); ("a.0", VStr "x")].

(** A manifestation with a media type, a checksum and a size. *)
Definition file_record : gmap string value :=
  list_to_map [("f/dcat:mediaType", VStr "text/csv");
               ("f/fp:checksum.0/fp:checksumValue.0", VStr "9e107d9d");
               ("f/dcat:byteSize", VInt 1024)].

(** A document with a title, an identifier and a creator element. *)
Definition document_record : gmap string value :=
  list_to_map [("doc/dct:title", VStr "Annual report");
               ("doc/dct:identifier", VStr "urn:nbn:fi-1");
               ("doc/nrd:creator", VStr "creator")].

(** A project with a grant number and a funder. *)
Definition funding_record : gmap string value :=
  list_to_map [("grant/rev:arpfo:funds.0/arpfo:grantNumber", VStr "12345");
               ("grant/rev:arpfo:funds.0/rev:arpfo:provides", VStr "funder")].

(** Rights markup with a category and a first child. *)
Definition license_text : value :=
  VStr "<rights RIGHTSCATEGORY='LICENSED'><l>CC-BY-4.0</l></rights>".

(** [lxml.etree.XML] on [license_text]; anything else is rejected
    here. *)
Definition license_markup : value → exn + element := λ v,
  if decide (v = license_text)
  then inr (Element {["RIGHTSCATEGORY" := "LICENSED"]} None
                    [Element ∅ (Some "CC-BY-4.0") []])
  else inl (Exn "XMLSyntaxError").

(** A record with a title, two creators, rights and a key of another
    schema. *)
Definition reader_record : gmap string value :=
  list_to_map [("dataset/dct:title", VStr "Sample");
               ("dataset/nrd:creator.count", VInt 2);
               ("dataset/nrd:creator.0", VStr "c0");
               ("dataset/nrd:creator.0/foaf:name", VStr "Alice");
               ("dataset/nrd:creator.1", VStr "c1");
               ("dataset/nrd:creator.1/foaf:name", VStr "Bob");
               ("dataset/nrd:rights", license_text);
               ("note", VStr "kept")].

(** A record whose subject count is a string. *)
Definition bad_count_record : gmap string value :=
  list_to_map [("dataset/nrd:subject.count", VStr "many")].

(** A record of another schema. *)
Definition foreign_record : gmap string value :=
  list_to_map [("title", VStr "Sample"); ("creator.count", VInt 1)].

(** ** Invocations in the log *)

(** A callback that, when it returns, has only added to the log of
    invocations and has kept the keys of the record. *)
Definition cb_appends (f : callback) : Prop :=
  ∀ n s d st st', f n s d st = Ok st' →
    (∃ l, calls st' = calls st ++ l) ∧
    ∀ k, is_Some (store st !! k) → is_Some (store st' !! k).

(** The log of a call that invoked its callback once per index of
    [idx], in this order; [nested] holds, per invocation, what the
    callback itself added to the log. *)
Definition invocations (source dest : string) (idx : list nat)
    (nested : list (list (string * string))) : list (string * string) :=
  concat (zip_with (λ i l, (indexed source i, indexed dest i) :: l) idx nested).

(** [l] is what an invocation of [f] on [(source, dest)] added to the
    log after the entry of the invocation itself. *)
Definition added_by (f : callback) (source dest : string)
    (l : list (string * string)) : Prop :=
  ∃ n st st', f n source dest (log_call source dest st) = Ok st' ∧
              calls st' = calls st ++ (source, dest) :: l.

(** A list of two documents, the second with a creator element. *)
Definition documents_record : gmap string value :=
  list_to_map [("docs.count", VInt 2);
               ("docs.0", VStr "first"); ("docs.0/dct:title", VStr "One");
               ("docs.1", VStr "second"); ("docs.1/nrd:creator", VStr "creator")].

(** ** Nested records *)

(** An element nested [depth] levels deep: [key] with a language, which
    has a language of its own, and so on. *)
Fixpoint nested_record (key : string) (depth : nat) : gmap string value :=
  match depth with
  | O => {[key := VInt 0]}
  | S depth' => <[key := VInt 0]> (nested_record (key +:+ "/language") depth')
  end.

(** ** Plain instances *)

(** [s] has nothing under it: the record has no key [s/...] and no key
    [s. ...].  A key that merely goes on after [s], as [s0] does, is
    another matter. *)
Definition leaf_key (s : string) (m : gmap string value) : Prop :=
  ∀ k, under s k → k ≠ s → m !! k = None.

(** A list of eleven plain scalars. *)
Definition eleven_record : gmap string value :=
  list_to_map [("a.count", VInt 11);
               ("a.0", VStr "v0"); ("a.1", VStr "v1"); ("a.2", VStr "v2");
               ("a.3", VStr "v3"); ("a.4", VStr "v4"); ("a.5", VStr "v5");
               ("a.6", VStr "v6"); ("a.7", VStr "v7"); ("a.8", VStr "v8");
               ("a.9", VStr "v9"); ("a.10", VStr "v10")].

(** A parser that accepts every value as an element without attributes
    and without children. *)
Definition bare_markup : value → exn + element :=
  λ _, inr (Element ∅ None []).

(** A repeated element of which only the first instance is there. *)
Definition half_pair : gmap string value :=
  list_to_map [("a.count", VInt 2); ("a.0", VStr "x")].


(** * Properties *)

(** ** Keys: prefixes and subtrees *)

Lemma str_app_cons c (s t : string) : String c s +:+ t = String c (s +:+ t).
Proof. reflexivity. Qed.

Lemma str_app_nil_r (s : string) : s +:+ "" = s.
Proof. induction s as [|c s IH]; [done|]. by rewrite str_app_cons, IH. Qed.

Lemma str_app_assoc (a b c : string) : (a +:+ b) +:+ c = a +:+ (b +:+ c).
Proof.
  induction a as [|x a IH]; [done|]. by rewrite !str_app_cons, IH.
Qed.

Lemma str_app_length (a b : string) :
  String.length (a +:+ b) = (String.length a + String.length b)%nat.
Proof.
  induction a as [|x a IH]; [done|]. rewrite str_app_cons. simpl. by rewrite IH.
Qed.

Lemma key_prefix_refl (p : string) : key_prefix p p.
Proof. exists "". by rewrite str_app_nil_r. Qed.

Lemma key_prefix_app_r (p x : string) : key_prefix p (p +:+ x).
Proof. by exists x. Qed.

Lemma key_prefix_trans (p q k : string) :
  key_prefix p q → key_prefix q k → key_prefix p k.
Proof. intros [t ->] [u ->]. exists (t +:+ u). apply str_app_assoc. Qed.

Lemma key_prefix_app_l (p x k : string) :
  key_prefix (p +:+ x) k → key_prefix p k.
Proof. apply key_prefix_trans, key_prefix_app_r. Qed.

Lemma under_refl (d : string) : under d d.
Proof. by left. Qed.

Lemma under_key_prefix (d k : string) : under d k → key_prefix d k.
Proof.
  intros [->|[H|H]]; [apply key_prefix_refl|by eapply key_prefix_app_l..].
Qed.

Lemma under_slash (d x k : string) : under (d +:+ String "/" x) k → under d k.
Proof.
  intros H. right; left. apply under_key_prefix in H.
  eapply key_prefix_trans; [|exact H].
  exists x. by rewrite str_app_assoc.
Qed.

Lemma under_dot (d x k : string) : under (d +:+ String "." x) k → under d k.
Proof.
  intros H. right; right. apply under_key_prefix in H.
  eapply key_prefix_trans; [|exact H].
  exists x. by rewrite str_app_assoc.
Qed.

Lemma indexed_eq (key : string) (i : nat) :
  indexed key i = key +:+ String "." (fmt_d i).
Proof. reflexivity. Qed.

Lemma under_indexed (d k : string) (i : nat) : under (indexed d i) k → under d k.
Proof. rewrite indexed_eq. apply under_dot. Qed.

Lemma key_prefix_indexed (s k : string) (i : nat) :
  key_prefix (indexed s i) k → key_prefix s k.
Proof. rewrite indexed_eq. apply key_prefix_app_l. Qed.

(** A formatted index starts with a digit, never with the [c] of
    [count]. *)
Lemma fmt_d_head (i : nat) : ∃ c r, fmt_d i = String c r ∧ c ≠ "c"%char.
Proof.
  unfold fmt_d. destruct (Nat.to_uint i) as [|u|u|u|u|u|u|u|u|u|u];
    simpl; eexists _, _; (split; [reflexivity|discriminate]).
Qed.

Lemma str_app_inv_head (p a b : string) : p +:+ a = p +:+ b → a = b.
Proof.
  induction p as [|c p IH]; [done|]. rewrite !str_app_cons. intros [=]. auto.
Qed.

Lemma count_not_under_indexed (d : string) (i : nat) :
  ¬ under (indexed d i) (d +:+ ".count").
Proof.
  intros H%under_key_prefix. destruct H as [t H].
  rewrite indexed_eq, str_app_assoc in H. apply str_app_inv_head in H.
  destruct (fmt_d_head i) as (c & r & Hd & Hc). rewrite Hd in H.
  rewrite !str_app_cons in H. injection H as Hh _. by subst c.
Qed.

Lemma copy_element_unfold n source dest cb st :
  copy_element (S n) source dest cb st =
  match store st !! source with
  | Some v => scalar_branch n source dest cb v st
  | None =>
      repeated_branch n source dest cb
        (default (VInt 0) (store st !! (source +:+ ".count"))) st
  end.
Proof. reflexivity. Qed.

Lemma bind_Ok_inv {A B : Type} (m : res A) (g : A → res B) (b : B) :
  m ≫= g = Ok b → ∃ a, m = Ok a ∧ g a = Ok b.
Proof. destruct m as [a| |]; [|done..]. intros H. by exists a. Qed.

Lemma bind_Ok {A B : Type} (m : res A) (g : A → res B) (a : A) :
  m = Ok a → m ≫= g = g a.
Proof. by intros ->. Qed.

Lemma same_update_refl m1 m2 : same_update m1 m1 m2 m2.
Proof. intros k. by left. Qed.

Lemma same_update_trans m1 m1a m1b m2 m2a m2b :
  same_update m1 m1a m2 m2a → same_update m1a m1b m2a m2b →
  same_update m1 m1b m2 m2b.
Proof.
  intros H1 H2 k. destruct (H1 k) as [[E1 E2]|E1], (H2 k) as [[F1 F2]|F1].
  - left. split; congruence.
  - by right.
  - right. congruence.
  - by right.
Qed.

Lemma same_update_agree R m1 m1' m2 m2' :
  agree R m1 m2 → same_update m1 m1' m2 m2' → agree R m1' m2'.
Proof.
  intros Ha Hu k Hk. destruct (Hu k) as [[E1 E2]|E1]; [|done].
  rewrite E1, E2. by apply Ha.
Qed.

Lemma agree_weaken (R R' : string → Prop) m1 m2 :
  (∀ k, R k → R' k) → agree R' m1 m2 → agree R m1 m2.
Proof. intros HR Ha k Hk. apply Ha, HR, Hk. Qed.

Section Localized.
Variables R W : string → Prop.

Lemma localized_ext f g :
  (∀ st, f st = g st) → localized R W g → localized R W f.
Proof.
  intros Hfg Hg st1 st1' H. rewrite Hfg in H.
  destruct (Hg _ _ H) as (Hfr & Hk & Hsim). split_and!; [done..|].
  intros st2 Ha. rewrite Hfg. by apply Hsim.
Qed.

Lemma localized_ok : localized R W Ok.
Proof.
  intros st1 st1' [= <-]. split_and!; [done..|].
  intros st2 _. exists st2. split; [done|]. apply same_update_refl.
Qed.

Lemma localized_raise e : localized R W (λ _, Raise e).
Proof. by intros st1 st1' H. Qed.

Lemma localized_bind f g :
  localized R W f → localized R W g → localized R W (λ st, f st ≫= g).
Proof.
  intros Hf Hg st1 st1' H.
  apply bind_Ok_inv in H as (sta & Ef & Eg).
  destruct (Hf _ _ Ef) as (Hfr1 & Hk1 & Hsim1).
  destruct (Hg _ _ Eg) as (Hfr2 & Hk2 & Hsim2).
  split_and!.
  - intros k Hk. rewrite Hfr2, Hfr1; done.
  - intros k Hk. by apply Hk2, Hk1.
  - intros st2 Ha.
    destruct (Hsim1 st2 Ha) as (st2a & Ef2 & Hu1).
    destruct (Hsim2 st2a) as (st2' & Eg2 & Hu2).
    { by eapply same_update_agree. }
    exists st2'. split; [by rewrite Ef2|].
    by eapply same_update_trans.
Qed.

Lemma localized_set key v f :
  W key → localized R W f →
  localized R W (λ st, let st' := set_item key v st in f st').
Proof.
  intros HW Hf st1 st1' H. cbv zeta in H.
  destruct (Hf _ _ H) as (Hfr & Hk & Hsim). split_and!.
  - intros k Hk'. rewrite Hfr by done. simpl.
    apply lookup_insert_ne. by intros ->.
  - intros k Hk'. apply Hk. simpl. rewrite lookup_insert.
    case_decide; [by eexists|done].
  - intros st2 Ha.
    destruct (Hsim (set_item key v st2)) as (st2' & E2 & Hu).
    { intros k Hk'. simpl. rewrite !lookup_insert.
      case_decide; [done|by apply Ha]. }
    exists st2'. split; [done|].
    eapply same_update_trans; [|exact Hu].
    intros k. simpl. rewrite !lookup_insert. case_decide; [by right|by left].
Qed.

Lemma localized_log s d f :
  localized R W f → localized R W (λ st, f (log_call s d st)).
Proof.
  intros Hf st1 st1' H.
  destruct (Hf _ _ H) as (Hfr & Hk & Hsim). split_and!; [done..|].
  intros st2 Ha. by apply (Hsim (log_call s d st2)).
Qed.

Lemma localized_lookup key (f : value → state → res state) g :
  R key → (∀ v, localized R W (f v)) → localized R W g →
  localized R W (λ st, match store st !! key with
                       | Some v => f v st
                       | None => g st
                       end).
Proof.
  intros HR Hf Hg st1 st1' H.
  destruct (store st1 !! key) as [v|] eqn:E.
  - destruct (Hf v _ _ H) as (Hfr & Hk & Hsim). split_and!; [done..|].
    intros st2 Ha. rewrite <- (Ha key HR), E. by apply Hsim.
  - destruct (Hg _ _ H) as (Hfr & Hk & Hsim). split_and!; [done..|].
    intros st2 Ha. rewrite <- (Ha key HR), E. by apply Hsim.
Qed.

Lemma localized_get key dflt (h : value → state → res state) :
  R key → (∀ c, localized R W (h c)) →
  localized R W (λ st, h (default dflt (store st !! key)) st).
Proof.
  intros HR Hh st1 st1' H.
  destruct (Hh _ _ _ H) as (Hfr & Hk & Hsim). split_and!; [done..|].
  intros st2 Ha. rewrite <- (Ha key HR). by apply Hsim.
Qed.

Lemma localized_for_each {A : Type} (body : A → state → res state) xs :
  (∀ x, localized R W (body x)) → localized R W (for_each body xs).
Proof.
  intros Hb. induction xs as [|x xs IH]; [apply localized_ok|].
  apply (localized_bind (body x) (for_each body xs)); auto.
Qed.
End Localized.

Lemma localized_weaken (R R' W W' : string → Prop) f :
  (∀ k, R k → R' k) → (∀ k, W k → W' k) →
  localized R W f → localized R' W' f.
Proof.
  intros HR HW Hf st1 st1' H.
  destruct (Hf _ _ H) as (Hfr & Hk & Hsim). split_and!; [|done|].
  - intros k Hk'. apply Hfr. by intros ?%HW.
  - intros st2 Ha. apply Hsim. by eapply agree_weaken.
Qed.

(** ** The footprint of [copy_element] *)

(** [apply] with the continuation of [md[key] = v] made explicit. *)
Ltac localized_set_item :=
  lazymatch goal with
  | |- localized _ _ (λ st, let st' := set_item ?k ?v st in @?F st') =>
      apply (localized_set _ _ k v F)
  end.

Lemma scalar_branch_localized n s d cb v :
  (∀ s' d' cb', cb_localized cb' →
     localized (key_prefix s') (under d') (copy_element n s' d' cb')) →
  cb_localized cb →
  localized (key_prefix s) (under d) (scalar_branch n s d cb v).
Proof.
  intros IH Hcb. cbv beta delta [scalar_branch].
  assert (Hsub : ∀ x d', (∀ k, under d' k → under d k) →
            localized (key_prefix s) (under d)
              (copy_element n (s +:+ x) d' None)).
  { intros x d' Hd. eapply localized_weaken; [| |by apply IH].
    - intros k. apply key_prefix_app_l.
    - done. }
  localized_set_item; [apply under_refl|].
  apply localized_bind; [apply Hsub, under_slash|].
  apply localized_bind; [apply Hsub, under_slash|].
  apply localized_bind; [apply Hsub, under_slash|].
  apply localized_bind; [by apply Hsub|].
  destruct cb as [f|]; [|apply localized_ok].
  apply localized_log, Hcb.
Qed.

Lemma repeated_branch_localized n s d cb count :
  (∀ s' d' cb', cb_localized cb' →
     localized (key_prefix s') (under d') (copy_element n s' d' cb')) →
  cb_localized cb →
  localized (key_prefix s) (under d) (repeated_branch n s d cb count).
Proof.
  intros IH Hcb. cbv beta delta [repeated_branch].
  destruct (negb (truthy count)); [apply localized_ok|].
  localized_set_item.
  { apply (under_dot d "count"), under_refl. }
  destruct count as [|z|t]; simpl; try apply localized_raise.
  apply localized_for_each. intros i.
  eapply localized_weaken; [| |by apply IH].
  - intros k. apply key_prefix_indexed.
  - intros k. apply under_indexed.
Qed.

Lemma copy_element_localized n : ∀ s d cb,
  cb_localized cb →
  localized (key_prefix s) (under d) (copy_element n s d cb).
Proof.
  induction n as [|n IH]; intros s d cb Hcb.
  - by intros st1 st1' H.
  - eapply localized_ext; [intros st; apply copy_element_unfold|].
    apply localized_lookup; [apply key_prefix_refl| |].
    + intros v. by apply scalar_branch_localized.
    + apply (localized_get _ _ _ _ (repeated_branch n s d cb)).
      * apply key_prefix_app_r.
      * intros c. by apply repeated_branch_localized.
Qed.

(** ** Consequences of the footprint *)

Lemma copy_element_unchanged n s d cb st st' :
  cb_localized cb → copy_element n s d cb st = Ok st' →
  ∀ k, ¬ under d k → store st' !! k = store st !! k.
Proof. intros Hcb H. by destruct (copy_element_localized n s d cb Hcb _ _ H). Qed.

Lemma copy_element_keeps_keys n s d cb st st' :
  cb_localized cb → copy_element n s d cb st = Ok st' →
  ∀ k, is_Some (store st !! k) → is_Some (store st' !! k).
Proof.
  intros Hcb H. by destruct (copy_element_localized n s d cb Hcb _ _ H) as (_&?&_).
Qed.

Lemma quiet_bind f g : quiet f → quiet g → quiet (λ st, f st ≫= g).
Proof.
  intros Hf Hg st st' H. apply bind_Ok_inv in H as (sta & Ef & Eg).
  rewrite (Hg _ _ Eg). by apply Hf.
Qed.

Lemma quiet_for_each {A : Type} (body : A → state → res state) xs :
  (∀ x, quiet (body x)) → quiet (for_each body xs).
Proof.
  intros Hb. induction xs as [|x xs IH]; [by intros st st' [= <-]|].
  apply (quiet_bind (body x) (for_each body xs)); auto.
Qed.

Lemma copy_element_quiet n : ∀ s d, quiet (copy_element n s d None).
Proof.
  induction n as [|n IH]; intros s d st st' H; [done|].
  rewrite copy_element_unfold in H.
  destruct (store st !! s) as [v|].
  - unfold scalar_branch in H.
    apply bind_Ok_inv in H as (st1 & E1 & H). apply IH in E1.
    apply bind_Ok_inv in H as (st2 & E2 & H). apply IH in E2.
    apply bind_Ok_inv in H as (st3 & E3 & H). apply IH in E3.
    apply bind_Ok_inv in H as (st4 & E4 & H). apply IH in E4.
    injection H as <-. by rewrite E4, E3, E2, E1.
  - unfold repeated_branch in H.
    destruct (negb (truthy _)); [by injection H as <-|].
    apply bind_Ok_inv in H as (idx & _ & H).
    by apply (quiet_for_each _ _ (λ i, IH _ _)) in H.
Qed.

(** ** Scalar and repeated elements *)

(** A call on a scalar element: the copy and the four variant
    projections lead to a state [st5] that has the destination key, and
    the callback, if any, runs on it last. *)
Lemma copy_element_scalar_inv n s d cb st st' :
  is_Some (store st !! s) → copy_element n s d cb st = Ok st' →
  ∃ m st5, n = S m ∧ is_Some (store st5 !! d) ∧ calls st5 = calls st ∧
    (∀ k, is_Some (store st !! k) → is_Some (store st5 !! k)) ∧
    match cb with
    | Some f => f m s d (log_call s d st5) = Ok st'
    | None => st' = st5
    end.
Proof.
  intros [v Hs] H. destruct n as [|m]; [done|].
  rewrite copy_element_unfold, Hs in H. unfold scalar_branch in H.
  apply bind_Ok_inv in H as (st1 & E1 & H).
  apply bind_Ok_inv in H as (st2 & E2 & H).
  apply bind_Ok_inv in H as (st3 & E3 & H).
  apply bind_Ok_inv in H as (st4 & E4 & H).
  pose proof (copy_element_keeps_keys _ _ _ None _ _ I E1) as K1.
  pose proof (copy_element_keeps_keys _ _ _ None _ _ I E2) as K2.
  pose proof (copy_element_keeps_keys _ _ _ None _ _ I E3) as K3.
  pose proof (copy_element_keeps_keys _ _ _ None _ _ I E4) as K4.
  assert (K0 : ∀ k, is_Some (store st !! k) →
                    is_Some (store (set_item d v st) !! k)).
  { intros k Hk. simpl. rewrite lookup_insert. case_decide; [by eexists|done]. }
  exists m, st4. split_and!.
  - done.
  - apply K4, K3, K2, K1. simpl. rewrite lookup_insert_eq. by eexists.
  - rewrite (copy_element_quiet _ _ _ _ _ E4), (copy_element_quiet _ _ _ _ _ E3),
      (copy_element_quiet _ _ _ _ _ E2), (copy_element_quiet _ _ _ _ _ E1). done.
  - intros k Hk. by apply K4, K3, K2, K1, K0.
  - destruct cb; [done|]. by injection H.
Qed.

(** A call on a repeated element with a non-zero integer count. *)
Lemma copy_element_repeated n s d cb st (N : Z) :
  store st !! s = None → store st !! (s +:+ ".count") = Some (VInt N) → N ≠ 0 →
  copy_element (S n) s d cb st =
  for_each (λ i, copy_element n (indexed s i) (indexed d i) cb)
           (seq 0 (Z.to_nat N)) (set_item (d +:+ ".count") (VInt N) st).
Proof.
  intros Hs Hc HN. rewrite copy_element_unfold, Hs, Hc. unfold repeated_branch.
  simpl. by destruct (Z.eqb_spec N 0).
Qed.

Lemma for_each_children n s d idx : ∀ st st',
  for_each (λ i, copy_element n (indexed s i) (indexed d i) None) idx st = Ok st' →
  store st' !! (d +:+ ".count") = store st !! (d +:+ ".count") ∧
  (∀ k, is_Some (store st !! k) → is_Some (store st' !! k)) ∧
  (∀ i, i ∈ idx → is_Some (store st !! indexed s i) →
        is_Some (store st' !! indexed d i)).
Proof.
  induction idx as [|i idx IH]; intros st st' H.
  { injection H as <-. split_and!; [done..|]. by intros i ?%elem_of_nil. }
  apply bind_Ok_inv in H as (sta & E & H).
  destruct (IH _ _ H) as (Hc & Hk & Hi).
  pose proof (copy_element_keeps_keys _ _ _ None _ _ I E) as Ka.
  split_and!.
  - rewrite Hc. apply (copy_element_unchanged _ _ _ None _ _ I E).
    apply count_not_under_indexed.
  - intros k Hk'. by apply Hk, Ka.
  - intros j [->|Hj]%elem_of_cons Hsj.
    + destruct (copy_element_scalar_inv _ _ _ _ _ _ Hsj E) as (m & st5 & _ & Hd & _ & _ & ->).
      by apply Hk.
    + by apply Hi, Ka.
Qed.

(** A call on an element that is neither a scalar key nor counted does
    nothing. *)
Lemma copy_element_skip n s d cb st :
  store st !! s = None →
  store st !! (s +:+ ".count") = None ∨
    store st !! (s +:+ ".count") = Some (VInt 0) →
  copy_element (S n) s d cb st = Ok st.
Proof.
  intros Hs Hc. rewrite copy_element_unfold, Hs.
  by destruct Hc as [-> | ->].
Qed.

(** ** Language precedence and resource override *)

Lemma str_app_ne_self (d x : string) : x ≠ "" → d +:+ x ≠ d.
Proof.
  intros Hx E. apply (f_equal String.length) in E.
  rewrite str_app_length in E. destruct x; [done|]. simpl in E. lia.
Qed.

Lemma lookup_put_opt key o st k :
  store (put_opt key o st) !! k =
  if decide (key = k) then overwrite o (store st !! k) else store st !! k.
Proof.
  destruct o as [x|]; simpl; [|by case_decide].
  rewrite lookup_insert. by case_decide.
Qed.

Lemma lookup_put_opt_source s x key o st :
  ¬ key_prefix s key →
  store (put_opt key o st) !! (s +:+ x) = store st !! (s +:+ x).
Proof.
  intros Hn. rewrite lookup_put_opt. case_decide; [|done].
  subst key. destruct Hn. apply key_prefix_app_r.
Qed.

Lemma leaf_variants_put s key o st :
  ¬ key_prefix s key → leaf_variants s (store st) →
  leaf_variants s (store (put_opt key o st)).
Proof.
  intros Hn Hl x t Hx Ht. rewrite str_app_assoc, lookup_put_opt_source by done.
  rewrite <- str_app_assoc. by apply Hl.
Qed.

Ltac variant_in := apply list_elem_of_In; simpl; tauto.

Lemma copy_element_leaf n s x t d st :
  leaf_variants s (store st) → x ∈ variants → t ≠ "" →
  copy_element (S n) ((s +:+ x) +:+ t) d None st = Ok st.
Proof.
  intros Hl Hx Ht. apply copy_element_skip; [by apply Hl|].
  left. rewrite str_app_assoc. apply Hl; [done|]. by destruct t.
Qed.

Lemma copy_element_variant n s x d st :
  leaf_variants s (store st) → x ∈ variants → ¬ key_prefix s d →
  copy_element (S (S n)) (s +:+ x) d None st =
  Ok (put_opt d (store st !! (s +:+ x)) st).
Proof.
  intros Hl Hx Hd. rewrite copy_element_unfold.
  destruct (store st !! (s +:+ x)) as [l|] eqn:E.
  - unfold scalar_branch.
    assert (Hl' : leaf_variants s (store (set_item d l st))).
    { by apply (leaf_variants_put s d (Some l)). }
    do 4 (rewrite copy_element_leaf by (assumption || discriminate); cbn [mbind res_bind]). done.
  - rewrite Hl by done. done.
Qed.

(** ** Exceptions of [copy_element] *)

Lemma bind_Raise_inv {A B : Type} (m : res A) (g : A → res B) (e : exn) :
  m ≫= g = Raise e → m = Raise e ∨ ∃ a, m = Ok a ∧ g a = Raise e.
Proof. destruct m as [a| |]; intros H; [right; by exists a|left; cbn in H; congruence|done]. Qed.

Lemma for_each_Raise_inv {A : Type} (body : A → state → res state) xs e :
  ∀ st, for_each body xs st = Raise e → ∃ x st0, body x st0 = Raise e.
Proof.
  induction xs as [|x xs IH]; intros st H; [done|].
  apply bind_Raise_inv in H as [H|(sta & _ & H)]; eauto.
Qed.

(** Without a callback the only exception is the [TypeError] of
    [range] on a count that is not an integer. *)
Lemma copy_element_raises n : ∀ s d st e,
  copy_element n s d None st = Raise e → e = TypeError.
Proof.
  induction n as [|n IH]; intros s d st e H; [done|].
  rewrite copy_element_unfold in H. destruct (store st !! s) as [v|].
  - unfold scalar_branch in H.
    repeat (apply bind_Raise_inv in H as [H|(? & _ & H)]; [by eapply IH|]).
    done.
  - unfold repeated_branch in H. destruct (negb (truthy _)); [done|].
    apply bind_Raise_inv in H as [H|(idx & _ & H)].
    + destruct (default _ _); simpl in H; congruence.
    + apply for_each_Raise_inv in H as (i & st0 & H). by eapply IH.
Qed.

Lemma indexed_ne_count (s : string) (i : nat) : indexed s i ≠ s +:+ ".count".
Proof.
  intros E. apply (count_not_under_indexed s i). rewrite <- E. apply under_refl.
Qed.

Lemma indexed_count_ne_count (s : string) (i : nat) :
  indexed s i +:+ ".count" ≠ s +:+ ".count".
Proof.
  intros E. apply (count_not_under_indexed s i). rewrite <- E.
  apply (under_dot _ "count"), under_refl.
Qed.

(** ** Deciding prefixes *)

Lemma prefix_spec (p k : string) : String.prefix p k = true ↔ key_prefix p k.
Proof.
  revert k. induction p as [|a p IH]; intros k.
  - split; [intros _; by exists k|]. by destruct k.
  - destruct k as [|b k]; simpl.
    + split; [done|]. by intros [t [=]].
    + destruct (ascii_dec a b) as [->|Hab].
      * rewrite IH. split; intros [t Ht]; exists t.
        -- by rewrite Ht.
        -- rewrite str_app_cons in Ht. by injection Ht.
      * split; [done|]. intros [t Ht]. rewrite str_app_cons in Ht.
        injection Ht as -> _. done.
Qed.

Lemma key_prefix_comparable (a b k : string) :
  key_prefix a k → key_prefix b k → key_prefix a b ∨ key_prefix b a.
Proof.
  revert b k. induction a as [|x a IH]; intros b k Ha Hb.
  { left. by exists b. }
  destruct b as [|y b]; [right; by eexists|].
  destruct Ha as [t ->], Hb as [u Hu]. rewrite !str_app_cons in Hu.
  injection Hu as -> Hu.
  destruct (IH b (a +:+ t)) as [[w ->]|[w ->]]; [by eexists|by exists u|..].
  - left. by exists w.
  - right. by exists w.
Qed.

Lemma underb_spec (d k : string) : underb d k = true ↔ under d k.
Proof.
  unfold underb, under. rewrite !orb_true_iff, !prefix_spec, String.eqb_eq.
  tauto.
Qed.

(** ** The footprint of the callbacks and of the rule table *)

Lemma copy_element_sub n s x d d' cb :
  cb_localized cb → (∀ k, under d' k → under d k) →
  localized (key_prefix s) (under d) (copy_element n (s +:+ x) d' cb).
Proof.
  intros Hcb Hd. eapply localized_weaken; [| |by apply copy_element_localized].
  - intros k. apply key_prefix_app_l.
  - done.
Qed.

Lemma person_attrs_localized : cb_localized (Some person_attrs).
Proof.
  intros n s d. unfold person_attrs.
  repeat (apply localized_bind; [by apply copy_element_sub, under_slash|]).
  by apply copy_element_sub, under_slash.
Qed.

Lemma document_attrs_localized : cb_localized (Some document_attrs).
Proof.
  intros n s d. unfold document_attrs.
  apply localized_bind; [by apply copy_element_sub, under_slash|].
  apply localized_bind; [by apply copy_element_sub|].
  apply localized_bind; [by apply copy_element_sub, under_slash|].
  apply localized_bind;
    [apply copy_element_sub; [apply person_attrs_localized|apply under_slash]|].
  by apply copy_element_sub, under_slash.
Qed.

Lemma funding_attrs_localized : cb_localized (Some funding_attrs).
Proof.
  intros n s d. unfold funding_attrs.
  apply localized_bind; [by apply copy_element_sub, under_slash|].
  apply copy_element_sub; [apply person_attrs_localized|apply under_slash].
Qed.

Lemma file_attrs_localized : cb_localized (Some file_attrs).
Proof.
  intros n s d. unfold file_attrs.
  repeat (apply localized_bind; [by apply copy_element_sub, under_slash|]).
  by apply copy_element_sub, under_slash.
Qed.

Lemma apply_mapping_localized n (R : string → Prop) rules :
  Forall (λ '(s, d, cb), (∀ k, key_prefix s k → R k) ∧ cb_localized cb) rules →
  localized R (written_by rules) (apply_mapping n rules).
Proof.
  unfold apply_mapping. induction 1 as [|[[s d] cb] rules [Hs Hcb] _ IH].
  { apply localized_ok. }
  apply (localized_bind _ _ (copy_element n s d cb)).
  - eapply localized_weaken; [exact Hs| |by apply copy_element_localized].
    intros k Hk. exists s, d, cb. split; [left|done].
  - eapply (localized_weaken R R); [done| |exact IH].
    intros k (s' & d' & cb' & Hin & Hk). exists s', d', cb'. split; [by right|done].
Qed.

Lemma mapping_callbacks :
  Forall (λ '(_, _, cb), cb_localized cb) mapping.
Proof.
  unfold mapping.
  repeat (apply List.Forall_cons;
          [first [exact I | apply person_attrs_localized
                 | apply document_attrs_localized
                 | apply funding_attrs_localized
                 | apply file_attrs_localized]|]).
  apply List.Forall_nil.
Qed.

Lemma mapping_rule_ok : forallb rule_ok mapping = true.
Proof. vm_compute. reflexivity. Qed.

Lemma rule_ok_spec s d cb k :
  rule_ok (s, d, cb) = true → under d k →
  key_prefix "dataset" s ∧ ¬ key_prefix "dataset" k ∧ k ∉ rights_keys.
Proof.
  unfold rule_ok. rewrite !andb_true_iff, !negb_true_iff, forallb_forall.
  intros [[[Hs Hd1] Hd2] Hr] Hk. split_and!.
  - by apply prefix_spec.
  - intros Hds.
    destruct (key_prefix_comparable d "dataset" k) as [H|H];
      [by apply under_key_prefix|done|..]; apply prefix_spec in H; congruence.
  - intros Hin. apply list_elem_of_In, Hr, negb_true_iff in Hin.
    apply underb_spec in Hk. congruence.
Qed.

Lemma mapping_footprint n :
  localized (key_prefix "dataset")
            (λ k, ¬ key_prefix "dataset" k ∧ k ∉ rights_keys)
            (apply_mapping n mapping).
Proof.
  eapply (localized_weaken (key_prefix "dataset") (key_prefix "dataset"));
    [done| |apply apply_mapping_localized].
  - intros k (s & d & cb & Hin & Hk).
    pose proof mapping_rule_ok as Hok. rewrite forallb_forall in Hok.
    apply list_elem_of_In, Hok in Hin.
    by destruct (rule_ok_spec _ _ _ _ Hin Hk) as (_ & ? & ?).
  - pose proof mapping_rule_ok as Hok. rewrite forallb_forall in Hok.
    pose proof mapping_callbacks as Hcb. rewrite Forall_forall in Hcb.
    apply Forall_forall. intros [[s d] cb] Hin. split.
    + intros k Hk. eapply key_prefix_trans; [|exact Hk].
      apply list_elem_of_In, Hok in Hin.
      apply (rule_ok_spec s d cb d Hin), under_refl.
    + by apply (Hcb _ Hin).
Qed.

(** ** Idempotence *)

(** A piece of the program that writes nothing it reads does, when run
    again on its own result, change nothing. *)
Lemma localized_idempotent (R W : string → Prop) f st st' :
  localized R W f → (∀ k, W k → ¬ R k) → f st = Ok st' →
  ∃ st'', f st' = Ok st'' ∧ store st'' = store st'.
Proof.
  intros Hf Hdisj H. destruct (Hf _ _ H) as (Hfr & _ & Hsim).
  destruct (Hsim st') as (st'' & H' & Hu).
  { intros k Hk. symmetry. apply Hfr. by intros ?%Hdisj. }
  exists st''. split; [done|]. apply map_eq. intros k.
  destruct (Hu k) as [[_ ?]|?]; done.
Qed.

Section RightsPass.
Variable XML : value → exn + element.
Variable lower : string → string.

(** The post-processing touches the three rights keys only. *)
Lemma rights_pass_other m k :
  k ∉ rights_keys → rights_pass XML lower m !! k = m !! k.
Proof.
  intros Hk. unfold rights_pass, rights_try.
  assert (k ≠ "rightsclass" ∧ k ≠ "license" ∧ k ≠ "accessURL") as (H1 & H2 & H3).
  { unfold rights_keys in Hk. rewrite !not_elem_of_cons in Hk. tauto. }
  destruct (m !! "rights") as [r|]; [|done].
  destruct (XML r) as [e|rights]; [done|].
  destruct (attrib rights !! "RIGHTSCATEGORY") as [c|]; [|done].
  unfold set_first_child_text.
  destruct (children rights !! 0%nat); repeat case_decide; simpl;
    by rewrite ?lookup_insert_ne.
Qed.

(** The outcome of the [try] block, step by step. *)
Lemma rights_pass_cases m :
  rights_pass XML lower m =
  match m !! "rights" with
  | None => m
  | Some r =>
    match XML r with
    | inl _ => m
    | inr rights =>
      match attrib rights !! "RIGHTSCATEGORY" with
      | None => m
      | Some c =>
        let m1 := <["rightsclass" := VStr (lower c)]> m in
        match children rights !! 0%nat with
        | None => m1
        | Some child =>
          if decide (lower c = "licensed")
          then <["license" := text_value child]> m1
          else if decide (lower c = "contractual")
          then <["accessURL" := text_value child]> m1
          else m1
        end
      end
    end
  end.
Proof.
  unfold rights_pass, rights_try.
  destruct (m !! "rights") as [r|]; [|done].
  destruct (XML r) as [e|rights]; [done|].
  destruct (attrib rights !! "RIGHTSCATEGORY") as [c|]; [|done].
  unfold set_first_child_text.
  destruct (children rights !! 0%nat); repeat case_decide; simpl; congruence.
Qed.

Lemma rights_pass_idempotent m :
  rights_pass XML lower (rights_pass XML lower m) = rights_pass XML lower m.
Proof.
  rewrite (rights_pass_cases (rights_pass XML lower m)).
  rewrite (rights_pass_other m "rights") by (by apply (bool_decide_unpack _)).
  rewrite (rights_pass_cases m).
  destruct (m !! "rights") as [r|]; [|done].
  destruct (XML r) as [e|rights]; [done|].
  destruct (attrib rights !! "RIGHTSCATEGORY") as [c|]; [|done].
  cbv zeta.
  destruct (children rights !! 0%nat); repeat case_decide;
    apply map_eq; intros k; rewrite !lookup_insert;
    repeat case_decide; congruence.
Qed.
End RightsPass.

Lemma dataset_not_rights_key k : key_prefix "dataset" k → k ∉ rights_keys.
Proof.
  intros Hk%prefix_spec Hin.
  assert (Hall : forallb (λ k, negb (String.prefix "dataset" k)) rights_keys = true)
    by reflexivity.
  rewrite forallb_forall in Hall.
  apply list_elem_of_In, Hall, negb_true_iff in Hin. congruence.
Qed.

Lemma nrd_metadata_reader_idempotent XML lower n record out :
  nrd_metadata_reader XML lower n record = Ok out →
  nrd_metadata_reader XML lower n out = Ok out.
Proof.
  unfold nrd_metadata_reader. intros H.
  apply bind_Ok_inv in H as (st & Hm & [= <-]).
  destruct (mapping_footprint n _ _ Hm) as (Hfr & _ & Hsim).
  destruct (Hsim (State (rights_pass XML lower (store st)) [])) as (st2 & Hm2 & Hu).
  { intros k Hk. simpl.
    rewrite rights_pass_other by by apply dataset_not_rights_key.
    symmetry. apply Hfr. by intros [? _]. }
  rewrite Hm2. simpl. f_equal.
  assert (E : store st2 = rights_pass XML lower (store st)).
  { apply map_eq. intros k. destruct (decide (k ∈ rights_keys)) as [Hin|Hin].
    - destruct (mapping_footprint n _ _ Hm2) as (Hfr2 & _ & _).
      apply Hfr2. by intros [_ ?].
    - destruct (Hu k) as [[_ ?]|E]; [done|].
      by rewrite E, rights_pass_other. }
  rewrite E. apply rights_pass_idempotent.
Qed.

Lemma copy_element_idempotent n s d st st' :
  (∀ k, under d k → ¬ key_prefix s k) →
  copy_element n s d None st = Ok st' →
  copy_element n s d None st' = Ok st'.
Proof.
  intros Hdisj H.
  destruct (localized_idempotent _ _ _ _ _ (copy_element_localized n s d None I)
              Hdisj H) as (st'' & H' & E).
  rewrite H'. f_equal. apply copy_element_quiet in H'.
  destruct st'', st'. simpl in *. by subst.
Qed.

(** ** Termination *)

Lemma total_on_ok P : total_on P Ok.
Proof. intros st HP. by exists st. Qed.

Lemma total_on_bind P f g :
  total_on P f → total_on P g → total_on P (λ st, f st ≫= g).
Proof.
  intros Hf Hg st HP. destruct (Hf st HP) as (sta & Ef & HPa).
  destruct (Hg sta HPa) as (st' & Eg & HP'). exists st'. by rewrite Ef.
Qed.

Lemma total_on_set P key v f :
  (∀ st, P st → P (set_item key v st)) → total_on P f →
  total_on P (λ st, let st' := set_item key v st in f st').
Proof. intros HP Hf st Hst. apply Hf, HP, Hst. Qed.

Ltac total_on_set_item :=
  lazymatch goal with
  | |- total_on ?P (λ st, let st' := set_item ?k ?v st in @?F st') =>
      apply (total_on_set P k v F)
  end.

Lemma total_on_for_each {A : Type} P (body : A → state → res state) xs :
  (∀ x, total_on P (body x)) → total_on P (for_each body xs).
Proof.
  intros Hb. induction xs as [|x xs IH]; [apply total_on_ok|].
  apply (total_on_bind P (body x) (for_each body xs)); auto.
Qed.

Lemma readable_weaken s s' L st :
  key_prefix s s' → readable s L st → readable s' L st.
Proof.
  intros Hs [H1 H2]. split.
  - intros k Hk. apply H1. by eapply key_prefix_trans.
  - intros k v Hk. apply H2. by eapply key_prefix_trans.
Qed.

Lemma readable_frame s L st st' :
  (∀ k, key_prefix s k → store st' !! k = store st !! k) →
  readable s L st → readable s L st'.
Proof.
  intros Hfr [H1 H2]. split.
  - intros k Hk. rewrite Hfr by done. by apply H1.
  - intros k v Hk. rewrite Hfr by done. by apply H2.
Qed.

Lemma readable_set_item s d key v L st :
  apart s d → under d key → readable s L st → readable s L (set_item key v st).
Proof.
  intros Ha Hk. apply readable_frame. intros k Hsk. simpl.
  apply lookup_insert_ne. intros ->. by apply (Ha k).
Qed.

(** A call below [s] that writes under [d] and returns on what is
    readable below its own source also returns on what is readable
    below [s]. *)
Lemma total_on_sub s s' d d' L f :
  apart s d → key_prefix s s' → (∀ k, under d' k → under d k) →
  localized (key_prefix s') (under d') f →
  total_on (readable s' L) f → total_on (readable s L) f.
Proof.
  intros Ha Hs Hd Hloc Hf st HP.
  destruct (Hf st (readable_weaken _ _ _ _ Hs HP)) as (st' & E & _).
  exists st'. split; [done|]. eapply readable_frame; [|exact HP].
  intros k Hk. destruct (Hloc _ _ E) as (Hfr & _). apply Hfr.
  intros Hu%Hd. by apply (Ha k).
Qed.

Lemma apart_sub s s' d d' :
  apart s d → key_prefix s s' → (∀ k, under d' k → under d k) → apart s' d'.
Proof.
  intros Ha Hs Hd k Hk Hsk. apply (Ha k); [by apply Hd|].
  by eapply key_prefix_trans.
Qed.

Section Terminates.
Variable L : nat.

Variable n : nat.
Hypothesis IH : ∀ s d cb,
  cb_localized cb → cb_total L cb → apart s d → covers L n s →
  total_on (readable s L) (copy_element n s d cb).

Lemma sub_call_total s x d d' cb :
  cb_localized cb → cb_total L cb → apart s d →
  (∀ k, under d' k → under d k) → covers L n (s +:+ x) →
  total_on (readable s L) (copy_element n (s +:+ x) d' cb).
Proof.
  intros Hloc Htot Ha Hd Hc.
  apply (total_on_sub s (s +:+ x) d d'); [done|apply key_prefix_app_r|done|..].
  - by apply copy_element_localized.
  - apply IH; [done..| |done].
    eapply apart_sub; [done|apply key_prefix_app_r|done].
Qed.

Lemma scalar_branch_total s d cb v :
  cb_localized cb → cb_total L cb → apart s d →
  (String.length s ≤ L)%nat → covers L (S n) s →
  total_on (readable s L) (scalar_branch n s d cb v).
Proof.
  intros Hloc Htot Ha Hlen [_ Hc]. cbv beta delta [scalar_branch].
  assert (Hsub : ∀ x d', x ≠ "" → (∀ k, under d' k → under d k) →
            total_on (readable s L) (copy_element n (s +:+ x) d' None)).
  { intros x d' Hx Hd. apply (sub_call_total s x d); [done..|].
    unfold covers. rewrite str_app_length. destruct x; [done|]. simpl. lia. }
  total_on_set_item.
  { intros st. by apply (readable_set_item s d), under_refl. }
  apply total_on_bind; [by apply Hsub; [|apply under_slash]|].
  apply total_on_bind; [by apply Hsub; [|apply under_slash]|].
  apply total_on_bind; [by apply Hsub; [|apply under_slash]|].
  apply total_on_bind; [by apply Hsub|].
  destruct cb as [f|]; [|apply total_on_ok].
  intros st4 HP4. apply (Htot n s d Ha); [lia..|].
  by apply (readable_frame s L st4).
Qed.

Lemma repeated_branch_total s d cb (z : Z) :
  cb_localized cb → cb_total L cb → apart s d →
  (z ≠ 0 → (String.length s ≤ L)%nat) → covers L (S n) s →
  total_on (readable s L) (repeated_branch n s d cb (VInt z)).
Proof.
  intros Hloc Htot Ha Hlen [_ Hc]. cbv beta delta [repeated_branch].
  change (truthy (VInt z)) with (negb (z =? 0)).
  destruct (Z.eqb_spec z 0) as [->|Hz]; [apply total_on_ok|].
  cbv beta iota delta [negb]. total_on_set_item.
  { intros st. apply (readable_set_item s d); [done|].
    apply (under_dot d "count"), under_refl. }
  apply total_on_for_each. intros i. rewrite (indexed_eq s i).
  apply (sub_call_total s _ d); [done..|intros k; apply under_indexed|].
  unfold covers. rewrite str_app_length. simpl. specialize (Hlen Hz). lia.
Qed.
End Terminates.

Lemma copy_element_terminates L n : ∀ s d cb,
  cb_localized cb → cb_total L cb → apart s d → covers L n s →
  total_on (readable s L) (copy_element n s d cb).
Proof.
  induction n as [|n IH]; intros s d cb Hloc Htot Ha Hc st HP.
  { destruct Hc. lia. }
  rewrite copy_element_unfold.
  destruct (store st !! s) as [v|] eqn:Es.
  - apply (scalar_branch_total L n IH); [done..| |done|done].
    apply (proj1 HP s); [apply key_prefix_refl|by eexists].
  - destruct (store st !! (s +:+ ".count")) as [c|] eqn:Ec; simpl.
    + destruct (proj2 HP s c (key_prefix_app_r _ _) Ec) as [z ->].
      apply (repeated_branch_total L n IH); [done..| |done|done].
      intros _. assert (Hl : (String.length (s +:+ ".count") ≤ L)%nat).
      { apply (proj1 HP); [apply key_prefix_app_r|by eexists]. }
      rewrite str_app_length in Hl. lia.
    + by exists st.
Qed.

Lemma copy_element_sub_total L n s x d d' cb :
  cb_localized cb → cb_total L cb → apart s d →
  (∀ k, under d' k → under d k) → x ≠ "" →
  (0 < n)%nat → (L < n + String.length s)%nat →
  total_on (readable s L) (copy_element n (s +:+ x) d' cb).
Proof.
  intros Hloc Htot Ha Hd Hx Hn Hc.
  apply (sub_call_total L n (copy_element_terminates L n) s x d); [done..|].
  unfold covers. rewrite str_app_length. destruct x; [done|]. simpl. lia.
Qed.

Lemma person_attrs_total L : cb_total L (Some person_attrs).
Proof.
  intros m s d Ha Hm Hc. unfold person_attrs.
  repeat (apply total_on_bind;
          [by apply (copy_element_sub_total L m s _ d); [..|apply under_slash| | |]|]).
  by apply (copy_element_sub_total L m s _ d); [..|apply under_slash| | |].
Qed.

Lemma document_attrs_total L : cb_total L (Some document_attrs).
Proof.
  intros m s d Ha Hm Hc. unfold document_attrs.
  apply total_on_bind;
    [by apply (copy_element_sub_total L m s _ d); [..|apply under_slash| | |]|].
  apply total_on_bind; [by apply (copy_element_sub_total L m s _ d)|].
  apply total_on_bind;
    [by apply (copy_element_sub_total L m s _ d); [..|apply under_slash| | |]|].
  apply total_on_bind.
  { apply (copy_element_sub_total L m s _ d);
      [apply person_attrs_localized|apply person_attrs_total|done
      |apply under_slash|done..]. }
  by apply (copy_element_sub_total L m s _ d); [..|apply under_slash| | |].
Qed.

Lemma funding_attrs_total L : cb_total L (Some funding_attrs).
Proof.
  intros m s d Ha Hm Hc. unfold funding_attrs.
  apply total_on_bind;
    [by apply (copy_element_sub_total L m s _ d); [..|apply under_slash| | |]|].
  apply (copy_element_sub_total L m s _ d);
    [apply person_attrs_localized|apply person_attrs_total|done
    |apply under_slash|done..].
Qed.

Lemma file_attrs_total L : cb_total L (Some file_attrs).
Proof.
  intros m s d Ha Hm Hc. unfold file_attrs.
  repeat (apply total_on_bind;
          [by apply (copy_element_sub_total L m s _ d); [..|apply under_slash| | |]|]).
  by apply (copy_element_sub_total L m s _ d); [..|apply under_slash| | |].
Qed.

(** A finite record has a longest key. *)
Lemma key_bound_exists (m : gmap string value) :
  ∃ L, ∀ k, is_Some (m !! k) → (String.length k ≤ L)%nat.
Proof.
  induction m as [|k v m Hk _ [L HL]] using map_first_key_ind.
  - exists 0%nat. intros k [v Hv]. by rewrite lookup_empty in Hv.
  - exists (Nat.max L (String.length k)). intros k' Hk'.
    rewrite lookup_insert in Hk'. case_decide as E.
    + subst. lia.
    + specialize (HL k' Hk'). lia.
Qed.

Lemma readable_intro s L st :
  (∀ k, is_Some (store st !! k) → (String.length k ≤ L)%nat) →
  counts_int (store st) → readable s L st.
Proof. intros HL Hc. split; [by auto|]. intros k v _. apply Hc. Qed.

(** ** The depth budget is only a budget *)

Lemma extends_bind f f' g g' :
  extends f f' → extends g g' →
  extends (λ st, f st ≫= g) (λ st, f' st ≫= g').
Proof.
  intros Hf Hg st st' H. apply bind_Ok_inv in H as (sta & Ef & Eg).
  by rewrite (Hf _ _ Ef); apply Hg.
Qed.

Lemma extends_for_each {A : Type} (body body' : A → state → res state) xs :
  (∀ x, extends (body x) (body' x)) →
  extends (for_each body xs) (for_each body' xs).
Proof.
  intros Hb. induction xs as [|x xs IH]; [by intros st st' H|].
  apply (extends_bind (body x) (body' x)); auto.
Qed.

Lemma copy_element_mono n : ∀ s d cb,
  cb_mono cb → extends (copy_element n s d cb) (copy_element (S n) s d cb).
Proof.
  induction n as [|n IH]; intros s d cb Hcb st st' H; [done|].
  rewrite copy_element_unfold in *.
  destruct (store st !! s) as [v|].
  - unfold scalar_branch in *.
    do 4 (apply bind_Ok_inv in H as (? & E & H);
          apply (IH _ _ None I) in E; rewrite E; clear E; cbn [mbind res_bind]).
    destruct cb as [f|]; [|done]. by apply Hcb.
  - unfold repeated_branch in *.
    destruct (negb (truthy _)); [done|].
    destruct (range _) as [idx| |]; [|done..]. cbn [mbind res_bind] in *.
    revert H. apply extends_for_each. intros i. by apply IH.
Qed.

Lemma copy_element_mono_le n m s d cb st st' :
  cb_mono cb → (n ≤ m)%nat →
  copy_element n s d cb st = Ok st' → copy_element m s d cb st = Ok st'.
Proof.
  intros Hcb Hle H. induction Hle as [|m _ IH]; [done|].
  by apply copy_element_mono.
Qed.

Lemma person_attrs_mono : cb_mono (Some person_attrs).
Proof.
  intros n s d. unfold person_attrs.
  repeat (apply extends_bind; [by apply copy_element_mono|]).
  by apply copy_element_mono.
Qed.

Lemma document_attrs_mono : cb_mono (Some document_attrs).
Proof.
  intros n s d. unfold document_attrs.
  repeat (apply extends_bind;
          [apply copy_element_mono; first [exact I|apply person_attrs_mono]|]).
  by apply copy_element_mono.
Qed.

Lemma funding_attrs_mono : cb_mono (Some funding_attrs).
Proof.
  intros n s d. unfold funding_attrs.
  apply extends_bind; [by apply copy_element_mono|].
  apply copy_element_mono, person_attrs_mono.
Qed.

Lemma file_attrs_mono : cb_mono (Some file_attrs).
Proof.
  intros n s d. unfold file_attrs.
  repeat (apply extends_bind; [by apply copy_element_mono|]).
  by apply copy_element_mono.
Qed.

Lemma mapping_mono_callbacks : Forall (λ '(_, _, cb), cb_mono cb) mapping.
Proof.
  unfold mapping.
  repeat (apply List.Forall_cons;
          [first [exact I | apply person_attrs_mono
                 | apply document_attrs_mono
                 | apply funding_attrs_mono
                 | apply file_attrs_mono]|]).
  apply List.Forall_nil.
Qed.

Lemma apply_mapping_mono n :
  extends (apply_mapping n mapping) (apply_mapping (S n) mapping).
Proof.
  unfold apply_mapping. generalize mapping_mono_callbacks.
  induction 1 as [|[[s d] cb] rules Hcb _ IH]; [by intros st st' H|].
  apply (extends_bind (copy_element n s d cb) (copy_element (S n) s d cb));
    [by apply copy_element_mono|exact IH].
Qed.

Lemma nrd_metadata_reader_mono XML lower n record out :
  nrd_metadata_reader XML lower n record = Ok out →
  nrd_metadata_reader XML lower (S n) record = Ok out.
Proof.
  unfold nrd_metadata_reader. intros H.
  apply bind_Ok_inv in H as (st & E & H).
  by rewrite (apply_mapping_mono _ _ _ E).
Qed.

(** What returns with some budget and keeps returning the same with a
    larger one, returns eventually. *)
Lemma returns_eventually_intro {A : Type} (run : nat → res A) :
  (∃ n0, ∀ n, (n0 ≤ n)%nat → ∃ a, run n = Ok a) →
  (∀ n a, run n = Ok a → run (S n) = Ok a) →
  returns_eventually run.
Proof.
  intros [n0 H] Hmono. destruct (H n0 (le_n _)) as [a Ha].
  exists a, n0. intros n Hle. induction Hle as [|n _ IH]; [done|].
  by apply Hmono.
Qed.

Lemma cb_regular_None : cb_regular None.
Proof. by split_and!. Qed.

(** The callbacks of the reader are regular. *)
Lemma person_attrs_regular : cb_regular (Some person_attrs).
Proof.
  split_and!; [apply person_attrs_localized|apply person_attrs_mono|].
  intros L. apply person_attrs_total.
Qed.

Lemma document_attrs_regular : cb_regular (Some document_attrs).
Proof.
  split_and!; [apply document_attrs_localized|apply document_attrs_mono|].
  intros L. apply document_attrs_total.
Qed.

Lemma funding_attrs_regular : cb_regular (Some funding_attrs).
Proof.
  split_and!; [apply funding_attrs_localized|apply funding_attrs_mono|].
  intros L. apply funding_attrs_total.
Qed.

Lemma file_attrs_regular : cb_regular (Some file_attrs).
Proof.
  split_and!; [apply file_attrs_localized|apply file_attrs_mono|].
  intros L. apply file_attrs_total.
Qed.

(** They keep the keys of the record and invoke no callback: what the
    count of invocations asks of a callback. *)
Lemma person_attrs_keeps n s d st st' :
  person_attrs n s d st = Ok st' →
  calls st' = calls st ∧
  ∀ k, is_Some (store st !! k) → is_Some (store st' !! k).
Proof.
  unfold person_attrs. intros H.
  apply bind_Ok_inv in H as (st1 & E1 & H).
  apply bind_Ok_inv in H as (st2 & E2 & H). split.
  - rewrite (copy_element_quiet _ _ _ _ _ H), (copy_element_quiet _ _ _ _ _ E2).
    apply (copy_element_quiet _ _ _ _ _ E1).
  - intros k Hk.
    apply (copy_element_keeps_keys _ _ _ None _ _ I H).
    apply (copy_element_keeps_keys _ _ _ None _ _ I E2).
    by apply (copy_element_keeps_keys _ _ _ None _ _ I E1).
Qed.

(** ** Every call returns, given enough depth *)

(** With writes that miss the reads, and integer counts, every depth
    budget from some point on suffices. *)
Lemma copy_element_total s d cb st :
  cb_regular cb → apart s d → counts_int (store st) →
  returns_eventually (λ n, copy_element n s d cb st).
Proof.
  intros (Hloc & Hmono & Htot) Ha Hc. apply returns_eventually_intro.
  - destruct (key_bound_exists (store st)) as [L HL].
    exists (L + 2)%nat. intros n Hn.
    destruct (copy_element_terminates L n s d cb Hloc (Htot L) Ha) with (st := st)
      as (st' & E & _).
    + unfold covers. lia.
    + by apply readable_intro.
    + by exists st'.
  - intros n a. by apply copy_element_mono.
Qed.

Lemma mapping_total_callbacks L :
  Forall (λ '(_, _, cb), cb_total L cb) mapping.
Proof.
  unfold mapping.
  repeat (apply List.Forall_cons;
          [first [exact I | apply person_attrs_total
                 | apply document_attrs_total
                 | apply funding_attrs_total
                 | apply file_attrs_total]|]).
  apply List.Forall_nil.
Qed.

Lemma apply_mapping_total L n rules :
  (L + 2 ≤ n)%nat →
  Forall (λ '(s, d, cb), key_prefix "dataset" s ∧ apart "dataset" d ∧
                         cb_localized cb ∧ cb_total L cb) rules →
  total_on (readable "dataset" L) (apply_mapping n rules).
Proof.
  intros Hn Hrules. unfold apply_mapping.
  induction Hrules as [|[[s d] cb] rules (Hs & Ha & Hloc & Htot) _ IH].
  { apply total_on_ok. }
  apply (total_on_bind _ (copy_element n s d cb)); [|exact IH].
  apply (total_on_sub "dataset" s d d); [done..| |].
  - by apply copy_element_localized.
  - apply copy_element_terminates; [done..| |].
    + eapply apart_sub; [exact Ha|done|done].
    + unfold covers. lia.
Qed.

Lemma mapping_total L n :
  (L + 2 ≤ n)%nat → total_on (readable "dataset" L) (apply_mapping n mapping).
Proof.
  intros Hn. apply apply_mapping_total; [done|].
  pose proof mapping_rule_ok as Hok. rewrite forallb_forall in Hok.
  pose proof mapping_callbacks as Hcb. rewrite Forall_forall in Hcb.
  pose proof (mapping_total_callbacks L) as Htot. rewrite Forall_forall in Htot.
  apply Forall_forall. intros [[s d] cb] Hin.
  pose proof (Hcb _ Hin) as Hloc. pose proof (Htot _ Hin) as Ht.
  apply list_elem_of_In, Hok in Hin. split_and!; [|
    |done..].
  - apply (rule_ok_spec s d cb d Hin), under_refl.
  - intros k Hk. by apply (rule_ok_spec s d cb k Hin).
Qed.

(** On a record with integer counts the reader returns, whatever the
    parser makes of the rights value. *)
Lemma nrd_metadata_reader_total XML lower record :
  counts_int record →
  returns_eventually (λ n, nrd_metadata_reader XML lower n record).
Proof.
  intros Hc. apply returns_eventually_intro.
  - destruct (key_bound_exists record) as [L HL].
    exists (L + 2)%nat. intros n Hn.
    destruct (mapping_total L n Hn (st_of record)) as (st & E & _).
    { by apply readable_intro. }
    exists (rights_pass XML lower (store st)). unfold nrd_metadata_reader.
    by rewrite (bind_Ok _ _ _ E).
  - intros n a. apply nrd_metadata_reader_mono.
Qed.

(** * Further lemmas *)

(** ** Plain keys *)

Lemma lookup_put_opt_ne key o st k :
  key ≠ k → store (put_opt key o st) !! k = store st !! k.
Proof. intros Hk. rewrite lookup_put_opt. by case_decide. Qed.

Lemma calls_put_opt key o st : calls (put_opt key o st) = calls st.
Proof. by destruct o. Qed.

Lemma childless_put s key o st :
  ¬ key_prefix s key → childless s (store st) →
  childless s (store (put_opt key o st)).
Proof.
  intros Hn Hc t Ht. rewrite lookup_put_opt_ne; [by apply Hc|].
  intros ->. apply Hn, key_prefix_app_r.
Qed.

Lemma childless_app s x m :
  childless s m → childless (s +:+ x) m.
Proof.
  intros Hc t Ht. rewrite str_app_assoc. apply Hc.
  destruct x; [done|discriminate].
Qed.

(** A call on a key below which nothing lies copies its value, if there
    is one, and does nothing else. *)
Lemma copy_element_plain n s d st :
  childless s (store st) → ¬ key_prefix s d →
  copy_element (S (S n)) s d None st = Ok (put_opt d (store st !! s) st).
Proof.
  intros Hc Hd. rewrite copy_element_unfold.
  destruct (store st !! s) as [v|] eqn:E.
  - unfold scalar_branch.
    assert (Hc' : childless s (store (set_item d v st)))
      by apply (childless_put s d (Some v) st Hd Hc).
    assert (Hskip : ∀ x d', x ≠ "" →
              copy_element (S n) (s +:+ x) d' None (set_item d v st)
              = Ok (set_item d v st)).
    { intros x d' Hx. apply copy_element_skip; [by apply Hc'|].
      left. rewrite str_app_assoc. apply Hc'. by destruct x. }
    do 4 (rewrite Hskip by discriminate; cbn [mbind res_bind]). done.
  - by rewrite Hc.
Qed.

Lemma under_slash_key (d y : string) : under d (d +:+ String "/" y).
Proof. apply (under_slash d y), under_refl. Qed.

Lemma under_dot_key (d y : string) : under d (d +:+ String "." y).
Proof. apply (under_dot d y), under_refl. Qed.

Lemma apart_key s d x key : apart s d → under d key → ¬ key_prefix (s +:+ x) key.
Proof. intros Ha Hk Hp. apply (Ha key Hk). by eapply key_prefix_app_l. Qed.

Lemma lookup_put_opt_apart s d x key o st :
  apart s d → under d key →
  store (put_opt key o st) !! (s +:+ x) = store st !! (s +:+ x).
Proof.
  intros Ha Hk. apply lookup_put_opt_ne. intros ->.
  apply (apart_key s d x _ Ha Hk), key_prefix_refl.
Qed.

Lemma childless_put_apart s d x key o st :
  apart s d → under d key → childless (s +:+ x) (store st) →
  childless (s +:+ x) (store (put_opt key o st)).
Proof. intros Ha Hk. apply childless_put. by eapply apart_key. Qed.

(** One step of a callback: a plain field is projected, and what is
    known of the source survives. *)
Ltac plain_step s d :=
  rewrite (copy_element_plain _ (s +:+ _))
    by (eauto using childless_put_apart, under_slash_key, under_refl
        || (eapply apart_key; eauto using under_slash_key, under_refl));
  cbn [mbind res_bind];
  rewrite ?(lookup_put_opt_apart s d)
    by eauto using under_slash_key, under_refl.

Lemma person_attrs_plain n s d st :
  apart s d →
  childless (s +:+ "/foaf:name") (store st) →
  childless (s +:+ "/foaf:mbox") (store st) →
  childless (s +:+ "/foaf:phone") (store st) →
  person_attrs (S (S n)) s d st =
  Ok (put_opt (d +:+ "/phone") (store st !! (s +:+ "/foaf:phone"))
     (put_opt (d +:+ "/email") (store st !! (s +:+ "/foaf:mbox"))
     (put_opt (d +:+ "/name") (store st !! (s +:+ "/foaf:name")) st))).
Proof.
  intros Ha H1 H2 H3. unfold person_attrs.
  do 3 plain_step s d. reflexivity.
Qed.

Lemma file_attrs_plain n s d st :
  apart s d →
  childless (s +:+ "/dcat:mediaType") (store st) →
  childless (s +:+ "/fp:checksum.0/fp:checksumValue.0") (store st) →
  childless (s +:+ "/fp:checksum.0/fp:generator.0") (store st) →
  childless (s +:+ "/dcat:byteSize") (store st) →
  file_attrs (S (S n)) s d st =
  Ok (put_opt (d +:+ "/size") (store st !! (s +:+ "/dcat:byteSize"))
     (put_opt (d +:+ "/checksum.0/algorithm")
              (store st !! (s +:+ "/fp:checksum.0/fp:generator.0"))
     (put_opt (d +:+ "/checksum.0")
              (store st !! (s +:+ "/fp:checksum.0/fp:checksumValue.0"))
     (put_opt (d +:+ "/mimetype") (store st !! (s +:+ "/dcat:mediaType")) st)))).
Proof.
  intros Ha H1 H2 H3 H4. unfold file_attrs.
  do 4 plain_step s d. reflexivity.
Qed.

Lemma store_put_logged source key o st :
  store (put_logged source key o st) = store (put_opt key o st).
Proof. by destruct o. Qed.

Lemma apart_app s d x y : apart s d → apart (s +:+ x) (d +:+ String "/" y).
Proof.
  intros Ha. eapply apart_sub; [exact Ha|apply key_prefix_app_r|].
  intros k. apply under_slash.
Qed.

(** A person element without a single attribute: the element is copied
    and [person_attrs], though invoked, finds nothing to project. *)
Lemma copy_element_plain_person n s d st :
  childless s (store st) → apart s d →
  copy_element (S (S (S n))) s d (Some person_attrs) st =
  Ok (put_logged s d (store st !! s) st).
Proof.
  intros Hc Ha.
  assert (Hd : ¬ key_prefix s d).
  { intros H. by apply (Ha d (under_refl d)). }
  rewrite copy_element_unfold.
  destruct (store st !! s) as [v|] eqn:E; [|by rewrite Hc].
  unfold scalar_branch.
  assert (Hc' : childless s (store (set_item d v st)))
    by apply (childless_put s d (Some v) st Hd Hc).
  assert (Hskip : ∀ x d', x ≠ "" →
            copy_element (S (S n)) (s +:+ x) d' None (set_item d v st)
            = Ok (set_item d v st)).
  { intros x d' Hx. apply copy_element_skip; [by apply Hc'|].
    left. rewrite str_app_assoc. apply Hc'. by destruct x. }
  do 4 (rewrite Hskip by discriminate; cbn [mbind res_bind]).
  rewrite person_attrs_plain by (done || by apply childless_app).
  cbn [store log_call]. by rewrite !Hc'.
Qed.

Lemma document_attrs_plain n s d st :
  apart s d →
  childless (s +:+ "/dct:title") (store st) →
  childless (s +:+ "/dct:identifier") (store st) →
  childless (s +:+ "/dct:creator") (store st) →
  childless (s +:+ "/nrd:creator") (store st) →
  childless (s +:+ "/dct:description") (store st) →
  document_attrs (S (S (S n))) s d st =
  Ok (put_opt (d +:+ "/description") (store st !! (s +:+ "/dct:description"))
     (put_logged (s +:+ "/nrd:creator") (d +:+ "/creator")
                 (store st !! (s +:+ "/nrd:creator"))
     (put_opt (d +:+ "/creator.0/name") (store st !! (s +:+ "/dct:creator"))
     (put_opt d (store st !! (s +:+ "/dct:identifier"))
     (put_opt (d +:+ "/title") (store st !! (s +:+ "/dct:title")) st))))).
Proof.
  intros Ha H1 H2 H3 H4 H5. unfold document_attrs.
  do 3 plain_step s d.
  rewrite copy_element_plain_person
    by (eauto using childless_put_apart, under_slash_key, under_refl, apart_app).
  cbn [mbind res_bind].
  rewrite ?(lookup_put_opt_apart s d) by eauto using under_slash_key, under_refl.
  set (st3 := put_opt _ _ (put_opt _ _ (put_opt _ _ st))).
  set (st4 := put_logged _ _ _ st3).
  assert (Hst : store st4 = store (put_opt (d +:+ "/creator")
                  (store st !! (s +:+ "/nrd:creator")) st3))
    by apply store_put_logged.
  rewrite copy_element_plain.
  - f_equal. f_equal. rewrite Hst.
    rewrite (lookup_put_opt_apart s d) by eauto using under_slash_key.
    unfold st3.
    by rewrite !(lookup_put_opt_apart s d) by eauto using under_slash_key, under_refl.
  - intros t Ht. rewrite Hst.
    eapply (childless_put_apart s d); eauto using under_slash_key.
    unfold st3.
    eauto 10 using childless_put_apart, under_slash_key, under_refl.
  - eapply apart_key; eauto using under_slash_key.
Qed.

(** ** Index keys *)

Lemma string_of_uint_digits d : all_digits (NilEmpty.string_of_uint d) = true.
Proof. induction d; simpl; auto. Qed.

Lemma fmt_d_digits i : all_digits (fmt_d i) = true.
Proof.
  unfold fmt_d, NilZero.string_of_uint.
  destruct (Nat.to_uint i) eqn:E; try reflexivity;
    rewrite <- E; apply string_of_uint_digits.
Qed.

Lemma to_uint_nonnil i : Nat.to_uint i ≠ Decimal.Nil.
Proof.
  intros E. pose proof (Unsigned.to_of (Nat.to_uint i)) as H.
  rewrite Unsigned.of_to in H.
  apply (unorm_nonnil (Nat.to_uint i)). by rewrite <- H.
Qed.

Lemma fmt_d_inj i j : fmt_d i = fmt_d j → i = j.
Proof.
  unfold fmt_d. intros H. apply Unsigned.to_uint_inj.
  assert (Hi : NilZero.uint_of_string (NilZero.string_of_uint (Nat.to_uint i))
               = Some (Nat.to_uint i))
    by (apply NilZero.usu, to_uint_nonnil).
  assert (Hj : NilZero.uint_of_string (NilZero.string_of_uint (Nat.to_uint j))
               = Some (Nat.to_uint j))
    by (apply NilZero.usu, to_uint_nonnil).
  rewrite H in Hi. congruence.
Qed.

(** Two digit strings that go on without a digit are equal as soon as
    the whole strings are. *)
Lemma digits_app_inv a : ∀ b r1 r2,
  all_digits a = true → all_digits b = true →
  no_digit_head r1 = true → no_digit_head r2 = true →
  a +:+ r1 = b +:+ r2 → a = b.
Proof.
  induction a as [|x a IH]; intros [|y b] r1 r2 Ha Hb H1 H2 E; simpl in *.
  - done.
  - change ("" +:+ r1) with r1 in E. rewrite str_app_cons in E. subst r1. simpl in H1.
    apply andb_true_iff in Hb as [Hy _]. by rewrite Hy in H1.
  - change ("" +:+ r2) with r2 in E. rewrite str_app_cons in E. subst r2. simpl in H2.
    apply andb_true_iff in Ha as [Hx _]. by rewrite Hx in H2.
  - rewrite !str_app_cons in E. injection E as -> E.
    apply andb_true_iff in Ha as [_ Ha]. apply andb_true_iff in Hb as [_ Hb].
    f_equal. by apply (IH b r1 r2).
Qed.

Lemma under_indexed_inv d i k :
  under (indexed d i) k →
  ∃ r, k = d +:+ String "." (fmt_d i +:+ r) ∧ no_digit_head r = true.
Proof.
  rewrite indexed_eq. intros [->|[[t ->]|[t ->]]].
  - exists "". by rewrite str_app_nil_r.
  - exists (String "/" t). split; [|done].
    by rewrite !str_app_assoc, !str_app_cons.
  - exists (String "." t). split; [|done].
    by rewrite !str_app_assoc, !str_app_cons.
Qed.

(** The subtrees of two instances share no key. *)
Lemma indexed_under_disjoint d i j k :
  under (indexed d i) k → under (indexed d j) k → i = j.
Proof.
  intros (r1 & -> & H1)%under_indexed_inv (r2 & E & H2)%under_indexed_inv.
  apply str_app_inv_head in E. injection E as E.
  apply fmt_d_inj.
  apply (digits_app_inv _ _ r1 r2); auto using fmt_d_digits.
Qed.

Lemma indexed_inj d i j : indexed d i = indexed d j → i = j.
Proof.
  intros E. apply (indexed_under_disjoint d i j (indexed d i)).
  - apply under_refl.
  - rewrite E. apply under_refl.
Qed.

(** ** Loops whose steps are known *)

Lemma for_each_fold {A : Type} (P : state → Prop)
    (body : A → state → res state) (g : A → state → state) xs : ∀ st,
  P st →
  (∀ x cur, x ∈ xs → P cur → body x cur = Ok (g x cur) ∧ P (g x cur)) →
  for_each body xs st = Ok (foldl (λ cur x, g x cur) st xs) ∧
  P (foldl (λ cur x, g x cur) st xs).
Proof.
  induction xs as [|x xs IH]; intros st HP Hb; [done|].
  destruct (Hb x st (list_elem_of_here _ _) HP) as [E HP'].
  cbn [for_each foldl]. rewrite E. cbn [mbind res_bind].
  apply IH; [done|]. intros y cur Hy. apply Hb. by right.
Qed.

Section Fold.
Context {A : Type} (W : A → string → Prop) (g : A → state → state).
Hypothesis Hout : ∀ x cur k, ¬ W x k → store (g x cur) !! k = store cur !! k.
Hypothesis Hkey : ∀ x, keywise (g x).
Hypothesis Hdisj : ∀ x y k, W x k → W y k → x = y.

Lemma foldl_lookup_out xs : ∀ st k,
  (∀ x, x ∈ xs → ¬ W x k) →
  store (foldl (λ cur x, g x cur) st xs) !! k = store st !! k.
Proof.
  induction xs as [|x xs IH]; intros st k Hk; [done|]. cbn [foldl].
  rewrite IH by (intros y Hy; apply Hk; by right).
  apply Hout, Hk. by left.
Qed.

Lemma foldl_lookup_in xs : ∀ st x k,
  NoDup xs → x ∈ xs → W x k →
  store (foldl (λ cur x, g x cur) st xs) !! k = store (g x st) !! k.
Proof.
  induction xs as [|y xs IH]; intros st x k Hnd Hx Hk.
  { by apply elem_of_nil in Hx. }
  apply NoDup_cons in Hnd as [Hy Hnd]. cbn [foldl].
  apply elem_of_cons in Hx as [->|Hx].
  - apply foldl_lookup_out. intros z Hz Hzk.
    apply Hy. by rewrite (Hdisj y z k).
  - rewrite (IH _ x k) by done. apply Hkey, Hout.
    intros Hyk. apply Hy. by rewrite (Hdisj y x k).
Qed.
End Fold.

Lemma foldl_calls {A : Type} (g : A → state → state) xs :
  (∀ x cur, calls (g x cur) = calls cur) →
  ∀ st, calls (foldl (λ cur x, g x cur) st xs) = calls st.
Proof.
  intros Hg. induction xs as [|x xs IH]; intros st; [done|].
  cbn [foldl]. by rewrite IH.
Qed.

Lemma keywise_put_opt key o : keywise (put_opt key o).
Proof.
  intros cur cur' k E. rewrite !lookup_put_opt.
  case_decide; by rewrite E.
Qed.

Lemma keywise_set_item key v : keywise (set_item key v).
Proof. apply (keywise_put_opt key (Some v)). Qed.

Lemma keywise_compose f g : keywise f → keywise g → keywise (f ∘ g).
Proof. intros Hf Hg cur cur' k E. by apply Hf, Hg. Qed.

(** ** Deciding the side conditions on concrete keys *)

Lemma apart_intro (s d : string) :
  String.prefix s d = false → String.prefix d s = false → apart s d.
Proof.
  intros H1 H2 k Hk%under_key_prefix Hs.
  destruct (key_prefix_comparable s d k Hs Hk) as [H|H];
    apply prefix_spec in H; congruence.
Qed.

Lemma childless_intro (s : string) (l : list (string * value)) :
  forallb (λ kv, negb (String.prefix s kv.1) || String.eqb kv.1 s) l = true →
  childless s (list_to_map l).
Proof.
  intros H t Ht. apply not_elem_of_list_to_map_1.
  intros ([k v] & E & Hin)%list_elem_of_fmap. simpl in E. subst k.
  rewrite forallb_forall in H. apply list_elem_of_In, H in Hin. simpl in Hin.
  apply orb_true_iff in Hin as [Hin|Hin].
  - apply negb_true_iff in Hin.
    assert (String.prefix s (s +:+ t) = true)
      by (apply prefix_spec, key_prefix_app_r). congruence.
  - apply String.eqb_eq in Hin. by apply str_app_ne_self in Hin.
Qed.

(** ** Repeated elements whose instances are known *)

Lemma agree_set_item_apart s d key v cur m :
  apart s d → under d key →
  agree (key_prefix s) (store cur) m →
  agree (key_prefix s) (store (set_item key v cur)) m.
Proof.
  intros Ha Hk Hag k Hs. rewrite <- (Hag k Hs). simpl.
  apply lookup_insert_ne. intros ->. by apply (Ha k).
Qed.

Lemma copy_element_instances n s d cb N st (g : nat → state → state) :
  store st !! s = None →
  store st !! (s +:+ ".count") = Some (VInt N) → N ≠ 0 →
  apart s d →
  (∀ i cur, (i < Z.to_nat N)%nat →
     agree (key_prefix s) (store cur) (store st) →
     copy_element n (indexed s i) (indexed d i) cb cur = Ok (g i cur) ∧
     agree (key_prefix s) (store (g i cur)) (store st)) →
  copy_element (S n) s d cb st =
  Ok (foldl (λ cur i, g i cur) (set_item (d +:+ ".count") (VInt N) st)
            (seq 0 (Z.to_nat N))).
Proof.
  intros Hs Hc HN Ha Hg.
  rewrite (copy_element_repeated n s d cb st N Hs Hc HN).
  apply (for_each_fold (λ cur, agree (key_prefix s) (store cur) (store st))).
  - apply (agree_set_item_apart s d); [done|apply (under_dot_key d "count")|done].
  - intros i cur Hi%elem_of_seq. apply Hg. lia.
Qed.

Lemma under_indexed_key (d : string) (i : nat) : under d (indexed d i).
Proof. rewrite indexed_eq. apply under_dot_key. Qed.

Lemma childless_agree s s' m1 m2 :
  key_prefix s s' → agree (key_prefix s) m1 m2 → childless s' m2 → childless s' m1.
Proof.
  intros Hp Hag Hc t Ht. rewrite (Hag (s' +:+ t)); [by apply Hc|].
  eapply key_prefix_trans; [exact Hp|apply key_prefix_app_r].
Qed.

Lemma key_prefix_indexed_key (s : string) (i : nat) : key_prefix s (indexed s i).
Proof. rewrite indexed_eq. apply key_prefix_app_r. Qed.

Lemma indexed_ne_count_key (d : string) (i : nat) : indexed d i ≠ d +:+ ".count".
Proof.
  intros E. apply (count_not_under_indexed d i). rewrite <- E. apply under_refl.
Qed.


Lemma copy_element_person n s d v st :
  store st !! s = Some v → plain_person s (store st) → apart s d →
  copy_element (S (S (S n))) s d (Some person_attrs) st =
  Ok (copy_person s d v (store st !! (s +:+ "/foaf:name"))
        (store st !! (s +:+ "/foaf:mbox")) (store st !! (s +:+ "/foaf:phone")) st).
Proof.
  intros Hv (Hvar & H1 & H2 & H3) Ha.
  rewrite copy_element_unfold, Hv. unfold scalar_branch.
  assert (Hput : ∀ x, store (set_item d v st) !! (s +:+ x) = store st !! (s +:+ x))
    by (intros x; apply (lookup_put_opt_apart s d x d (Some v) st Ha (under_refl d))).
  assert (Hskip : ∀ x d', x ∈ variants →
            copy_element (S (S n)) (s +:+ x) d' None (set_item d v st)
            = Ok (set_item d v st)).
  { intros x d' Hx. apply copy_element_skip.
    - rewrite Hput, <- (str_app_nil_r (s +:+ x)). by apply Hvar.
    - left. rewrite str_app_assoc, Hput, <- str_app_assoc. by apply Hvar. }
  do 4 (rewrite Hskip by variant_in; cbn [mbind res_bind]).
  rewrite person_attrs_plain; cbn [store log_call]; rewrite ?Hput; try done;
    by apply (childless_put_apart s d _ d (Some v) st Ha (under_refl d)).
Qed.

Lemma foldl_calls_log {A : Type} (g : A → state → state) (h : A → string * string) xs :
  (∀ x cur, calls (g x cur) = calls cur ++ [h x]) →
  ∀ st, calls (foldl (λ cur x, g x cur) st xs) = calls st ++ map h xs.
Proof.
  intros Hg. induction xs as [|x xs IH]; intros st; cbn [foldl map].
  - by rewrite app_nil_r.
  - by rewrite IH, Hg, <- app_assoc.
Qed.

Lemma plain_person_agree s s' m1 m2 :
  key_prefix s s' → agree (key_prefix s) m1 m2 → plain_person s' m2 → plain_person s' m1.
Proof.
  intros Hp Hag (Hvar & H1 & H2 & H3).
  assert (Hpre : ∀ x, key_prefix s (s' +:+ x))
    by (intros x; eapply key_prefix_trans; [exact Hp|apply key_prefix_app_r]).
  split_and!.
  - intros x t Hx. rewrite Hag; [by apply Hvar|].
    rewrite str_app_assoc. apply Hpre.
  - eapply childless_agree; [apply Hpre|done|done].
  - eapply childless_agree; [apply Hpre|done|done].
  - eapply childless_agree; [apply Hpre|done|done].
Qed.

Lemma copy_person_out s d v o1 o2 o3 st k :
  ¬ under d k → store (copy_person s d v o1 o2 o3 st) !! k = store st !! k.
Proof.
  intros Hk. unfold copy_person.
  rewrite !lookup_put_opt_ne; cbn [store log_call set_item].
  - apply lookup_insert_ne. intros ->. apply Hk, under_refl.
  - intros <-. apply Hk, under_slash_key.
  - intros <-. apply Hk, under_slash_key.
  - intros <-. apply Hk, under_slash_key.
Qed.

Lemma keywise_copy_person s d v o1 o2 o3 : keywise (copy_person s d v o1 o2 o3).
Proof.
  intros cur cur' k E. unfold copy_person.
  do 3 apply keywise_put_opt. cbn [store log_call].
  by apply keywise_set_item.
Qed.

Lemma calls_copy_person s d v o1 o2 o3 st :
  calls (copy_person s d v o1 o2 o3 st) = calls st ++ [(s, d)].
Proof. unfold copy_person. by rewrite !calls_put_opt. Qed.

Ltac key_ne :=
  let E := fresh in
  intros E;
  first [by apply str_app_ne_self in E
        |by symmetry in E; apply str_app_ne_self in E
        |apply str_app_inv_head in E; discriminate].

Lemma copy_person_lookup s d v o1 o2 o3 st :
  store (copy_person s d v o1 o2 o3 st) !! d = Some v ∧
  store (copy_person s d v o1 o2 o3 st) !! (d +:+ "/name") =
    overwrite o1 (store st !! (d +:+ "/name")) ∧
  store (copy_person s d v o1 o2 o3 st) !! (d +:+ "/email") =
    overwrite o2 (store st !! (d +:+ "/email")) ∧
  store (copy_person s d v o1 o2 o3 st) !! (d +:+ "/phone") =
    overwrite o3 (store st !! (d +:+ "/phone")).
Proof.
  unfold copy_person. split_and!.
  - rewrite !lookup_put_opt_ne by key_ne. apply lookup_insert_eq.
  - rewrite !lookup_put_opt_ne by key_ne.
    rewrite lookup_put_opt, decide_True by done. f_equal.
    apply lookup_insert_ne. key_ne.
  - rewrite lookup_put_opt_ne by key_ne.
    rewrite lookup_put_opt, decide_True by done. f_equal.
    rewrite lookup_put_opt_ne by key_ne. apply lookup_insert_ne. key_ne.
  - rewrite lookup_put_opt, decide_True by done. f_equal.
    rewrite !lookup_put_opt_ne by key_ne. apply lookup_insert_ne. key_ne.
Qed.

Lemma copy_element_persons_run n s d N st :
  store st !! s = None →
  store st !! (s +:+ ".count") = Some (VInt N) → N ≠ 0 →
  (∀ i, (i < Z.to_nat N)%nat →
     is_Some (store st !! indexed s i) ∧ plain_person (indexed s i) (store st)) →
  apart s d →
  copy_element (S (S (S (S n)))) s d (Some person_attrs) st =
  Ok (foldl (λ cur i, copy_person_at (store st) s d i cur)
            (set_item (d +:+ ".count") (VInt N) st) (seq 0 (Z.to_nat N))).
Proof.
  intros Hs Hc HN Hp Ha.
  apply (copy_element_instances _ s d _ N st (copy_person_at (store st) s d));
    try done.
  intros i cur Hi Hag. destruct (Hp i Hi) as [[v Hv] Hpl]. split.
  - rewrite (copy_element_person _ _ _ v).
    + unfold copy_person_at. rewrite Hv.
      change (default VNone (Some v)) with v.
      by rewrite !(Hag (indexed s i +:+ _))
        by (eapply key_prefix_trans;
            [apply key_prefix_indexed_key|apply key_prefix_app_r]).
    + rewrite <- Hv. apply Hag, key_prefix_indexed_key.
    + eapply plain_person_agree; [apply key_prefix_indexed_key|done|done].
    + eapply apart_sub; [exact Ha|apply key_prefix_indexed_key|].
      intros k. apply under_indexed.
  - intros k Hk. unfold copy_person_at. rewrite copy_person_out; [by apply Hag|].
    intros Hu%under_indexed. by apply (Ha k).
Qed.

Lemma settles_bind f f' g g' :
  settles f f' → settles g g' →
  settles (λ st, f st ≫= g) (λ st, f' st ≫= g').
Proof.
  intros Hf Hg st r H Hr. cbv beta in *.
  destruct (f st) as [a|e|] eqn:E.
  - rewrite (Hf st (Ok a) E) by done. by apply Hg.
  - by rewrite (Hf st (Raise e) E).
  - by subst r.
Qed.

Lemma settles_for_each {A : Type} (body body' : A → state → res state) xs :
  (∀ x, settles (body x) (body' x)) →
  settles (for_each body xs) (for_each body' xs).
Proof.
  intros Hb. induction xs as [|x xs IH]; [by intros st r H|].
  apply (settles_bind (body x) (body' x)); auto.
Qed.

Lemma copy_element_settles n : ∀ s d cb,
  cb_settles cb → settles (copy_element n s d cb) (copy_element (S n) s d cb).
Proof.
  induction n as [|n IH]; intros s d cb Hcb st r H Hr; [by subst r|].
  rewrite copy_element_unfold in H. rewrite copy_element_unfold.
  destruct (store st !! s) as [v|].
  - revert H Hr. unfold scalar_branch.
    generalize (set_item d v st). intros st0.
    revert st0 r.
    do 4 (apply settles_bind; [by apply IH|]).
    destruct cb as [f|]; [|by intros st0 r H _].
    intros st0 r. apply Hcb.
  - revert H Hr. unfold repeated_branch.
    destruct (negb (truthy _)); [done|].
    destruct (range _) as [idx| |]; [|done..]. cbn [mbind res_bind].
    apply settles_for_each. intros i. by apply IH.
Qed.

Lemma copy_element_settles_le n m s d cb st r :
  cb_settles cb → (n ≤ m)%nat →
  copy_element n s d cb st = r → r ≠ OutOfFuel → copy_element m s d cb st = r.
Proof.
  intros Hcb Hle H Hr. induction Hle as [|m _ IH]; [done|].
  by apply copy_element_settles.
Qed.

Lemma person_attrs_settles : cb_settles (Some person_attrs).
Proof.
  intros n s d. unfold person_attrs.
  repeat (apply settles_bind; [by apply copy_element_settles|]).
  by apply copy_element_settles.
Qed.

Lemma document_attrs_settles : cb_settles (Some document_attrs).
Proof.
  intros n s d. unfold document_attrs.
  repeat (apply settles_bind;
          [apply copy_element_settles; first [exact I|apply person_attrs_settles]|]).
  by apply copy_element_settles.
Qed.

Lemma funding_attrs_settles : cb_settles (Some funding_attrs).
Proof.
  intros n s d. unfold funding_attrs.
  apply settles_bind; [by apply copy_element_settles|].
  apply copy_element_settles, person_attrs_settles.
Qed.

Lemma file_attrs_settles : cb_settles (Some file_attrs).
Proof.
  intros n s d. unfold file_attrs.
  repeat (apply settles_bind; [by apply copy_element_settles|]).
  by apply copy_element_settles.
Qed.

Lemma mapping_settling_callbacks : Forall (λ '(_, _, cb), cb_settles cb) mapping.
Proof.
  unfold mapping.
  repeat (apply List.Forall_cons;
          [first [exact I | apply person_attrs_settles
                 | apply document_attrs_settles
                 | apply funding_attrs_settles
                 | apply file_attrs_settles]|]).
  apply List.Forall_nil.
Qed.

Lemma apply_mapping_settles n :
  settles (apply_mapping n mapping) (apply_mapping (S n) mapping).
Proof.
  unfold apply_mapping. generalize mapping_settling_callbacks.
  induction 1 as [|[[s d] cb] rules Hcb _ IH]; [by intros st r H|].
  apply (settles_bind (copy_element n s d cb) (copy_element (S n) s d cb));
    [by apply copy_element_settles|exact IH].
Qed.

Lemma nrd_metadata_reader_settles XML lower n m record r :
  (n ≤ m)%nat →
  nrd_metadata_reader XML lower n record = r → r ≠ OutOfFuel →
  nrd_metadata_reader XML lower m record = r.
Proof.
  intros Hle H Hr. induction Hle as [|m _ IH]; [done|].
  revert IH. unfold nrd_metadata_reader.
  destruct (apply_mapping m mapping (State record [])) as [st|e|] eqn:E.
  - by rewrite (apply_mapping_settles m _ _ E).
  - by rewrite (apply_mapping_settles m _ _ E).
  - intros <-. done.
Qed.

(** ** The exceptions that can escape *)

Lemma copy_element_raises_cb n : ∀ s d cb st e,
  cb_raises cb → copy_element n s d cb st = Raise e → e = TypeError.
Proof.
  induction n as [|n IH]; intros s d cb st e Hcb H; [done|].
  rewrite copy_element_unfold in H. destruct (store st !! s) as [v|].
  - unfold scalar_branch in H.
    do 4 (apply bind_Raise_inv in H as [H|(? & _ & H)];
          [by eapply copy_element_raises|]).
    destruct cb as [f|]; [by eapply Hcb|done].
  - unfold repeated_branch in H. destruct (negb (truthy _)); [done|].
    apply bind_Raise_inv in H as [H|(idx & _ & H)].
    + destruct (default _ _); simpl in H; congruence.
    + apply for_each_Raise_inv in H as (i & st0 & H). by eapply IH.
Qed.

Lemma person_attrs_raises : cb_raises (Some person_attrs).
Proof.
  intros n s d st e H. unfold person_attrs in H.
  repeat (apply bind_Raise_inv in H as [H|(? & _ & H)];
          [by eapply copy_element_raises|]).
  by eapply copy_element_raises.
Qed.

Lemma document_attrs_raises : cb_raises (Some document_attrs).
Proof.
  intros n s d st e H. unfold document_attrs in H.
  repeat (apply bind_Raise_inv in H as [H|(? & _ & H)];
          [by eapply copy_element_raises_cb;
              [|exact H]; first [exact I|apply person_attrs_raises]|]).
  by eapply copy_element_raises.
Qed.

Lemma funding_attrs_raises : cb_raises (Some funding_attrs).
Proof.
  intros n s d st e H. unfold funding_attrs in H.
  apply bind_Raise_inv in H as [H|(? & _ & H)];
    [by eapply copy_element_raises|].
  eapply copy_element_raises_cb; [apply person_attrs_raises|exact H].
Qed.

Lemma file_attrs_raises : cb_raises (Some file_attrs).
Proof.
  intros n s d st e H. unfold file_attrs in H.
  repeat (apply bind_Raise_inv in H as [H|(? & _ & H)];
          [by eapply copy_element_raises|]).
  by eapply copy_element_raises.
Qed.

Lemma mapping_raising_callbacks : Forall (λ '(_, _, cb), cb_raises cb) mapping.
Proof.
  unfold mapping.
  repeat (apply List.Forall_cons;
          [first [exact I | apply person_attrs_raises
                 | apply document_attrs_raises
                 | apply funding_attrs_raises
                 | apply file_attrs_raises]|]).
  apply List.Forall_nil.
Qed.

Lemma apply_mapping_raises n st e :
  apply_mapping n mapping st = Raise e → e = TypeError.
Proof.
  unfold apply_mapping. revert st. generalize mapping_raising_callbacks.
  induction 1 as [|[[s d] cb] rules Hcb _ IH]; intros st H; [done|].
  apply bind_Raise_inv in H as [H|(st0 & _ & H)]; [|by eapply IH].
  by eapply copy_element_raises_cb.
Qed.

Lemma nrd_metadata_reader_raises XML lower n record e :
  nrd_metadata_reader XML lower n record = Raise e → e = TypeError.
Proof.
  unfold nrd_metadata_reader. intros H.
  apply bind_Raise_inv in H as [H|(st0 & _ & H)]; [|done].
  by eapply apply_mapping_raises.
Qed.

Lemma rights_pass_keeps XML lower m k :
  is_Some (m !! k) → is_Some (rights_pass XML lower m !! k).
Proof.
  intros Hk. rewrite rights_pass_cases.
  destruct (m !! "rights") as [r|]; [|done].
  destruct (XML r) as [e|rights]; [done|].
  destruct (attrib rights !! "RIGHTSCATEGORY") as [c|]; [|done].
  cbv zeta.
  assert (Hi : ∀ key x (m' : gmap string value),
            is_Some (m' !! k) → is_Some (<[key := x]> m' !! k)).
  { intros key x m' Hm. rewrite lookup_insert. by case_decide. }
  destruct (children rights !! 0%nat); repeat case_decide; auto.
Qed.

Lemma dataset_key_not_rights k : key_prefix "dataset" k → k ∉ rights_keys.
Proof.
  intros [t ->]. unfold rights_keys. rewrite !not_elem_of_cons.
  split_and!; try discriminate. apply not_elem_of_nil.
Qed.

(** ** What the attribute callbacks leave behind *)

Lemma calls_put_logged source key o st :
  calls (put_logged source key o st) = calls st ++ logged source key o.
Proof. destruct o; [done|]. by rewrite app_nil_r. Qed.

Lemma funding_attrs_plain n s d st :
  apart s d →
  childless (s +:+ "/rev:arpfo:funds.0/arpfo:grantNumber") (store st) →
  childless (s +:+ "/rev:arpfo:funds.0/rev:arpfo:provides") (store st) →
  funding_attrs (S (S (S n))) s d st =
  Ok (put_logged (s +:+ "/rev:arpfo:funds.0/rev:arpfo:provides") (d +:+ "/funder")
                 (store st !! (s +:+ "/rev:arpfo:funds.0/rev:arpfo:provides"))
     (put_opt (d +:+ "/fundingNumber")
              (store st !! (s +:+ "/rev:arpfo:funds.0/arpfo:grantNumber")) st)).
Proof.
  intros Ha H1 H2. unfold funding_attrs.
  plain_step s d.
  rewrite copy_element_plain_person
    by (eauto using childless_put_apart, under_slash_key, under_refl, apart_app).
  by rewrite ?(lookup_put_opt_apart s d) by eauto using under_slash_key, under_refl.
Qed.

(** ** Rule tables *)

Lemma separateb_spec d d' : separateb d d' = true → separate d d'.
Proof.
  unfold separateb. rewrite andb_true_iff, !negb_true_iff.
  intros [H1 H2] k Hd%under_key_prefix Hd'%under_key_prefix.
  destruct (key_prefix_comparable d d' k Hd Hd') as [H|H];
    apply prefix_spec in H; congruence.
Qed.

Lemma mapping_table_ok : table_ok mapping.
Proof.
  split_and!.
  - by apply (bool_decide_unpack _).
  - intros [[s d] cb] Hin.
    pose proof mapping_rule_ok as Hok. rewrite forallb_forall in Hok.
    pose proof mapping_callbacks as Hcb. rewrite Forall_forall in Hcb.
    split; [apply (Hcb _ Hin)|].
    apply list_elem_of_In, Hok in Hin. split.
    + apply (rule_ok_spec s d cb d Hin), under_refl.
    + intros k Hk. by destruct (rule_ok_spec s d cb k Hin Hk) as (_ & ? & _).
  - assert (H : table_okb mapping = true) by (vm_compute; reflexivity).
    unfold table_okb in H. rewrite forallb_forall in H.
    intros r r' Hr Hr' Hne. apply list_elem_of_In, H in Hr.
    rewrite forallb_forall in Hr. apply list_elem_of_In, Hr in Hr'.
    apply orb_true_iff in Hr' as [E%String.eqb_eq|Hs]; [done|].
    by apply separateb_spec.
Qed.

Lemma table_ok_tail r rules : table_ok (r :: rules) → table_ok rules.
Proof.
  intros (Hnd & Hr & Hs). rewrite fmap_cons in Hnd.
  apply NoDup_cons in Hnd as [_ Hnd]. split_and!; [done|..].
  - intros r' Hin. apply Hr. by right.
  - intros r1 r2 H1 H2. apply Hs; by right.
Qed.

Lemma table_ok_head r rules r' :
  table_ok (r :: rules) → r' ∈ rules → separate (rule_dest r) (rule_dest r').
Proof.
  intros (Hnd & _ & Hs) Hin. rewrite fmap_cons in Hnd.
  apply NoDup_cons in Hnd as [Hd _].
  apply Hs; [by left|by right|]. intros E. apply Hd. rewrite E.
  apply list_elem_of_fmap. by exists r'.
Qed.

Lemma apply_mapping_cons n (r : rule) rules st :
  apply_mapping n (r :: rules) st =
  copy_element n (rule_source r) (rule_dest r) (rule_callback r) st
    ≫= apply_mapping n rules.
Proof. by destruct r as [[s d] cb]. Qed.

(** A rule of the table behaves on the state it finds as it does on the
    record the table started from. *)
Lemma rule_step n r (st0 cur cur1 : state) :
  cb_localized (rule_callback r) → key_prefix "dataset" (rule_source r) →
  (∀ k, under (rule_dest r) k → ¬ key_prefix "dataset" k) →
  agree (key_prefix "dataset") (store cur) (store st0) →
  copy_element n (rule_source r) (rule_dest r) (rule_callback r) cur = Ok cur1 →
  agree (key_prefix "dataset") (store cur1) (store st0) ∧
  (∀ k, ¬ under (rule_dest r) k → store cur1 !! k = store cur !! k) ∧
  ∃ st1, copy_element n (rule_source r) (rule_dest r) (rule_callback r) st0 = Ok st1 ∧
    ∀ k, under (rule_dest r) k → store cur !! k = store st0 !! k →
         store cur1 !! k = store st1 !! k.
Proof.
  intros Hcb Hs Hd Hag H.
  destruct (copy_element_localized n _ _ _ Hcb _ _ H) as (Hfr & _ & Hsim).
  split_and!; [|done|].
  - intros k Hk. rewrite Hfr; [by apply Hag|]. intros Hu. by apply (Hd k).
  - destruct (Hsim st0) as (st1 & H1 & Hu).
    { intros k Hk. apply Hag. by eapply key_prefix_trans. }
    exists st1. split; [done|]. intros k Hk E.
    destruct (Hu k) as [[E1 E2]|E1]; rewrite E1; [by rewrite E2|done].
Qed.

Lemma not_written_by_tail r rules k :
  table_ok (r :: rules) → under (rule_dest r) k → ¬ written_by rules k.
Proof.
  intros Hok Hk (s' & d' & cb' & Hin & Hk').
  by apply (table_ok_head r rules (s', d', cb') Hok Hin k).
Qed.

Lemma apply_mapping_unchanged n rules st st' k :
  table_ok rules → apply_mapping n rules st = Ok st' →
  ¬ written_by rules k → store st' !! k = store st !! k.
Proof.
  intros (_ & Hr & _) H Hk.
  refine (proj1 (apply_mapping_localized n (λ _, True) rules _ _ _ H) k Hk).
  apply Forall_forall. intros [[s d] cb] Hin. split; [done|].
  apply (Hr _ Hin).
Qed.

Lemma table_isolated n rules : ∀ st0 cur st',
  table_ok rules →
  agree (key_prefix "dataset") (store cur) (store st0) →
  (∀ k, written_by rules k → store cur !! k = store st0 !! k) →
  apply_mapping n rules cur = Ok st' →
  ∀ r, r ∈ rules →
    ∃ st1, copy_element n (rule_source r) (rule_dest r) (rule_callback r) st0 = Ok st1 ∧
      ∀ k, under (rule_dest r) k → store st' !! k = store st1 !! k.
Proof.
  induction rules as [|r0 rules IH]; intros st0 cur st' Hok Hag Hw H r Hin.
  { by apply elem_of_nil in Hin. }
  rewrite apply_mapping_cons in H. apply bind_Ok_inv in H as (cur1 & H0 & H).
  destruct (proj1 (proj2 Hok) r0) as (Hcb & Hs & Hd); [by left|].
  destruct (rule_step n r0 st0 cur cur1 Hcb Hs Hd Hag H0)
    as (Hag1 & Hfr1 & st1 & H1 & Hsame).
  apply elem_of_cons in Hin as [->|Hin].
  - exists st1. split; [done|]. intros k Hk.
    rewrite (apply_mapping_unchanged n rules cur1 st' k);
      [|by eapply table_ok_tail|done|by eapply not_written_by_tail].
    apply Hsame; [done|]. apply Hw.
    destruct r0 as [[s d] cb]. exists s, d, cb. split; [by left|done].
  - apply (IH st0 cur1 st'); [by eapply table_ok_tail|done| |done|done].
    intros k (s' & d' & cb' & Hin' & Hk'). rewrite Hfr1.
    + apply Hw. exists s', d', cb'. split; [by right|done].
    + intros Hk. by apply (table_ok_head r0 rules (s', d', cb') Hok Hin' k).
Qed.

Lemma table_runs n rules : ∀ st0 cur,
  table_ok rules →
  agree (key_prefix "dataset") (store cur) (store st0) →
  (∀ r, r ∈ rules →
     ∃ st1, copy_element n (rule_source r) (rule_dest r) (rule_callback r) st0 = Ok st1) →
  ∃ st', apply_mapping n rules cur = Ok st'.
Proof.
  induction rules as [|r0 rules IH]; intros st0 cur Hok Hag Hrun.
  { by exists cur. }
  destruct (proj1 (proj2 Hok) r0) as (Hcb & Hs & Hd); [by left|].
  destruct (Hrun r0) as [st1 H1]; [by left|].
  destruct (copy_element_localized n _ _ _ Hcb _ _ H1) as (_ & _ & Hsim).
  destruct (Hsim cur) as (cur1 & H0 & _).
  { intros k Hk. symmetry. apply Hag. by eapply key_prefix_trans. }
  destruct (rule_step n r0 st0 cur cur1 Hcb Hs Hd Hag H0) as (Hag1 & _).
  destruct (IH st0 cur1) as [st' H']; [by eapply table_ok_tail|done| |].
  { intros r Hin. apply Hrun. by right. }
  exists st'. rewrite apply_mapping_cons, H0. exact H'.
Qed.

Lemma written_by_dec rules k : written_by rules k ∨ ¬ written_by rules k.
Proof.
  induction rules as [|[[s d] cb] rules [IH|IH]].
  - right. intros (? & ? & ? & Hin & _). by apply elem_of_nil in Hin.
  - left. destruct IH as (s' & d' & cb' & Hin & Hk).
    exists s', d', cb'. split; [by right|done].
  - destruct (underb d k) eqn:E.
    + left. exists s, d, cb. split; [by left|by apply underb_spec].
    + right. intros (s' & d' & cb' & Hin & Hk).
      apply elem_of_cons in Hin as [[= -> -> ->]|Hin].
      * apply underb_spec in Hk. congruence.
      * apply IH. by exists s', d', cb'.
Qed.

Lemma table_ok_perm rules rules' : rules ≡ₚ rules' → table_ok rules → table_ok rules'.
Proof.
  intros Hp (Hnd & Hr & Hs). split_and!.
  - by rewrite <- Hp.
  - intros r Hin. apply Hr. by rewrite Hp.
  - intros r r' H1 H2. apply Hs; by rewrite Hp.
Qed.

Lemma written_by_perm rules rules' k :
  rules ≡ₚ rules' → written_by rules k → written_by rules' k.
Proof.
  intros Hp (s & d & cb & Hin & Hk). exists s, d, cb. by rewrite <- Hp.
Qed.

Lemma apply_mapping_perm n rules rules' st st' :
  table_ok rules → rules ≡ₚ rules' →
  apply_mapping n rules st = Ok st' →
  ∃ st'', apply_mapping n rules' st = Ok st'' ∧ store st'' = store st'.
Proof.
  intros Hok Hp H.
  pose proof (table_ok_perm _ _ Hp Hok) as Hok'.
  pose proof (table_isolated n rules st st st' Hok (λ _ _, eq_refl) (λ _ _, eq_refl) H)
    as Hiso.
  destruct (table_runs n rules' st st Hok' (λ _ _, eq_refl)) as [st'' H''].
  { intros r Hin. destruct (Hiso r) as (st1 & H1 & _); [by rewrite Hp|]. by exists st1. }
  exists st''. split; [done|]. apply map_eq. intros k.
  destruct (written_by_dec rules k) as [Hw|Hw].
  - destruct Hw as (s & d & cb & Hin & Hk).
    destruct (Hiso (s, d, cb) Hin) as (st1 & H1 & E1).
    destruct (table_isolated n rules' st st st'' Hok' (λ _ _, eq_refl)
                (λ _ _, eq_refl) H'' (s, d, cb)) as (st2 & H2 & E2); [by rewrite <- Hp|].
    rewrite H1 in H2. injection H2 as <-. by rewrite E1, E2.
  - rewrite (apply_mapping_unchanged n rules st st' k) by done.
    apply (apply_mapping_unchanged n rules' st st'' k); [done..|].
    intros Hw'. apply Hw. by eapply written_by_perm.
Qed.

(** ** What a projected list holds *)

Lemma copy_list_spec s d N st :
  calls (copy_list s d N st) = calls st ∧
  store (copy_list s d N st) !! (d +:+ ".count") = Some (VInt N) ∧
  (∀ i, (i < Z.to_nat N)%nat →
     store (copy_list s d N st) !! indexed d i =
     overwrite (store st !! indexed s i) (store st !! indexed d i)) ∧
  (∀ k, k ≠ d +:+ ".count" → (∀ i, (i < Z.to_nat N)%nat → k ≠ indexed d i) →
     store (copy_list s d N st) !! k = store st !! k).
Proof.
  unfold copy_list.
  set (g := λ i : nat, put_opt (indexed d i) (store st !! indexed s i)).
  set (W := λ (i : nat) (k : string), indexed d i = k).
  assert (Hout : ∀ x cur k, ¬ W x k → store (g x cur) !! k = store cur !! k)
    by (intros x cur k Hk; by apply lookup_put_opt_ne).
  assert (Hkey : ∀ x, keywise (g x)) by (intros x; apply keywise_put_opt).
  assert (Hdisj : ∀ x y k, W x k → W y k → x = y)
    by (intros x y k <- E; symmetry; exact (indexed_inj _ _ _ E)).
  split_and!.
  - rewrite (foldl_calls g); [done|]. intros x cur. apply calls_put_opt.
  - rewrite (foldl_lookup_out W g Hout).
    + apply lookup_insert_eq.
    + intros x _. apply indexed_ne_count_key.
  - intros i Hi. rewrite (foldl_lookup_in W g Hout Hkey Hdisj _ _ i).
    + unfold g. rewrite lookup_put_opt, decide_True by done. f_equal.
      apply lookup_insert_ne. intros E. by apply (indexed_ne_count_key d i).
    + apply NoDup_seq.
    + apply elem_of_seq. lia.
    + done.
  - intros k Hk Hi. rewrite (foldl_lookup_out W g Hout).
    + by apply lookup_insert_ne.
    + intros x Hx%elem_of_seq E. apply (Hi x); [lia|done].
Qed.

Lemma copy_persons_spec s d N st :
  (∀ i, (i < Z.to_nat N)%nat → is_Some (store st !! indexed s i)) →
  calls (copy_persons s d N st) =
    calls st ++ map (λ i, (indexed s i, indexed d i)) (seq 0 (Z.to_nat N)) ∧
  store (copy_persons s d N st) !! (d +:+ ".count") = Some (VInt N) ∧
  (∀ i, (i < Z.to_nat N)%nat →
     store (copy_persons s d N st) !! indexed d i = store st !! indexed s i ∧
     store (copy_persons s d N st) !! (indexed d i +:+ "/name") =
       overwrite (store st !! (indexed s i +:+ "/foaf:name"))
                 (store st !! (indexed d i +:+ "/name")) ∧
     store (copy_persons s d N st) !! (indexed d i +:+ "/email") =
       overwrite (store st !! (indexed s i +:+ "/foaf:mbox"))
                 (store st !! (indexed d i +:+ "/email")) ∧
     store (copy_persons s d N st) !! (indexed d i +:+ "/phone") =
       overwrite (store st !! (indexed s i +:+ "/foaf:phone"))
                 (store st !! (indexed d i +:+ "/phone"))) ∧
  (∀ k, k ≠ d +:+ ".count" →
     (∀ i, (i < Z.to_nat N)%nat → ¬ under (indexed d i) k) →
     store (copy_persons s d N st) !! k = store st !! k).
Proof.
  intros Hp. unfold copy_persons.
  set (g := copy_person_at (store st) s d).
  set (W := λ (i : nat) (k : string), under (indexed d i) k).
  set (st0 := set_item (d +:+ ".count") (VInt N) st).
  assert (Hout : ∀ x cur k, ¬ W x k → store (g x cur) !! k = store cur !! k)
    by (intros x cur k Hk; by apply copy_person_out).
  assert (Hkey : ∀ x, keywise (g x)) by (intros x; apply keywise_copy_person).
  assert (Hdisj : ∀ x y k, W x k → W y k → x = y)
    by (intros x y k; apply indexed_under_disjoint).
  assert (H0 : ∀ i k, under (indexed d i) k → store st0 !! k = store st !! k).
  { intros i k Hk. apply lookup_insert_ne. intros <-.
    by apply (count_not_under_indexed d i). }
  split_and!.
  - rewrite (foldl_calls_log g (λ i, (indexed s i, indexed d i))); [done|].
    intros x cur. apply calls_copy_person.
  - rewrite (foldl_lookup_out W g Hout).
    + apply lookup_insert_eq.
    + intros x _. apply count_not_under_indexed.
  - intros i Hi. destruct (Hp i Hi) as [v Hv].
    assert (Hin : ∀ k, W i k →
              store (foldl (λ cur x, g x cur) st0 (seq 0 (Z.to_nat N))) !! k
              = store (g i st0) !! k).
    { intros k Hk.
      apply (foldl_lookup_in W g Hout Hkey Hdisj); [|by apply elem_of_seq; lia|done].
      apply NoDup_seq. }
    rewrite !Hin by (apply under_refl || apply under_slash_key).
    unfold g, copy_person_at. rewrite Hv.
    change (default VNone (Some v)) with v.
    destruct (copy_person_lookup (indexed s i) (indexed d i) v
                (store st !! (indexed s i +:+ "/foaf:name"))
                (store st !! (indexed s i +:+ "/foaf:mbox"))
                (store st !! (indexed s i +:+ "/foaf:phone")) st0)
      as (-> & -> & -> & ->).
    by rewrite !(H0 i) by apply under_slash_key.
  - intros k Hk Hi. rewrite (foldl_lookup_out W g Hout).
    + by apply lookup_insert_ne.
    + intros x Hx%elem_of_seq. apply Hi. lia.
Qed.

(** ** More side conditions decided on concrete records *)

Lemma absent_below_intro (s : string) (l : list (string * value)) t :
  forallb (λ kv, negb (String.prefix s kv.1)) l = true →
  (list_to_map l : gmap string value) !! (s +:+ t) = None.
Proof.
  intros H. apply not_elem_of_list_to_map_1.
  intros ([k v] & E & Hin)%list_elem_of_fmap. simpl in E. subst k.
  rewrite forallb_forall in H. apply list_elem_of_In, H in Hin. simpl in Hin.
  apply negb_true_iff in Hin.
  assert (String.prefix s (s +:+ t) = true)
    by (apply prefix_spec, key_prefix_app_r). congruence.
Qed.

Lemma plain_person_intro (s : string) (l : list (string * value)) :
  forallb (λ x, forallb (λ kv, negb (String.prefix (s +:+ x) kv.1)) l) variants = true →
  forallb (λ x, forallb (λ kv, negb (String.prefix (s +:+ x) kv.1)
                               || String.eqb kv.1 (s +:+ x)) l)
          ["/foaf:name"; "/foaf:mbox"; "/foaf:phone"] = true →
  plain_person s (list_to_map l).
Proof.
  intros Hv Hf. rewrite forallb_forall in Hv. split.
  - intros x t Hx. apply absent_below_intro, Hv. by apply list_elem_of_In.
  - cbn [forallb] in Hf. rewrite !andb_true_iff in Hf.
    destruct Hf as (H1 & H2 & H3 & _).
    split_and!; by apply childless_intro.
Qed.

Lemma ends_with_app (suffix k : string) : ends_with suffix (k +:+ suffix) = true.
Proof.
  induction k as [|c k IH].
  - destruct suffix; simpl; [done|]. by rewrite Ascii.eqb_refl, String.eqb_refl.
  - rewrite str_app_cons. cbn [ends_with]. rewrite IH. apply orb_true_r.
Qed.

Lemma counts_int_intro (l : list (string * value)) :
  forallb (λ kv, negb (ends_with ".count" kv.1)
                 || match kv.2 with VInt _ => true | _ => false end) l = true →
  counts_int (list_to_map l).
Proof.
  intros H k v Hk. apply elem_of_list_to_map_2 in Hk.
  rewrite forallb_forall in H. apply list_elem_of_In, H in Hk. simpl in Hk.
  rewrite ends_with_app in Hk. destruct v; try done. by eexists.
Qed.

Ltac in_table :=
  unfold mapping;
  repeat first [apply list_elem_of_here | apply list_elem_of_further].

(** ** Single rules of the reader *)

Lemma mapping_apart s d cb : (s, d, cb) ∈ mapping → apart s d.
Proof.
  intros Hin. destruct mapping_table_ok as (_ & Hr & _).
  destruct (Hr _ Hin) as (_ & Hs & Hd). simpl in Hs, Hd.
  intros k Hk Hp. apply (Hd k Hk). by eapply key_prefix_trans.
Qed.

Lemma mapping_dest_not_rights s d cb k :
  (s, d, cb) ∈ mapping → under d k → k ∉ rights_keys.
Proof.
  intros Hin Hk. pose proof mapping_rule_ok as Hok. rewrite forallb_forall in Hok.
  apply list_elem_of_In, Hok in Hin.
  by destruct (rule_ok_spec s d cb k Hin Hk) as (_ & _ & ?).
Qed.

Lemma nrd_metadata_reader_isolated XML lower n record out s d cb :
  (s, d, cb) ∈ mapping →
  nrd_metadata_reader XML lower n record = Ok out →
  ∃ st1, copy_element n s d cb (st_of record) = Ok st1 ∧
    ∀ k, under d k → out !! k = store st1 !! k.
Proof.
  unfold nrd_metadata_reader. intros Hin H.
  apply bind_Ok_inv in H as (st & Hm & [= <-]).
  destruct (table_isolated n mapping (st_of record) (st_of record) st
              mapping_table_ok (λ _ _, eq_refl) (λ _ _, eq_refl) Hm (s, d, cb) Hin)
    as (st1 & H1 & E).
  exists st1. split; [exact H1|]. intros k Hk.
  rewrite rights_pass_other by by eapply mapping_dest_not_rights.
  by apply E.
Qed.

Lemma nrd_metadata_reader_plain XML lower n record out s d :
  (s, d, None) ∈ mapping → childless s record →
  nrd_metadata_reader XML lower n record = Ok out →
  out !! d = overwrite (record !! s) (record !! d).
Proof.
  intros Hin Hc H.
  destruct (nrd_metadata_reader_isolated XML lower n record out s d None Hin H)
    as (st1 & H1 & E).
  rewrite (E d (under_refl d)).
  apply (copy_element_mono_le n (S (S n)) s d None _ _ I) in H1; [|lia].
  rewrite copy_element_plain in H1.
  - injection H1 as <-. by rewrite lookup_put_opt, decide_True.
  - done.
  - intros Hp. by apply (mapping_apart s d None Hin d (under_refl d)).
Qed.

Lemma nrd_metadata_reader_persons_run XML lower n record out s d N :
  (s, d, Some person_attrs) ∈ mapping →
  record !! s = None →
  record !! (s +:+ ".count") = Some (VInt N) → N ≠ 0 →
  (∀ i, (i < Z.to_nat N)%nat →
     is_Some (record !! indexed s i) ∧ plain_person (indexed s i) record) →
  nrd_metadata_reader XML lower n record = Ok out →
  ∀ k, under d k → out !! k = store (copy_persons s d N (st_of record)) !! k.
Proof.
  intros Hin Hs Hc HN Hp H.
  destruct (nrd_metadata_reader_isolated XML lower n record out s d _ Hin H)
    as (st1 & H1 & E).
  apply (copy_element_mono_le n (S (S (S (S n)))) s d _ _ _ person_attrs_mono)
    in H1; [|lia].
  rewrite (copy_element_persons_run n s d N (st_of record)) in H1;
    [|done..|by eapply mapping_apart].
  injection H1 as <-. exact E.
Qed.

(** A record without a single [dataset] key leaves the rule table
    nothing to do. *)
Lemma apply_mapping_foreign n st :
  (∀ k, key_prefix "dataset" k → store st !! k = None) →
  apply_mapping (S n) mapping st = Ok st.
Proof.
  intros Hno. unfold apply_mapping.
  pose proof mapping_rule_ok as Hok. rewrite forallb_forall in Hok.
  assert (Hs : ∀ r, r ∈ mapping → key_prefix "dataset" (rule_source r)).
  { intros [[s d] cb] Hin. apply list_elem_of_In, Hok in Hin.
    apply (rule_ok_spec s d cb d Hin), under_refl. }
  revert Hs. generalize mapping. intros rules.
  induction rules as [|[[s d] cb] rules IH]; intros Hs; [done|].
  cbn [for_each]. rewrite copy_element_skip.
  - apply IH. intros r Hr. apply Hs. by right.
  - apply Hno, (Hs (s, d, cb)). by left.
  - left. apply Hno. eapply key_prefix_trans; [|apply key_prefix_app_r].
    apply (Hs (s, d, cb)). by left.
Qed.

(** ** Instances that are not there *)

Lemma not_under_indexed_self (d : string) (i : nat) : ¬ under (indexed d i) d.
Proof.
  intros [t E]%under_key_prefix. rewrite indexed_eq, str_app_assoc in E.
  symmetry in E. by apply str_app_ne_self in E.
Qed.

(** A loop leaves a key alone that none of its steps touches. *)
Lemma for_each_untouched {A : Type} (P : state → Prop)
    (body : A → state → res state) (k : string) xs : ∀ st st',
  (∀ x cur cur', x ∈ xs → P cur → body x cur = Ok cur' →
     P cur' ∧ store cur' !! k = store cur !! k) →
  P st → for_each body xs st = Ok st' →
  store st' !! k = store st !! k.
Proof.
  induction xs as [|x xs IH]; intros st st' Hb HP H; [by injection H as <-|].
  apply bind_Ok_inv in H as (sta & E & H).
  destruct (Hb x st sta (list_elem_of_here _ _) HP E) as [HP' Ek].
  rewrite <- Ek. apply (IH sta st'); [|done|done].
  intros y cur cur' Hy. apply Hb. by right.
Qed.

(** A call whose source is no key does not write its destination: what
    it writes lies under [dest.count] and the instances [dest.i]. *)
Lemma copy_element_absent_dest n s d cb st st' :
  cb_localized cb → store st !! s = None →
  copy_element n s d cb st = Ok st' →
  store st' !! d = store st !! d.
Proof.
  intros Hcb Hs H. destruct n as [|n]; [done|].
  rewrite copy_element_unfold, Hs in H. unfold repeated_branch in H.
  destruct (negb (truthy _)); [by injection H as <-|].
  destruct (range _) as [idx| |]; [|done..]. cbn [mbind res_bind] in H.
  apply (for_each_untouched (λ _, True) _ d) in H; [|clear H|done].
  - rewrite H. simpl. apply lookup_insert_ne. by apply str_app_ne_self.
  - intros i cur cur' _ _ E. split; [done|].
    apply (copy_element_unchanged _ _ _ _ _ _ Hcb E), not_under_indexed_self.
Qed.

(** Under [apart], the instances of a list that are no keys leave
    their destinations as they were. *)
Lemma copy_element_absent_instance n s d cb st st' (N : Z) (i : nat) :
  cb_localized cb → apart s d →
  store st !! s = None →
  store st !! (s +:+ ".count") = Some (VInt N) → N ≠ 0 →
  store st !! indexed s i = None →
  copy_element n s d cb st = Ok st' →
  store st' !! indexed d i = store st !! indexed d i.
Proof.
  intros Hcb Ha Hs Hc HN Hi H. destruct n as [|n]; [done|].
  rewrite (copy_element_repeated _ _ _ _ _ N) in H by done.
  apply (for_each_untouched
           (λ cur, agree (key_prefix s) (store cur) (store st))
           _ (indexed d i)) in H; [|clear H|].
  - rewrite H. simpl. apply lookup_insert_ne.
    intros E. by apply (indexed_ne_count_key d i).
  - intros j cur cur' _ Hag E. split.
    + intros k Hk. rewrite <- (Hag k Hk).
      apply (copy_element_unchanged _ _ _ _ _ _ Hcb E).
      intros Hu%under_indexed. by apply (Ha k).
    + destruct (decide (j = i)) as [->|Hne].
      * apply (copy_element_absent_dest n (indexed s i) (indexed d i) cb cur cur' Hcb);
          [|exact E].
        rewrite (Hag (indexed s i)); [done|apply key_prefix_indexed_key].
      * apply (copy_element_unchanged _ _ _ _ _ _ Hcb E).
        intros Hu. apply Hne.
        apply (indexed_under_disjoint d j i (indexed d i) Hu), under_refl.
  - apply (agree_set_item_apart s d); [done|apply (under_dot_key d "count")|done].
Qed.

(** ** Invocations, instance by instance *)

Lemma for_each_children_blocks n s d (f : callback) idx : ∀ st st',
  cb_appends f →
  (∀ i, i ∈ idx → is_Some (store st !! indexed s i)) →
  for_each (λ i, copy_element n (indexed s i) (indexed d i) (Some f)) idx st = Ok st' →
  ∃ nested, length nested = length idx ∧
    calls st' = calls st ++ invocations s d idx nested ∧
    Forall2 (λ i l, added_by f (indexed s i) (indexed d i) l) idx nested.
Proof.
  induction idx as [|i idx IH]; intros st st' Hf Hs H.
  { injection H as <-. exists []. split_and!; [done| |constructor].
    by rewrite app_nil_r. }
  apply bind_Ok_inv in H as (sta & E & H).
  destruct (copy_element_scalar_inv _ _ _ _ _ _ (Hs i (list_elem_of_here _ _)) E)
    as (m & st5 & _ & _ & Hc5 & Hk5 & Ef).
  destruct (Hf _ _ _ _ _ Ef) as [[l Hl] Hka].
  destruct (IH sta st' Hf) as (nested & Hlen & Hcalls & Hall); [|done|].
  { intros j Hj. apply Hka, Hk5, Hs. by right. }
  exists (l :: nested). split_and!.
  - simpl. by rewrite Hlen.
  - rewrite Hcalls, Hl. cbn [log_call calls]. rewrite Hc5.
    unfold invocations. cbn [zip_with concat].
    by rewrite <- !app_assoc.
  - constructor; [|done]. exists m, st5, sta. split; [done|].
    rewrite Hl. cbn [log_call calls]. by rewrite <- app_assoc.
Qed.

Lemma invocations_quiet s d idx nested :
  length nested = length idx → Forall (λ l, l = []) nested →
  invocations s d idx nested = map (λ i, (indexed s i, indexed d i)) idx.
Proof.
  revert nested. induction idx as [|i idx IH]; intros [|l nested] Hlen Hall;
    try done.
  apply Forall_cons in Hall as [-> Hall]. unfold invocations in *.
  cbn [zip_with concat map]. rewrite IH; [done| |done]. by injection Hlen.
Qed.

(** ** Callbacks only add to the log *)

Lemma appends_bind (f : state → res state) (g : state → res state) st st' :
  (∀ st st', f st = Ok st' → ∃ l, calls st' = calls st ++ l) →
  (∀ st st', g st = Ok st' → ∃ l, calls st' = calls st ++ l) →
  f st ≫= g = Ok st' → ∃ l, calls st' = calls st ++ l.
Proof.
  intros Hf Hg H. apply bind_Ok_inv in H as (sta & E1 & E2).
  destruct (Hf _ _ E1) as [l1 H1]. destruct (Hg _ _ E2) as [l2 H2].
  exists (l1 ++ l2). by rewrite H2, H1, app_assoc.
Qed.

Lemma appends_for_each {A : Type} (body : A → state → res state) xs :
  (∀ x st st', body x st = Ok st' → ∃ l, calls st' = calls st ++ l) →
  ∀ st st', for_each body xs st = Ok st' → ∃ l, calls st' = calls st ++ l.
Proof.
  intros Hb. induction xs as [|x xs IH]; intros st st' H.
  - injection H as <-. exists []. by rewrite app_nil_r.
  - revert H. apply appends_bind; [apply Hb|apply IH].
Qed.

Lemma copy_element_appends n : ∀ s d cb st st',
  (∀ f, cb = Some f →
     ∀ n s d st st', f n s d st = Ok st' → ∃ l, calls st' = calls st ++ l) →
  copy_element n s d cb st = Ok st' → ∃ l, calls st' = calls st ++ l.
Proof.
  induction n as [|n IH]; intros s d cb st st' Hcb H; [done|].
  assert (Hnone : ∀ s d st st',
            copy_element n s d None st = Ok st' → ∃ l, calls st' = calls st ++ l).
  { intros s0 d0 st0 st0'. by apply IH. }
  rewrite copy_element_unfold in H. destruct (store st !! s) as [v|].
  - unfold scalar_branch in H.
    change (calls st) with (calls (set_item d v st)).
    revert H. generalize (set_item d v st). intros st0 H.
    do 4 (apply bind_Ok_inv in H as (? & ?%Hnone & H)).
    destruct cb as [f|].
    + apply (Hcb f eq_refl) in H as [l H]. cbn [log_call calls] in H.
      destruct H0 as [l0 H0], H1 as [l1 H1], H2 as [l2 H2], H3 as [l3 H3].
      eexists. rewrite H, H3, H2, H1, H0, <- !app_assoc. done.
    + injection H as <-.
      destruct H0 as [l0 H0], H1 as [l1 H1], H2 as [l2 H2], H3 as [l3 H3].
      eexists. rewrite H3, H2, H1, H0, <- !app_assoc. done.
  - unfold repeated_branch in H.
    destruct (negb (truthy _)).
    { injection H as <-. exists []. by rewrite app_nil_r. }
    destruct (range _) as [idx| |]; [|done..]. cbn [mbind res_bind] in H.
    apply appends_for_each in H; [done|]. intros i st0 st0'. by apply IH.
Qed.

Ltac appends_plain :=
  intros ? ?; first [apply appends_bind; [intros ? ?; by apply copy_element_appends|]
                    |by apply copy_element_appends].

Lemma person_attrs_appends : cb_appends person_attrs.
Proof.
  intros n s d st st' H. split.
  - revert st st' H. unfold person_attrs. do 3 appends_plain.
  - by destruct (person_attrs_localized n s d _ _ H) as (_ & ? & _).
Qed.

Ltac appends_person :=
  let Hf := fresh in
  apply copy_element_appends; intros ? [= <-] ? ? ? ? ? Hf;
  exact (proj1 (person_attrs_appends _ _ _ _ _ Hf)).

Lemma document_attrs_appends : cb_appends document_attrs.
Proof.
  intros n s d st st' H. split.
  - revert st st' H. unfold document_attrs. do 3 appends_plain.
    intros ? ?. apply appends_bind; [intros ? ?; appends_person|].
    appends_plain.
  - by destruct (document_attrs_localized n s d _ _ H) as (_ & ? & _).
Qed.

Lemma funding_attrs_appends : cb_appends funding_attrs.
Proof.
  intros n s d st st' H. split.
  - revert st st' H. unfold funding_attrs. appends_plain.
    intros ? ?. appends_person.
  - by destruct (funding_attrs_localized n s d _ _ H) as (_ & ? & _).
Qed.

Lemma file_attrs_appends : cb_appends file_attrs.
Proof.
  intros n s d st st' H. split.
  - revert st st' H. unfold file_attrs. do 4 appends_plain.
  - by destruct (file_attrs_localized n s d _ _ H) as (_ & ? & _).
Qed.

(** ** Elements nested deep *)

Lemma nested_record_head s D : nested_record s D !! s = Some (VInt 0).
Proof. destruct D; simpl; [apply lookup_singleton_eq|apply lookup_insert_eq]. Qed.

Lemma nested_record_tail s D k :
  is_Some (nested_record (s +:+ "/language") D !! k) →
  is_Some (nested_record s (S D) !! k).
Proof. intros H. simpl. rewrite lookup_insert. by case_decide. Qed.

Lemma nested_record_values s D : ∀ k v,
  nested_record s D !! k = Some v → v = VInt 0 ∧ key_prefix s k.
Proof.
  revert s. induction D as [|D IH]; intros s k v H; simpl in H.
  - apply lookup_singleton_Some in H as [<- <-]. split; [done|apply key_prefix_refl].
  - rewrite lookup_insert in H. case_decide as E.
    + injection H as <-. subst k. split; [done|apply key_prefix_refl].
    + destruct (IH _ _ _ H) as [-> Hp]. split; [done|].
      eapply key_prefix_trans; [apply key_prefix_app_r|exact Hp].
Qed.

Lemma nested_record_counts s D : counts_int (nested_record s D).
Proof. intros k v [-> _]%nested_record_values. by eexists. Qed.

(** A call on an element nested [D] levels deep needs a depth budget
    of more than [D + 1]. *)
Lemma copy_element_nested_deep D : ∀ n s d cb st,
  (∀ k, is_Some (nested_record s D !! k) → is_Some (store st !! k)) →
  (n ≤ S D)%nat →
  copy_element n s d cb st = OutOfFuel.
Proof.
  induction D as [|D IH]; intros n s d cb st Hst Hn.
  - destruct n as [|[|n]]; [done| |lia].
    rewrite copy_element_unfold.
    destruct (Hst s) as [v ->]; [rewrite nested_record_head; by eexists|].
    done.
  - destruct n as [|n]; [done|].
    rewrite copy_element_unfold.
    destruct (Hst s) as [v ->]; [rewrite nested_record_head; by eexists|].
    unfold scalar_branch. rewrite IH; [done| |lia].
    intros k Hk%nested_record_tail%Hst. simpl.
    rewrite lookup_insert. by case_decide.
Qed.

(** Children that are neither scalar keys nor counted leave the record
    as it is, however many there are. *)
Lemma for_each_absent_in n s d cb idx st :
  (∀ i, i ∈ idx → store st !! indexed s i = None ∧
                  store st !! (indexed s i +:+ ".count") = None) →
  for_each (λ i, copy_element (S n) (indexed s i) (indexed d i) cb) idx st = Ok st.
Proof.
  induction idx as [|i idx IH]; intros H; [done|].
  cbn [for_each]. destruct (H i (list_elem_of_here _ _)) as [H1 H2].
  rewrite copy_element_skip by auto. apply IH.
  intros j Hj. apply H. by right.
Qed.

(** A count without instances: the count is copied, however large it
    is. *)
Lemma copy_element_count_only n s d cb st (N : Z) :
  apart s d →
  store st !! s = None →
  store st !! (s +:+ ".count") = Some (VInt N) → N ≠ 0 →
  (∀ i : nat, Z.of_nat i < N →
     store st !! indexed s i = None ∧
     store st !! (indexed s i +:+ ".count") = None) →
  copy_element (S (S n)) s d cb st = Ok (set_item (d +:+ ".count") (VInt N) st).
Proof.
  intros Ha Hs Hc HN Hi.
  rewrite (copy_element_repeated _ _ _ _ _ N) by done.
  apply for_each_absent_in. intros i Hin%elem_of_seq.
  assert (Hne : ∀ x, d +:+ ".count" ≠ indexed s i +:+ x).
  { intros x E. apply (Ha (d +:+ ".count") (under_dot_key d "count")).
    rewrite E. eapply key_prefix_trans;
      [apply key_prefix_indexed_key|apply key_prefix_app_r]. }
  destruct (Hi i) as [H1 H2]; [lia|]. simpl. split.
  - rewrite lookup_insert_ne; [done|].
    rewrite <- (str_app_nil_r (indexed s i)). apply Hne.
  - rewrite lookup_insert_ne; [done|apply Hne].
Qed.

(** ** Instances with nothing under them *)

Lemma leaf_key_intro (s : string) (l : list (string * value)) :
  forallb (λ kv, negb (underb s kv.1) || String.eqb kv.1 s) l = true →
  leaf_key s (list_to_map l).
Proof.
  intros H k Hu Hne. apply not_elem_of_list_to_map_1.
  intros ([k' v] & E & Hin)%list_elem_of_fmap. simpl in E. subst k'.
  rewrite forallb_forall in H. apply list_elem_of_In, H in Hin. simpl in Hin.
  apply orb_true_iff in Hin as [Hin|Hin].
  - apply negb_true_iff in Hin. apply underb_spec in Hu. congruence.
  - by apply String.eqb_eq in Hin.
Qed.

Lemma leaf_key_put s key o st :
  ¬ (under s key ∧ key ≠ s) → leaf_key s (store st) →
  leaf_key s (store (put_opt key o st)).
Proof.
  intros Hn Hl k Hu Hne. rewrite lookup_put_opt_ne; [by apply Hl|].
  intros ->. by apply Hn.
Qed.

Lemma leaf_key_agree s s' m1 m2 :
  key_prefix s s' → agree (key_prefix s) m1 m2 → leaf_key s' m2 → leaf_key s' m1.
Proof.
  intros Hp Hag Hl k Hu Hne. rewrite (Hag k); [by apply Hl|].
  eapply key_prefix_trans; [exact Hp|by apply under_key_prefix].
Qed.

(** A call on a key with nothing under it copies its value, if there is
    one, and does nothing else. *)
Lemma copy_element_single n s d st :
  leaf_key s (store st) → ¬ (under s d ∧ d ≠ s) →
  copy_element (S (S n)) s d None st = Ok (put_opt d (store st !! s) st).
Proof.
  intros Hl Hd. rewrite copy_element_unfold.
  assert (Hne : ∀ c x, s +:+ String c x ≠ s)
    by (intros c x; by apply str_app_ne_self).
  destruct (store st !! s) as [v|] eqn:E.
  - unfold scalar_branch.
    assert (Hl' : leaf_key s (store (set_item d v st)))
      by apply (leaf_key_put s d (Some v) st Hd Hl).
    assert (Hskip : ∀ x d',
              copy_element (S n) (s +:+ String "/" x) d' None (set_item d v st)
              = Ok (set_item d v st)).
    { intros x d'. apply copy_element_skip.
      - apply Hl'; [apply under_slash_key|apply Hne].
      - left. rewrite str_app_assoc. apply Hl'; [|apply Hne].
        apply (under_slash_key s (x +:+ ".count")). }
    do 4 (rewrite Hskip; cbn [mbind res_bind]). done.
  - rewrite Hl; [done|apply (under_dot_key s "count")|apply Hne].
Qed.

Lemma copy_element_leaves_run n s d N st :
  store st !! s = None →
  store st !! (s +:+ ".count") = Some (VInt N) → N ≠ 0 →
  (∀ i, (i < Z.to_nat N)%nat → leaf_key (indexed s i) (store st)) →
  apart s d →
  copy_element (S (S (S n))) s d None st = Ok (copy_list s d N st).
Proof.
  intros Hs Hc HN Hch Ha.
  apply (copy_element_instances _ s d None N st
           (λ i, put_opt (indexed d i) (store st !! indexed s i))); try done.
  intros i cur Hi Hag. split.
  - rewrite copy_element_single.
    + by rewrite (Hag (indexed s i)) by apply key_prefix_indexed_key.
    + eapply leaf_key_agree; [apply key_prefix_indexed_key|done|by apply Hch].
    + intros [Hp%under_key_prefix%key_prefix_indexed _].
      by apply (Ha (indexed d i)); [apply under_indexed_key|].
  - intros k Hk. rewrite lookup_put_opt_ne; [by apply Hag|].
    intros <-. by apply (Ha (indexed d i)); [apply under_indexed_key|].
Qed.

(** ** A title nested too deep *)

Lemma nested_record_absent s D k :
  String.prefix s k = false → nested_record s D !! k = None.
Proof.
  intros Hp. destruct (nested_record s D !! k) as [v|] eqn:E; [|done].
  apply nested_record_values in E as [_ Hk%prefix_spec]. congruence.
Qed.

(** The reader on a title nested [D] levels deep needs a depth budget
    of more than [D + 1], as the call for the title does. *)
Lemma apply_mapping_nested_deep D n :
  (n ≤ S D)%nat →
  apply_mapping n mapping (st_of (nested_record "dataset/dct:title" D)) = OutOfFuel.
Proof.
  intros Hn. destruct n as [|n]; [done|].
  unfold apply_mapping, mapping. cbn [for_each].
  do 4 (rewrite copy_element_skip
          by (first [left|idtac]; by apply nested_record_absent);
        cbn [mbind res_bind]).
  rewrite (copy_element_nested_deep D); [done| |lia].
  by intros k Hk.
Qed.

Lemma nrd_metadata_reader_nested_deep XML lower D n :
  (n ≤ S D)%nat →
  nrd_metadata_reader XML lower n (nested_record "dataset/dct:title" D) = OutOfFuel.
Proof.
  intros Hn. unfold nrd_metadata_reader.
  pose proof (apply_mapping_nested_deep D n Hn) as E. unfold st_of in E.
  by rewrite E.
Qed.

(** * The properties of the specification *)

(** ** C1: the scenario of the specification *)

(** C1.  On the scenario record of the specification the rule table,
    and with it [nrd_metadata_reader], returns for every parser and
    every depth budget of at least two the four input entries together
    with [title = "Sample"] and [creator.count = 2].  The instances
    [dataset/nrd:creator.0] and [dataset/nrd:creator.1] are not keys of
    the record, so [person_attrs] is never invoked and neither
    [creator.0/name] nor [creator.1/name] is written. *)
Theorem scenario_projection XML lower n :
  apply_mapping (S (S n)) mapping (st_of scenario_record)
    = Ok (st_of scenario_result) ∧
  nrd_metadata_reader XML lower (S (S n)) scenario_record = Ok scenario_result ∧
  scenario_result !! "title" = Some (VStr "Sample") ∧
  scenario_result !! "creator.count" = Some (VInt 2) ∧
  scenario_result !! "creator.0/name" = None ∧
  scenario_result !! "creator.1/name" = None.
Proof. split_and!; vm_compute; exact eq_refl. Qed.

(** The record the specification expects is not what the reader
    returns: the two names are missing, and the input entries are still
    there. *)
Lemma scenario_counterexample :
  nrd_metadata_reader no_markup ascii_lower 5 scenario_record = Ok scenario_result ∧
  scenario_result !! "creator.0/name" = None ∧
  scenario_result !! "creator.1/name" = None ∧
  scenario_result !! "dataset/dct:title" = Some (VStr "Sample").
Proof. split_and!; vm_compute; exact eq_refl. Qed.

(** With the two creators present as elements of their own, as a
    reader of RDF delivers them, the names are projected. *)
Example scenario_with_instance_keys XML lower n :
  nrd_metadata_reader XML lower (S (S (S (S n)))) scenario_with_instances
  = Ok scenario_with_instances_result.
Proof. vm_compute. exact eq_refl. Qed.

(** ** C2: failures of the rights post-processing *)

(** C2.  On a record with integer counts the reader
    returns, with one result from some depth budget on, whatever the
    rights value is and whatever the parser makes of it.  Whenever
    the rule table has returned the projected record [store st], the
    reader returns a record [out] such that: the rule table has not
    touched [rightsclass], [license] and [accessURL]; every other key of
    [out] is as projected; if [rights] is absent, is rejected by the
    parser or has no [RIGHTSCATEGORY], then [out] is the projected
    record itself; and if the category is there and only the first child
    is missing, then [out] is the projected record with [rightsclass]
    set to the lower-cased category. *)
Theorem rights_failure_outcome XML lower record :
  (counts_int record →
   returns_eventually (λ n, nrd_metadata_reader XML lower n record)) ∧
  ∀ n st, apply_mapping n mapping (st_of record) = Ok st →
    ∃ out, nrd_metadata_reader XML lower n record = Ok out ∧
      (∀ k, k ∈ rights_keys → store st !! k = record !! k) ∧
      (∀ k, k ∉ rights_keys → out !! k = store st !! k) ∧
      (store st !! "rights" = None ∨
       (∃ r, store st !! "rights" = Some r ∧
          ((∃ e, XML r = inl e) ∨
           (∃ rights, XML r = inr rights ∧
                      attrib rights !! "RIGHTSCATEGORY" = None))) →
       out = store st) ∧
      (∀ r rights c,
         store st !! "rights" = Some r → XML r = inr rights →
         attrib rights !! "RIGHTSCATEGORY" = Some c → children rights = [] →
         out = <["rightsclass" := VStr (lower c)]> (store st)).
Proof.
  split; [apply nrd_metadata_reader_total|].
  intros n st Hm. exists (rights_pass XML lower (store st)). split_and!.
  - unfold nrd_metadata_reader. by rewrite (bind_Ok _ _ _ Hm).
  - intros k Hk. destruct (mapping_footprint n _ _ Hm) as (Hfr & _ & _).
    apply Hfr. by intros [_ ?].
  - intros k Hk. by apply rights_pass_other.
  - rewrite rights_pass_cases.
    intros [->|(r & -> & [[e ->]|(rights & -> & ->)])]; done.
  - intros r rights c Hr Hx Hc Hch. by rewrite rights_pass_cases, Hr, Hx, Hc, Hch.
Qed.

Lemma rights_failure_outcome_witness :
  nrd_metadata_reader no_markup ascii_lower 2 scenario_record = Ok scenario_result ∧
  nrd_metadata_reader no_markup ascii_lower 3 rights_record = Ok rights_projected ∧
  nrd_metadata_reader bare_markup ascii_lower 3 rights_record = Ok rights_projected ∧
  nrd_metadata_reader licensed_markup ascii_lower 3 rights_record =
    Ok (<["rightsclass" := VStr "licensed"]> rights_projected) ∧
  returns_eventually (λ n, nrd_metadata_reader licensed_markup ascii_lower n rights_record).
Proof.
  assert (Hs : apply_mapping 2 mapping (st_of scenario_record)
               = Ok (st_of scenario_result)) by (vm_compute; exact eq_refl).
  assert (Hr : apply_mapping 3 mapping (st_of rights_record)
               = Ok (st_of rights_projected)) by (vm_compute; exact eq_refl).
  split_and!.
  - destruct (proj2 (rights_failure_outcome no_markup ascii_lower scenario_record)
                _ _ Hs) as (out & -> & _ & _ & Hfail & _).
    f_equal. apply Hfail. left. reflexivity.
  - destruct (proj2 (rights_failure_outcome no_markup ascii_lower rights_record)
                _ _ Hr) as (out & -> & _ & _ & Hfail & _).
    f_equal. apply Hfail. right. exists licensed_text. split; [reflexivity|].
    left. by eexists.
  - destruct (proj2 (rights_failure_outcome bare_markup ascii_lower rights_record)
                _ _ Hr) as (out & -> & _ & _ & Hfail & _).
    f_equal. apply Hfail. right. exists licensed_text. split; [reflexivity|].
    right. by eexists.
  - destruct (proj2 (rights_failure_outcome licensed_markup ascii_lower rights_record)
                _ _ Hr) as (out & -> & _ & _ & _ & Hchild).
    f_equal.
    apply (Hchild licensed_text
             (Element {["RIGHTSCATEGORY" := "LICENSED"]} None []) "LICENSED");
      reflexivity.
  - apply (proj1 (rights_failure_outcome licensed_markup ascii_lower rights_record)).
    apply (counts_int_intro [("dataset/nrd:rights", licensed_text)]). reflexivity.
Defined.

(** Rights markup with a category and no child: the parse fails with an
    [IndexError] at the first child, yet [rightsclass] is set. *)
Lemma rights_failure_counterexample :
  apply_mapping 3 mapping (st_of rights_record) = Ok (st_of rights_projected) ∧
  (rights_try licensed_markup ascii_lower rights_projected).2 = Some IndexError ∧
  nrd_metadata_reader licensed_markup ascii_lower 3 rights_record = Ok rights_result ∧
  rights_result !! "rightsclass" = Some (VStr "licensed").
Proof. split_and!; vm_compute; exact eq_refl. Qed.

(** ** C3: count preservation *)

(** C3.  Let [source] be no scalar key and
    [source.count = N] with [N >= 1].  Whenever
    [copy_element(source, dest, record)] returns, [dest.count = N], and
    for every index [i < N] at which [source.i] is a scalar key of the
    record, [dest.i] exists.  When nothing the call writes lies below
    [source], an index at which [source.i] is no scalar key leaves
    [dest.i] as it was: it gets no [dest.i] if the record had none.
    The call does return, with one result from some depth budget on,
    when nothing it writes lies below [source] and the counts of the
    record are integers. *)
Theorem copy_element_count_preserved source dest st (N : Z) :
  store st !! source = None →
  store st !! (source +:+ ".count") = Some (VInt N) →
  1 ≤ N →
  (∀ n st', copy_element n source dest None st = Ok st' →
     store st' !! (dest +:+ ".count") = Some (VInt N) ∧
     (∀ i : nat, Z.of_nat i < N →
        is_Some (store st !! indexed source i) →
        is_Some (store st' !! indexed dest i)) ∧
     (apart source dest →
      ∀ i : nat, store st !! indexed source i = None →
        store st' !! indexed dest i = store st !! indexed dest i)) ∧
  (apart source dest → counts_int (store st) →
   returns_eventually (λ n, copy_element n source dest None st)).
Proof.
  intros Hs Hc HN. split; [|apply copy_element_total, cb_regular_None].
  intros n st' H. split_and!.
  - destruct n as [|n]; [done|].
    rewrite (copy_element_repeated _ _ _ _ _ N) in H by (done || lia).
    destruct (for_each_children _ _ _ _ _ _ H) as (Hcount & _ & _).
    rewrite Hcount. simpl. apply lookup_insert_eq.
  - destruct n as [|n]; [done|].
    rewrite (copy_element_repeated _ _ _ _ _ N) in H by (done || lia).
    destruct (for_each_children _ _ _ _ _ _ H) as (_ & _ & Hi).
    intros i Hlt Hsi. apply Hi.
    + apply elem_of_seq. lia.
    + simpl. rewrite lookup_insert. case_decide; [by eexists|done].
  - intros Ha i Hi.
    apply (copy_element_absent_instance n source dest None st st' N i);
      [exact I|done|done|done|lia|done|done].
Qed.

Lemma copy_element_count_preserved_witness :
  ∃ st' n0,
    (∀ n, (n0 ≤ n)%nat → copy_element n "a" "b" None (st_of half_pair) = Ok st') ∧
    store st' !! "b.count" = Some (VInt 2) ∧
    is_Some (store st' !! "b.0") ∧
    store st' !! "b.1" = None.
Proof.
  destruct (copy_element_count_preserved "a" "b" (st_of half_pair) 2)
    as [Hpost Hret]; [reflexivity|reflexivity|lia|].
  assert (Ha : apart "a" "b") by (apply apart_intro; reflexivity).
  destruct Hret as (st' & n0 & Hrun);
    [exact Ha|apply counts_int_intro; reflexivity|].
  destruct (Hpost n0 st' (Hrun n0 (le_n _))) as (Hc & Hi & Hn).
  exists st', n0. split_and!; [exact Hrun|exact Hc| |].
  - apply (Hi 0%nat); [lia|]. by eexists.
  - apply (Hn Ha 1%nat). reflexivity.
Defined.

(** A count of two without instances: [b.count] is written, [b.0] is
    not. *)
Lemma copy_element_count_counterexample :
  copy_element 2 "a" "b" None (st_of empty_pair)
    = Ok (st_of (<["b.count" := VInt 2]> empty_pair)) ∧
  (<["b.count" := VInt 2]> empty_pair) !! "b.0" = None.
Proof. split; vm_compute; exact eq_refl. Qed.

(** ** C4: language precedence and resource override *)

(** C4.  Let [source] be a scalar key whose four variants
    [/language], [/@lang], [/@xml:lang] and [/@rdf:resource] are leaves
    of the record, and let [source] be no prefix of [dest/language].
    Then [copy_element(source, dest, record)] returns at every depth
    budget of at least three; [dest/language] holds the last one present
    of [source/language], [source/@lang], [source/@xml:lang] (its old
    value if none is); [dest] holds [source/@rdf:resource] if present
    and the scalar text otherwise; and no other key changes. *)
Theorem copy_element_language_resource n source dest st v :
  store st !! source = Some v →
  leaf_variants source (store st) →
  ¬ key_prefix source (dest +:+ "/language") →
  ∃ st', copy_element (S (S (S n))) source dest None st = Ok st' ∧
    store st' !! (dest +:+ "/language") =
      overwrite (store st !! (source +:+ "/@xml:lang"))
        (overwrite (store st !! (source +:+ "/@lang"))
          (overwrite (store st !! (source +:+ "/language"))
            (store st !! (dest +:+ "/language")))) ∧
    store st' !! dest =
      Some (default v (store st !! (source +:+ "/@rdf:resource"))) ∧
    (∀ k, k ≠ dest → k ≠ dest +:+ "/language" →
          store st' !! k = store st !! k).
Proof.
  intros Hs Hl Hdl.
  assert (Hd : ¬ key_prefix source dest).
  { intros H. apply Hdl. eapply key_prefix_trans; [done|apply key_prefix_app_r]. }
  assert (Hne : dest ≠ dest +:+ "/language").
  { intros E. by apply (str_app_ne_self dest "/language"). }
  pose proof (leaf_variants_put source dest (Some v) st Hd Hl) as L0.
  eexists. split.
  - rewrite copy_element_unfold, Hs. unfold scalar_branch.
    change (set_item dest v st) with (put_opt dest (Some v) st).
    repeat (rewrite (copy_element_variant _ source)
              by (eauto using leaf_variants_put || variant_in);
            cbn [mbind res_bind];
            rewrite !lookup_put_opt_source by done).
    reflexivity.
  - split_and!.
    + rewrite !lookup_put_opt. repeat case_decide; done.
    + rewrite !lookup_put_opt. repeat case_decide; try done.
      simpl. by destruct (store st !! (source +:+ "/@rdf:resource")).
    + intros k Hk1 Hk2. rewrite !lookup_put_opt. repeat case_decide; done.
Qed.

Lemma copy_element_language_resource_witness :
  ∃ st', copy_element 3 "x" "d" None (st_of lang_record) = Ok st' ∧
    store st' !! "d/language" = Some (VStr "sv") ∧
    store st' !! "d" = Some (VStr "http://ex").
Proof.
  destruct (copy_element_language_resource 0 "x" "d" (st_of lang_record) (VStr "text"))
    as (st' & Hrun & Hlang & Hd & _).
  - reflexivity.
  - intros x t Hx Ht. apply list_elem_of_In in Hx. simpl in Hx.
    destruct Hx as [<-|[<-|[<-|[<-|[]]]]]; cbn [st_of store]; unfold lang_record;
      repeat (rewrite lookup_insert_ne; [|intros E; cbv in E; by simplify_eq]);
      apply lookup_empty.
  - intros [t E]. cbv in E. discriminate.
  - exists st'. split; [exact Hrun|]. split; [exact Hlang|exact Hd].
Defined.

(** All three language variants present, and a language on the
    resource as well: the projected [d/language] is that one, not
    ["sv"]. *)
Lemma copy_element_language_counterexample :
  nested_lang_record !! "x/language" = Some (VStr "en") ∧
  nested_lang_record !! "x/@lang" = Some (VStr "fi") ∧
  nested_lang_record !! "x/@xml:lang" = Some (VStr "sv") ∧
  copy_element 4 "x" "d" None (st_of nested_lang_record)
    = Ok (st_of (<["d" := VStr "http://ex"]>
                   (<["d/language" := VStr "de"]> nested_lang_record))) ∧
  (<["d" := VStr "http://ex"]> (<["d/language" := VStr "de"]> nested_lang_record))
    !! "d/language" ≠ Some (VStr "sv").
Proof. split_and!; vm_compute; (exact eq_refl || discriminate). Qed.

(** ** C5: callback invocations *)

(** C5.  Let [source] be no scalar key, [source.count = N]
    with [N >= 1], every instance [source.i] with [i < N] a scalar key
    of the record, and [f] a callback that, when it returns, has kept
    the keys of the record and has only added to the log of
    invocations.  Whenever [copy_element(source, dest, record, f)]
    returns, it has invoked [f] exactly [N] times, on
    [(source.i, dest.i, record)] for [i = 0, ..., N-1] in this order:
    the log consists of [N] blocks, the entry of the [i]-th invocation
    followed by what that invocation of [f] itself added, which is
    nothing when [f] invokes no callback of its own.  [document_attrs]
    and [funding_attrs], which invoke [person_attrs], are such
    callbacks.  The call does return, with one result from some depth
    budget on, when nothing it writes lies below [source], the counts
    are integers and [f] is regular. *)
Theorem copy_element_callback_calls source dest (f : callback) st (N : Z) :
  store st !! source = None →
  store st !! (source +:+ ".count") = Some (VInt N) →
  1 ≤ N →
  (∀ i : nat, Z.of_nat i < N → is_Some (store st !! indexed source i)) →
  cb_appends f →
  (∀ n st', copy_element n source dest (Some f) st = Ok st' →
     ∃ nested, length nested = Z.to_nat N ∧
       calls st' = calls st ++
         invocations source dest (seq 0 (Z.to_nat N)) nested ∧
       Forall2 (λ i l, added_by f (indexed source i) (indexed dest i) l)
               (seq 0 (Z.to_nat N)) nested ∧
       ((∀ n s d st st', f n s d st = Ok st' → calls st' = calls st) →
        calls st' = calls st ++
          map (λ i, (indexed source i, indexed dest i)) (seq 0 (Z.to_nat N)))) ∧
  (cb_regular (Some f) → apart source dest → counts_int (store st) →
   returns_eventually (λ n, copy_element n source dest (Some f) st)).
Proof.
  intros Hs Hc HN Hi Hf. split; [|apply copy_element_total].
  intros n st' H. destruct n as [|n]; [done|].
  rewrite (copy_element_repeated _ _ _ _ _ N) in H by (done || lia).
  apply for_each_children_blocks in H as (nested & Hlen & Hcalls & Hall);
    [|done|].
  - rewrite length_seq in Hlen. exists nested. split_and!; [done|done|done|].
    intros Hq. rewrite Hcalls. cbn [set_item calls]. f_equal.
    apply invocations_quiet; [by rewrite length_seq|].
    clear Hcalls Hlen. induction Hall as [|i l idx nested Hil _ IH]; [done|].
    constructor; [|done]. destruct Hil as (m & sti & sti' & Ef & El).
    apply Hq in Ef. rewrite Ef in El. cbn [log_call calls] in El.
    apply app_inv_head in El. by injection El.
  - intros i Hin%elem_of_seq. simpl. rewrite lookup_insert.
    case_decide; [by eexists|]. apply Hi. lia.
Qed.

Lemma copy_element_callback_calls_witness :
  ∃ st' nested,
    copy_element 5 "docs" "collection" (Some document_attrs) (st_of documents_record)
      = Ok st' ∧
    length nested = 2%nat ∧
    calls st' = invocations "docs" "collection" [0; 1]%nat nested ∧
    calls st' = [("docs.0", "collection.0"); ("docs.1", "collection.1");
                 ("docs.1/nrd:creator", "collection.1/creator")].
Proof.
  assert (E : match copy_element 5 "docs" "collection" (Some document_attrs)
                    (st_of documents_record) with
              | Ok st' => Some (calls st')
              | _ => None
              end = Some [("docs.0", "collection.0"); ("docs.1", "collection.1");
                          ("docs.1/nrd:creator", "collection.1/creator")])
    by (vm_compute; exact eq_refl).
  destruct (copy_element 5 "docs" "collection" (Some document_attrs)
              (st_of documents_record)) as [st'| |] eqn:Hrun; [|discriminate E..].
  injection E as E.
  destruct (copy_element_callback_calls "docs" "collection" document_attrs
              (st_of documents_record) 2) as [Hpost _].
  - reflexivity.
  - reflexivity.
  - lia.
  - intros [|[|i]] Hi; [by eexists..|lia].
  - apply document_attrs_appends.
  - destruct (Hpost _ _ Hrun) as (nested & Hlen & Hcalls & _).
    exists st', nested. split_and!; [reflexivity|exact Hlen|exact Hcalls|exact E].
Defined.

(** A count of two without instances: the callback is not invoked at
    all. *)
Lemma copy_element_callback_counterexample :
  copy_element 3 "a" "b" (Some mark_seen) (st_of empty_pair)
    = Ok (State (<["b.count" := VInt 2]> empty_pair) []).
Proof. vm_compute. exact eq_refl. Qed.

(** ** C6: idempotence *)

(** C6.  [nrd_metadata_reader] is idempotent: whenever it
    returns a record, it returns the same record when applied to it; and
    on a record with integer counts it does return, with one result from
    some depth budget on.
    [copy_element(source, dest, record)] is idempotent when nothing it
    writes lies below [source]: whenever it returns, invoking it again
    on the result returns the result unchanged. *)
Theorem projection_idempotent :
  (∀ XML lower n record out,
     nrd_metadata_reader XML lower n record = Ok out →
     nrd_metadata_reader XML lower n out = Ok out) ∧
  (∀ XML lower record, counts_int record →
     returns_eventually (λ n, nrd_metadata_reader XML lower n record)) ∧
  (∀ n source dest st st',
     apart source dest →
     copy_element n source dest None st = Ok st' →
     copy_element n source dest None st' = Ok st').
Proof.
  split_and!.
  - apply nrd_metadata_reader_idempotent.
  - apply nrd_metadata_reader_total.
  - apply copy_element_idempotent.
Qed.

Lemma projection_idempotent_witness :
  nrd_metadata_reader no_markup ascii_lower 2 scenario_record = Ok scenario_result ∧
  nrd_metadata_reader no_markup ascii_lower 2 scenario_result = Ok scenario_result.
Proof.
  assert (H : nrd_metadata_reader no_markup ascii_lower 2 scenario_record
              = Ok scenario_result) by (vm_compute; exact eq_refl).
  split; [exact H|].
  exact (proj1 projection_idempotent no_markup ascii_lower 2%nat scenario_record _ H).
Defined.

(** Projecting [a/language] onto [a] overwrites [a/language] itself with
    the language of the language; a second projection then copies that
    one to [a]. *)
Lemma copy_element_idempotence_counterexample :
  copy_element 4 "a/language" "a" None (st_of looped_record) = Ok (st_of looped_once) ∧
  copy_element 4 "a/language" "a" None (st_of looped_once) = Ok (st_of looped_twice) ∧
  looped_once !! "a" = Some (VStr "en") ∧
  looped_twice !! "a" = Some (VStr "fi").
Proof. split_and!; vm_compute; exact eq_refl. Qed.

(** ** C7: no depth or count guard *)

(** C7.  [copy_element] has no guard on depth or count.
    Without a callback it never fails with a [MalformedRecordError].  A
    repeated element with any count [N >= 1], however large, whose
    instances are absent is projected normally at every depth budget
    from two on, leaving [dest.count = N], for every source, every
    destination that writes nothing below the source, and every
    callback.  And for every depth [D] the element nested [D] levels
    deep is projected normally too: the call exhausts every depth
    budget up to [D + 1], so it does recurse deeper than [D], and
    returns with one result from some depth budget on. *)
Theorem copy_element_no_guard :
  (∀ n s d st, copy_element n s d None st ≠ Raise MalformedRecordError) ∧
  (∀ n s d cb st (N : Z),
     apart s d →
     store st !! s = None →
     store st !! (s +:+ ".count") = Some (VInt N) → 1 ≤ N →
     (∀ i : nat, Z.of_nat i < N →
        store st !! indexed s i = None ∧
        store st !! (indexed s i +:+ ".count") = None) →
     copy_element (S (S n)) s d cb st =
     Ok (set_item (d +:+ ".count") (VInt N) st)) ∧
  (∀ (D : nat) s d, apart s d →
     (∀ n, (n ≤ S D)%nat →
        copy_element n s d None (st_of (nested_record s D)) = OutOfFuel) ∧
     returns_eventually (λ n, copy_element n s d None (st_of (nested_record s D)))).
Proof.
  split_and!.
  - intros n s d st H%copy_element_raises. discriminate.
  - intros n s d cb st N Ha Hs Hc HN Hi.
    apply copy_element_count_only; [done|done|done|lia|done].
  - intros D s d Ha. split.
    + intros n Hn. by apply (copy_element_nested_deep D).
    + apply copy_element_total; [apply cb_regular_None|done|].
      apply nested_record_counts.
Qed.

Lemma copy_element_no_guard_witness :
  copy_element 2 "a" "b" None (st_of {["a.count" := VInt 1000000]}) =
    Ok (set_item "b.count" (VInt 1000000) (st_of {["a.count" := VInt 1000000]})) ∧
  copy_element 1001 "a" "b" None (st_of (nested_record "a" 1000)) = OutOfFuel ∧
  returns_eventually (λ n, copy_element n "a" "b" None (st_of (nested_record "a" 1000))).
Proof.
  assert (Ha : apart "a" "b") by (apply apart_intro; reflexivity).
  destruct copy_element_no_guard as (_ & Hcount & Hdepth).
  split_and!.
  - apply (Hcount 0%nat "a" "b" None (st_of {["a.count" := VInt 1000000]}) 1000000);
      [exact Ha|reflexivity|reflexivity|lia|].
    intros i _. split; apply lookup_singleton_ne.
    + intros E. by apply (indexed_ne_count "a" i).
    + intros E. by apply (indexed_count_ne_count "a" i).
  - apply (proj1 (Hdepth 1000%nat "a" "b" Ha)). lia.
  - apply (proj2 (Hdepth 1000%nat "a" "b" Ha)).
Defined.

(** No maximum count exists beyond which the projection fails with a
    [MalformedRecordError]. *)
Lemma copy_element_guard_counterexample :
  ¬ ∃ max_count : Z, ∀ N, max_count < N →
      ∃ n, copy_element n "a" "b" None (st_of {["a.count" := VInt N]})
           = Raise MalformedRecordError.
Proof.
  intros [mc H]. destruct (H (mc + 1)) as [n Hn]; [lia|].
  apply copy_element_raises in Hn. discriminate.
Qed.

(** ** C8: zero and absent counts *)

(** C8.  When [source] is no scalar key and [source.count]
    is absent or [0], [copy_element(source, dest, record, callback)]
    returns at every positive depth budget, with or without a callback,
    and leaves the record, and the log of callback invocations, exactly
    as they were. *)
Theorem copy_element_absent_noop n source dest cb st :
  store st !! source = None →
  store st !! (source +:+ ".count") = None ∨
    store st !! (source +:+ ".count") = Some (VInt 0) →
  copy_element (S n) source dest cb st = Ok st.
Proof. apply copy_element_skip. Qed.

Lemma copy_element_absent_noop_witness :
  copy_element 1 "a" "b" (Some mark_seen) (st_of ∅) = Ok (st_of ∅) ∧
  copy_element 1 "a" "b" (Some mark_seen) (st_of {["a.count" := VInt 0]})
    = Ok (st_of {["a.count" := VInt 0]}).
Proof.
  split.
  - apply (copy_element_absent_noop 0 "a" "b" (Some mark_seen) (st_of ∅));
      [|left]; vm_compute; exact eq_refl.
  - apply (copy_element_absent_noop 0 "a" "b" (Some mark_seen)
             (st_of {["a.count" := VInt 0]})); [|right]; vm_compute; exact eq_refl.
Defined.

(** ** C9: the fallback wrapper *)

(** C9.  When the wrapped call raises an exception that
    matches [exception], [ExceptReturn] returns the fallback value; when
    the call returns normally, it returns that result unchanged.  Either
    way the world is left as one invocation of the call left it: the
    exception is not raised again and the call is not made again. *)
Theorem ExceptReturn_guard {W A B : Type} (exception : exn → bool)
    (returns : B) (f : A → W → res B * W) (args : A) (w w' : W) :
  (∀ e, f args w = (Raise e, w') → exception e = true →
        ExceptReturn exception returns f args w = (Ok returns, w')) ∧
  (∀ r, f args w = (Ok r, w') →
        ExceptReturn exception returns f args w = (Ok r, w')).
Proof.
  unfold ExceptReturn. split.
  - by intros e -> ->.
  - by intros r ->.
Qed.

Lemma ExceptReturn_guard_witness :
  ExceptReturn (λ e, bool_decide (e = KeyError)) 0%nat
    (λ (_ : unit) (w : nat), (Raise KeyError, S w)) () 7%nat = (Ok 0%nat, 8%nat) ∧
  ExceptReturn (λ e, bool_decide (e = KeyError)) 0%nat
    (λ (_ : unit) (w : nat), (Ok 5%nat, S w)) () 7%nat = (Ok 5%nat, 8%nat).
Proof.
  split.
  - apply (proj1 (ExceptReturn_guard _ 0%nat
                    (λ (_ : unit) (w : nat), (Raise KeyError, S w)) () 7%nat 8%nat)
             KeyError); reflexivity.
  - apply (proj2 (ExceptReturn_guard (λ e, bool_decide (e = KeyError)) 0%nat
                    (λ (_ : unit) (w : nat), (Ok 5%nat, S w)) () 7%nat 8%nat)
             5%nat); reflexivity.
Defined.

(** ** C10: the frame of [copy_element] *)

(** C10.  Whenever [copy_element(source, dest, record)]
    without a callback returns, every key that is not [dest] itself or
    [dest] followed by a [/] segment or a [.] suffix has its previous
    value; in particular every key that does not begin with [dest] has;
    and no key of the record has been deleted.  The call does return,
    with one result from some depth budget on, when nothing it writes
    lies below [source] and the counts of the record are integers. *)
Theorem copy_element_frame source dest st :
  (∀ n st', copy_element n source dest None st = Ok st' →
     (∀ k, ¬ under dest k → store st' !! k = store st !! k) ∧
     (∀ k, ¬ key_prefix dest k → store st' !! k = store st !! k) ∧
     (∀ k, is_Some (store st !! k) → is_Some (store st' !! k))) ∧
  (apart source dest → counts_int (store st) →
   returns_eventually (λ n, copy_element n source dest None st)).
Proof.
  split; [|apply copy_element_total, cb_regular_None].
  intros n st' H. split_and!.
  - exact (copy_element_unchanged n source dest None st st' I H).
  - intros k Hk. apply (copy_element_unchanged n source dest None st st' I H).
    by intros ?%under_key_prefix.
  - exact (copy_element_keeps_keys n source dest None st st' I H).
Qed.

Lemma copy_element_frame_witness :
  copy_element 3 "a" "b" None (st_of pair_record) = Ok (st_of pair_projected) ∧
  pair_projected !! "a.0" = pair_record !! "a.0" ∧
  is_Some (pair_projected !! "a.count").
Proof.
  assert (Hrun : copy_element 3 "a" "b" None (st_of pair_record)
                 = Ok (st_of pair_projected)) by (vm_compute; exact eq_refl).
  split; [exact Hrun|].
  destruct (proj1 (copy_element_frame "a" "b" (st_of pair_record)) _ _ Hrun)
    as (_ & Hfr & Hk). split.
  - apply (Hfr "a.0"). intros [t E]. cbv in E. discriminate.
  - apply (Hk "a.count"). vm_compute. eauto.
Defined.

(** * Further properties of the code *)

(** ** Lists *)

(** X1.  A list of [N] plain scalars is copied element by element:
    when [source] is no key, [source.count] is the integer [N], not
    zero, the record has no key [source.i/...] or [source.i. ...] for
    the instances [source.0] to [source.(N-1)], and nothing under [dest]
    lies below [source], then [copy_element(source, dest, md)] returns
    at every depth budget from three on, sets [dest.count] to [N], gives
    every [dest.i] the value of [source.i] when there is one and leaves
    it alone otherwise, changes no other key and invokes nothing.  The
    list may have any length: [source.1] and [source.10] do not get in
    each other's way. *)
Theorem copy_element_list n s d N st :
  store st !! s = None →
  store st !! (s +:+ ".count") = Some (VInt N) → N ≠ 0 →
  (∀ i, (i < Z.to_nat N)%nat → leaf_key (indexed s i) (store st)) →
  apart s d →
  ∃ st', copy_element (S (S (S n))) s d None st = Ok st' ∧
    calls st' = calls st ∧
    store st' !! (d +:+ ".count") = Some (VInt N) ∧
    (∀ i, (i < Z.to_nat N)%nat →
       store st' !! indexed d i =
       overwrite (store st !! indexed s i) (store st !! indexed d i)) ∧
    (∀ k, k ≠ d +:+ ".count" → (∀ i, (i < Z.to_nat N)%nat → k ≠ indexed d i) →
       store st' !! k = store st !! k).
Proof.
  intros Hs Hc HN Hch Ha. exists (copy_list s d N st).
  split; [by apply copy_element_leaves_run|apply copy_list_spec].
Qed.

Lemma copy_element_list_witness :
  ∃ st', copy_element 3 "a" "b" None (st_of eleven_record) = Ok st' ∧
    calls st' = [] ∧
    store st' !! "b.count" = Some (VInt 11) ∧
    store st' !! "b.1" = Some (VStr "v1") ∧
    store st' !! "b.10" = Some (VStr "v10") ∧
    store st' !! "a.10" = Some (VStr "v10").
Proof.
  destruct (copy_element_list 0 "a" "b" 11 (st_of eleven_record))
    as (st' & Hrun & Hcalls & Hcount & Hi & Hfr).
  - reflexivity.
  - reflexivity.
  - lia.
  - intros i Hi.
    do 11 (destruct i as [|i]; [apply leaf_key_intro; reflexivity|]).
    simpl in Hi. lia.
  - apply apart_intro; reflexivity.
  - exists st'. split_and!; [exact Hrun|exact Hcalls|exact Hcount|..].
    + apply (Hi 1%nat). simpl. lia.
    + apply (Hi 10%nat). simpl. lia.
    + rewrite Hfr; [reflexivity|discriminate|].
      intros i _ E. rewrite indexed_eq, str_app_cons in E. discriminate E.
Defined.

(** X2.  A list of [N] persons is copied with the attributes of each
    person: when [source] is no key, [source.count] is the integer
    [N], not zero, every instance [source.i] is a key without language
    or resource variants and with nothing below its name, mailbox and
    phone, and nothing under [dest] lies below [source], then
    [copy_element(source, dest, md, person_attrs)] returns at every
    depth budget from four on; [dest.count] is [N], every [dest.i] has
    the value of [source.i], [dest.i/name], [dest.i/email] and
    [dest.i/phone] have the values of [source.i/foaf:name],
    [source.i/foaf:mbox] and [source.i/foaf:phone] where these exist,
    the callback has been invoked once per instance in index order,
    and no key outside the instances and [dest.count] has changed. *)
Theorem copy_element_persons n s d N st :
  store st !! s = None →
  store st !! (s +:+ ".count") = Some (VInt N) → N ≠ 0 →
  (∀ i, (i < Z.to_nat N)%nat →
     is_Some (store st !! indexed s i) ∧ plain_person (indexed s i) (store st)) →
  apart s d →
  ∃ st', copy_element (S (S (S (S n)))) s d (Some person_attrs) st = Ok st' ∧
    calls st' = calls st ++ map (λ i, (indexed s i, indexed d i)) (seq 0 (Z.to_nat N)) ∧
    store st' !! (d +:+ ".count") = Some (VInt N) ∧
    (∀ i, (i < Z.to_nat N)%nat →
       store st' !! indexed d i = store st !! indexed s i ∧
       store st' !! (indexed d i +:+ "/name") =
         overwrite (store st !! (indexed s i +:+ "/foaf:name"))
                   (store st !! (indexed d i +:+ "/name")) ∧
       store st' !! (indexed d i +:+ "/email") =
         overwrite (store st !! (indexed s i +:+ "/foaf:mbox"))
                   (store st !! (indexed d i +:+ "/email")) ∧
       store st' !! (indexed d i +:+ "/phone") =
         overwrite (store st !! (indexed s i +:+ "/foaf:phone"))
                   (store st !! (indexed d i +:+ "/phone"))) ∧
    (∀ k, k ≠ d +:+ ".count" →
       (∀ i, (i < Z.to_nat N)%nat → ¬ under (indexed d i) k) →
       store st' !! k = store st !! k).
Proof.
  intros Hs Hc HN Hp Ha. exists (copy_persons s d N st).
  split; [by apply copy_element_persons_run|].
  apply copy_persons_spec. intros i Hi. by destruct (Hp i Hi).
Qed.

Lemma copy_element_persons_witness :
  ∃ st', copy_element 4 "p" "q" (Some person_attrs) (st_of persons_record) = Ok st' ∧
    calls st' = [] ++ map (λ i, (indexed "p" i, indexed "q" i)) (seq 0 2) ∧
    store st' !! "q.count" = Some (VInt 2) ∧
    (∀ i, (i < 2)%nat →
       store st' !! indexed "q" i = persons_record !! indexed "p" i ∧
       store st' !! (indexed "q" i +:+ "/name") =
         overwrite (persons_record !! (indexed "p" i +:+ "/foaf:name"))
                   (persons_record !! (indexed "q" i +:+ "/name")) ∧
       store st' !! (indexed "q" i +:+ "/email") =
         overwrite (persons_record !! (indexed "p" i +:+ "/foaf:mbox"))
                   (persons_record !! (indexed "q" i +:+ "/email")) ∧
       store st' !! (indexed "q" i +:+ "/phone") =
         overwrite (persons_record !! (indexed "p" i +:+ "/foaf:phone"))
                   (persons_record !! (indexed "q" i +:+ "/phone"))) ∧
    (∀ k, k ≠ "q.count" → (∀ i, (i < 2)%nat → ¬ under (indexed "q" i) k) →
       store st' !! k = persons_record !! k).
Proof.
  apply (copy_element_persons 0 "p" "q" 2 (st_of persons_record)).
  - reflexivity.
  - reflexivity.
  - lia.
  - intros i Hi. destruct i as [|[|i]]; [| |simpl in Hi; lia];
      (split; [by eexists|apply plain_person_intro; reflexivity]).
  - apply apart_intro; reflexivity.
Defined.

(** ** Counts at the edge *)

(** X3.  A negative count announces no instance: when [source] is no
    key and [source.count] is a negative integer [N],
    [copy_element(source, dest, md, callback)] copies the count to
    [dest.count] and does nothing else, whatever instances the record
    holds. *)
Theorem copy_element_negative_count n s d cb N st :
  store st !! s = None →
  store st !! (s +:+ ".count") = Some (VInt N) → N < 0 →
  copy_element (S n) s d cb st = Ok (set_item (d +:+ ".count") (VInt N) st).
Proof.
  intros Hs Hc HN. rewrite (copy_element_repeated n s d cb st N) by (done || lia).
  by replace (Z.to_nat N) with 0%nat by lia.
Qed.

Lemma copy_element_negative_count_witness :
  copy_element 1 "a" "b" None (st_of negative_record) =
  Ok (set_item "b.count" (VInt (-3)) (st_of negative_record)).
Proof.
  apply (copy_element_negative_count 0 "a" "b" None (-3) (st_of negative_record));
    [reflexivity|reflexivity|lia].
Defined.

(** X4.  A count that is not an integer: when [source] is no key and
    [source.count] holds [None] or the empty string, the call returns
    with the record unchanged; when it holds a non-empty string,
    [range(count)] raises a [TypeError]. *)
Theorem copy_element_count_not_integer n s d cb st v :
  store st !! s = None →
  store st !! (s +:+ ".count") = Some v → (∀ z, v ≠ VInt z) →
  copy_element (S n) s d cb st = if truthy v then Raise TypeError else Ok st.
Proof.
  intros Hs Hc Hv. rewrite copy_element_unfold, Hs, Hc.
  unfold repeated_branch. cbn [default from_option id].
  destruct (truthy v) eqn:E; [|done]. cbn [negb].
  destruct v as [|z|x]; [done|by destruct (Hv z)|done].
Qed.

Lemma copy_element_count_not_integer_witness :
  copy_element 1 "a" "b" None (st_of text_count_record) = Raise TypeError.
Proof.
  apply (copy_element_count_not_integer 0 "a" "b" None (st_of text_count_record)
           (VStr "2")); [reflexivity|reflexivity|discriminate].
Defined.

(** ** A destination below the source *)

(** X5.  Projecting an element onto its own [/language] never returns:
    when [source] is a key, [copy_element(source, source + "/language",
    md, callback)] exhausts every depth budget, because each call
    writes the key that the next one finds. *)
Theorem copy_element_onto_own_language n : ∀ s cb st,
  is_Some (store st !! s) →
  copy_element n s (s +:+ "/language") cb st = OutOfFuel.
Proof.
  induction n as [|n IH]; intros s cb st [v Hv]; [done|].
  rewrite copy_element_unfold, Hv. unfold scalar_branch.
  rewrite IH; [done|]. simpl. rewrite lookup_insert_eq. by eexists.
Qed.

Lemma copy_element_onto_own_language_witness :
  copy_element 1000 "a" "a/language" None (st_of {["a" := VStr "en"]}) = OutOfFuel.
Proof.
  apply (copy_element_onto_own_language 1000 "a" None (st_of {["a" := VStr "en"]})).
  by eexists.
Defined.

(** ** Index keys *)

(** X6.  The keys ['%s.%d' % (key, i)] keep the instances of a list
    apart: two indices with the same key are equal, nothing lies under
    two different instances (not even under [key.1] and [key.10]), and
    the count [key.count] lies under no instance. *)
Theorem indexed_keys_apart (d : string) (i j : nat) :
  (indexed d i = indexed d j → i = j) ∧
  (∀ k, under (indexed d i) k → under (indexed d j) k → i = j) ∧
  ¬ under (indexed d i) (d +:+ ".count").
Proof.
  split_and!.
  - apply indexed_inj.
  - intros k. apply indexed_under_disjoint.
  - apply count_not_under_indexed.
Qed.

Lemma indexed_keys_apart_witness :
  ¬ under (indexed "creator" 1) "creator.10/name".
Proof.
  intros H.
  assert (E : (1 = 10)%nat); [|discriminate E].
  apply (proj1 (proj2 (indexed_keys_apart "creator" 1 10)) "creator.10/name" H).
  apply (under_slash_key "creator.10" "name").
Defined.

(** ** The attribute callbacks *)

(** X7.  [person_attrs] maps [foaf:name], [foaf:mbox] and [foaf:phone]
    below the source to [name], [email] and [phone] below the
    destination: when nothing under [dest] lies below [source] and the
    three source keys have nothing below them, it returns at every
    depth budget from two on, each of the three destination keys has
    the value of its source key where that exists and its previous value
    otherwise, no other key has changed and nothing has been invoked. *)
Theorem person_attrs_projects n s d st :
  apart s d →
  childless (s +:+ "/foaf:name") (store st) →
  childless (s +:+ "/foaf:mbox") (store st) →
  childless (s +:+ "/foaf:phone") (store st) →
  ∃ st', person_attrs (S (S n)) s d st = Ok st' ∧
    calls st' = calls st ∧
    store st' !! (d +:+ "/name") =
      overwrite (store st !! (s +:+ "/foaf:name")) (store st !! (d +:+ "/name")) ∧
    store st' !! (d +:+ "/email") =
      overwrite (store st !! (s +:+ "/foaf:mbox")) (store st !! (d +:+ "/email")) ∧
    store st' !! (d +:+ "/phone") =
      overwrite (store st !! (s +:+ "/foaf:phone")) (store st !! (d +:+ "/phone")) ∧
    (∀ k, k ∉ [d +:+ "/name"; d +:+ "/email"; d +:+ "/phone"] →
          store st' !! k = store st !! k).
Proof.
  intros Ha H1 H2 H3. eexists. split; [by apply person_attrs_plain|].
  split_and!.
  - by rewrite !calls_put_opt.
  - rewrite !lookup_put_opt_ne by key_ne. by rewrite lookup_put_opt, decide_True.
  - rewrite lookup_put_opt_ne by key_ne.
    rewrite lookup_put_opt, decide_True by done. f_equal.
    by rewrite lookup_put_opt_ne by key_ne.
  - rewrite lookup_put_opt, decide_True by done. f_equal.
    by rewrite !lookup_put_opt_ne by key_ne.
  - intros k Hk. rewrite !not_elem_of_cons in Hk. destruct Hk as (?&?&?&_).
    by rewrite !lookup_put_opt_ne.
Qed.

Lemma person_attrs_projects_witness :
  ∃ st', person_attrs 2%nat "p.0" "q" (st_of persons_record) = Ok st' ∧
    store st' !! "q/name" = Some (VStr "Alice") ∧
    store st' !! "q/email" = Some (VStr "alice@example.org") ∧
    store st' !! "q/phone" = None.
Proof.
  destruct (person_attrs_projects 0 "p.0" "q" (st_of persons_record))
    as (st' & H & _ & Hn & He & Hp & _).
  - apply apart_intro; reflexivity.
  - apply childless_intro; reflexivity.
  - apply childless_intro; reflexivity.
  - apply childless_intro; reflexivity.
  - exists st'. split_and!; [exact H|exact Hn|exact He|exact Hp].
Defined.

(** X8.  [file_attrs] maps [dcat:mediaType], the value and generator
    of the first checksum, and [dcat:byteSize] below the source to
    [mimetype], [checksum.0], [checksum.0/algorithm] and [size] below
    the destination: when nothing under [dest] lies below [source] and
    the four source keys have nothing below them, it returns at every
    depth budget from two on, each destination key has the value of its
    source key where that exists and its previous value otherwise, no
    other key has changed and nothing has been invoked. *)
Theorem file_attrs_projects n s d st :
  apart s d →
  childless (s +:+ "/dcat:mediaType") (store st) →
  childless (s +:+ "/fp:checksum.0/fp:checksumValue.0") (store st) →
  childless (s +:+ "/fp:checksum.0/fp:generator.0") (store st) →
  childless (s +:+ "/dcat:byteSize") (store st) →
  ∃ st', file_attrs (S (S n)) s d st = Ok st' ∧
    calls st' = calls st ∧
    store st' !! (d +:+ "/mimetype") =
      overwrite (store st !! (s +:+ "/dcat:mediaType"))
                (store st !! (d +:+ "/mimetype")) ∧
    store st' !! (d +:+ "/checksum.0") =
      overwrite (store st !! (s +:+ "/fp:checksum.0/fp:checksumValue.0"))
                (store st !! (d +:+ "/checksum.0")) ∧
    store st' !! (d +:+ "/checksum.0/algorithm") =
      overwrite (store st !! (s +:+ "/fp:checksum.0/fp:generator.0"))
                (store st !! (d +:+ "/checksum.0/algorithm")) ∧
    store st' !! (d +:+ "/size") =
      overwrite (store st !! (s +:+ "/dcat:byteSize")) (store st !! (d +:+ "/size")) ∧
    (∀ k, k ∉ [d +:+ "/mimetype"; d +:+ "/checksum.0";
               d +:+ "/checksum.0/algorithm"; d +:+ "/size"] →
          store st' !! k = store st !! k).
Proof.
  intros Ha H1 H2 H3 H4. eexists. split; [by apply file_attrs_plain|].
  split_and!.
  - by rewrite !calls_put_opt.
  - rewrite !lookup_put_opt_ne by key_ne. by rewrite lookup_put_opt, decide_True.
  - rewrite !lookup_put_opt_ne by key_ne.
    rewrite lookup_put_opt, decide_True by done. f_equal.
    by rewrite lookup_put_opt_ne by key_ne.
  - rewrite lookup_put_opt_ne by key_ne.
    rewrite lookup_put_opt, decide_True by done. f_equal.
    by rewrite !lookup_put_opt_ne by key_ne.
  - rewrite lookup_put_opt, decide_True by done. f_equal.
    by rewrite !lookup_put_opt_ne by key_ne.
  - intros k Hk. rewrite !not_elem_of_cons in Hk. destruct Hk as (?&?&?&?&_).
    by rewrite !lookup_put_opt_ne.
Qed.

Lemma file_attrs_projects_witness :
  ∃ st', file_attrs 2%nat "f" "resource.0" (st_of file_record) = Ok st' ∧
    store st' !! "resource.0/mimetype" = Some (VStr "text/csv") ∧
    store st' !! "resource.0/checksum.0" = Some (VStr "9e107d9d") ∧
    store st' !! "resource.0/checksum.0/algorithm" = None ∧
    store st' !! "resource.0/size" = Some (VInt 1024).
Proof.
  destruct (file_attrs_projects 0 "f" "resource.0" (st_of file_record))
    as (st' & H & _ & H1 & H2 & H3 & H4 & _).
  - apply apart_intro; reflexivity.
  - apply childless_intro; reflexivity.
  - apply childless_intro; reflexivity.
  - apply childless_intro; reflexivity.
  - apply childless_intro; reflexivity.
  - exists st'. split_and!; [exact H|exact H1|exact H2|exact H3|exact H4].
Defined.

(** X9.  [document_attrs] maps [dct:title], [dct:creator] and
    [dct:description] below the source to [title], [creator.0/name] and
    [description] below the destination, [dct:identifier] onto the
    destination itself, and [nrd:creator] to [creator], for which it
    invokes [person_attrs] when the element is there: when nothing under
    [dest] lies below [source] and the five source keys have nothing
    below them, it returns at every depth budget from three on, each of
    these destination keys has the value of its source key where that
    exists and its previous value otherwise, and no other key has
    changed. *)
Theorem document_attrs_projects n s d st :
  apart s d →
  childless (s +:+ "/dct:title") (store st) →
  childless (s +:+ "/dct:identifier") (store st) →
  childless (s +:+ "/dct:creator") (store st) →
  childless (s +:+ "/nrd:creator") (store st) →
  childless (s +:+ "/dct:description") (store st) →
  ∃ st', document_attrs (S (S (S n))) s d st = Ok st' ∧
    calls st' = calls st ++
      logged (s +:+ "/nrd:creator") (d +:+ "/creator") (store st !! (s +:+ "/nrd:creator")) ∧
    store st' !! (d +:+ "/title") =
      overwrite (store st !! (s +:+ "/dct:title")) (store st !! (d +:+ "/title")) ∧
    store st' !! d =
      overwrite (store st !! (s +:+ "/dct:identifier")) (store st !! d) ∧
    store st' !! (d +:+ "/creator.0/name") =
      overwrite (store st !! (s +:+ "/dct:creator"))
                (store st !! (d +:+ "/creator.0/name")) ∧
    store st' !! (d +:+ "/creator") =
      overwrite (store st !! (s +:+ "/nrd:creator")) (store st !! (d +:+ "/creator")) ∧
    store st' !! (d +:+ "/description") =
      overwrite (store st !! (s +:+ "/dct:description"))
                (store st !! (d +:+ "/description")) ∧
    (∀ k, k ∉ [d +:+ "/title"; d; d +:+ "/creator.0/name"; d +:+ "/creator";
               d +:+ "/description"] →
          store st' !! k = store st !! k).
Proof.
  intros Ha H1 H2 H3 H4 H5. eexists. split; [by apply document_attrs_plain|].
  split_and!.
  - by rewrite calls_put_opt, calls_put_logged, !calls_put_opt.
  - rewrite lookup_put_opt_ne, store_put_logged by key_ne.
    rewrite !lookup_put_opt_ne by key_ne. by rewrite lookup_put_opt, decide_True.
  - rewrite lookup_put_opt_ne, store_put_logged by key_ne.
    rewrite !lookup_put_opt_ne by key_ne.
    rewrite lookup_put_opt, decide_True by done. f_equal.
    by rewrite !lookup_put_opt_ne by key_ne.
  - rewrite lookup_put_opt_ne, store_put_logged by key_ne.
    rewrite !lookup_put_opt_ne by key_ne.
    rewrite lookup_put_opt, decide_True by done. f_equal.
    by rewrite !lookup_put_opt_ne by key_ne.
  - rewrite lookup_put_opt_ne, store_put_logged by key_ne.
    rewrite lookup_put_opt, decide_True by done. f_equal.
    by rewrite !lookup_put_opt_ne by key_ne.
  - rewrite lookup_put_opt, decide_True by done. f_equal.
    rewrite store_put_logged. by rewrite !lookup_put_opt_ne by key_ne.
  - intros k Hk. rewrite !not_elem_of_cons in Hk. destruct Hk as (?&?&?&?&?&_).
    rewrite lookup_put_opt_ne, store_put_logged by done.
    by rewrite !lookup_put_opt_ne.
Qed.

Lemma document_attrs_projects_witness :
  ∃ st', document_attrs 3%nat "doc" "collection" (st_of document_record) = Ok st' ∧
    calls st' = [("doc/nrd:creator", "collection/creator")] ∧
    store st' !! "collection/title" = Some (VStr "Annual report") ∧
    store st' !! "collection" = Some (VStr "urn:nbn:fi-1") ∧
    store st' !! "collection/creator" = Some (VStr "creator") ∧
    store st' !! "collection/description" = None.
Proof.
  destruct (document_attrs_projects 0 "doc" "collection" (st_of document_record))
    as (st' & H & Hc & H1 & H2 & _ & H4 & H5 & _).
  - apply apart_intro; reflexivity.
  - apply childless_intro; reflexivity.
  - apply childless_intro; reflexivity.
  - apply childless_intro; reflexivity.
  - apply childless_intro; reflexivity.
  - apply childless_intro; reflexivity.
  - exists st'. split_and!; [exact H|exact Hc|exact H1|exact H2|exact H4|exact H5].
Defined.

(** X10.  [funding_attrs] maps the grant number of the first funding
    below the source to [fundingNumber] below the destination and the
    provider of that funding to [funder], for which it invokes
    [person_attrs] when the element is there: when nothing under [dest]
    lies below [source] and the two source keys have nothing below
    them, it returns at every depth budget from three on, the two
    destination keys have the values of their source keys where these
    exist and their previous values otherwise, and no other key has
    changed. *)
Theorem funding_attrs_projects n s d st :
  apart s d →
  childless (s +:+ "/rev:arpfo:funds.0/arpfo:grantNumber") (store st) →
  childless (s +:+ "/rev:arpfo:funds.0/rev:arpfo:provides") (store st) →
  ∃ st', funding_attrs (S (S (S n))) s d st = Ok st' ∧
    calls st' = calls st ++
      logged (s +:+ "/rev:arpfo:funds.0/rev:arpfo:provides") (d +:+ "/funder")
             (store st !! (s +:+ "/rev:arpfo:funds.0/rev:arpfo:provides")) ∧
    store st' !! (d +:+ "/fundingNumber") =
      overwrite (store st !! (s +:+ "/rev:arpfo:funds.0/arpfo:grantNumber"))
                (store st !! (d +:+ "/fundingNumber")) ∧
    store st' !! (d +:+ "/funder") =
      overwrite (store st !! (s +:+ "/rev:arpfo:funds.0/rev:arpfo:provides"))
                (store st !! (d +:+ "/funder")) ∧
    (∀ k, k ∉ [d +:+ "/fundingNumber"; d +:+ "/funder"] →
          store st' !! k = store st !! k).
Proof.
  intros Ha H1 H2. eexists. split; [by apply funding_attrs_plain|].
  rewrite !store_put_logged. split_and!.
  - by rewrite calls_put_logged, calls_put_opt.
  - rewrite !lookup_put_opt_ne by key_ne. by rewrite lookup_put_opt, decide_True.
  - rewrite lookup_put_opt, decide_True by done. f_equal.
    by rewrite !lookup_put_opt_ne by key_ne.
  - intros k Hk. rewrite !not_elem_of_cons in Hk. destruct Hk as (?&?&_).
    by rewrite !lookup_put_opt_ne.
Qed.

Lemma funding_attrs_projects_witness :
  ∃ st', funding_attrs 3%nat "grant" "project" (st_of funding_record) = Ok st' ∧
    calls st' = [("grant/rev:arpfo:funds.0/rev:arpfo:provides", "project/funder")] ∧
    store st' !! "project/fundingNumber" = Some (VStr "12345") ∧
    store st' !! "project/funder" = Some (VStr "funder").
Proof.
  destruct (funding_attrs_projects 0 "grant" "project" (st_of funding_record))
    as (st' & H & Hc & H1 & H2 & _).
  - apply apart_intro; reflexivity.
  - apply childless_intro; reflexivity.
  - apply childless_intro; reflexivity.
  - exists st'. split_and!; [exact H|exact Hc|exact H1|exact H2].
Defined.

(** ** The reader as a whole *)

(** X11.  [nrd_metadata_reader] adds to its input and takes nothing
    away: whenever it returns, every key that begins with [dataset] has
    the value it had, no key of the input is missing, and a key has
    changed only if it lies under the destination of a rule of the
    table or is one of [rightsclass], [license], [accessURL].  It does
    return, with one result from some depth budget on, when the counts
    of the record are integers. *)
Theorem nrd_metadata_reader_keeps_input XML lower record :
  (∀ n out, nrd_metadata_reader XML lower n record = Ok out →
     (∀ k, key_prefix "dataset" k → out !! k = record !! k) ∧
     (∀ k, is_Some (record !! k) → is_Some (out !! k)) ∧
     (∀ k, k ∉ rights_keys → ¬ written_by mapping k → out !! k = record !! k)) ∧
  (counts_int record →
   returns_eventually (λ n, nrd_metadata_reader XML lower n record)).
Proof.
  split; [|apply nrd_metadata_reader_total].
  unfold nrd_metadata_reader. intros n out H.
  apply bind_Ok_inv in H as (st & Hm & [= <-]).
  destruct (mapping_footprint n _ _ Hm) as (Hfr & Hk & _).
  split_and!.
  - intros k Hd. rewrite rights_pass_other by by apply dataset_key_not_rights.
    apply Hfr. by intros [? _].
  - intros k Hs. by apply rights_pass_keeps, Hk.
  - intros k Hr Hw. rewrite rights_pass_other by done.
    by apply (apply_mapping_unchanged n mapping _ _ k mapping_table_ok Hm).
Qed.

Lemma nrd_metadata_reader_keeps_input_witness :
  ∃ out n0,
    (∀ n, (n0 ≤ n)%nat → nrd_metadata_reader license_markup ascii_lower n reader_record = Ok out) ∧
    out !! "dataset/nrd:creator.0/foaf:name" = Some (VStr "Alice") ∧
    is_Some (out !! "note").
Proof.
  destruct (nrd_metadata_reader_keeps_input license_markup ascii_lower reader_record)
    as [Hp Ht].
  destruct Ht as (out & n0 & Hr); [apply counts_int_intro; reflexivity|].
  destruct (Hp n0 out (Hr n0 (le_n _))) as (Hd & Hk & _).
  exists out, n0. split_and!; [exact Hr| |].
  - rewrite Hd; [reflexivity|]. by exists "/nrd:creator.0/foaf:name".
  - apply Hk. by eexists.
Defined.

(** X12.  Short of exhausting the recursion depth, which a record
    nested deep enough makes it do and which in Python is a
    [RecursionError], the only exception that escapes
    [nrd_metadata_reader] is the [TypeError] of [range] on a count that
    is not an integer: whenever the reader raises within its depth
    budget, the exception is a [TypeError] and some [.count] entry of
    the record is not an integer.  A result or an exception that has
    come about within one depth budget comes about with every larger
    one; with integer counts the reader returns from some depth budget
    on; and every depth budget is exhausted by some record with
    integer counts, a title nested deep enough. *)
Theorem nrd_metadata_reader_exceptions XML lower record :
  (∀ n e, nrd_metadata_reader XML lower n record = Raise e →
     e = TypeError ∧ ¬ counts_int record) ∧
  (∀ n m r, (n ≤ m)%nat →
     nrd_metadata_reader XML lower n record = r → r ≠ OutOfFuel →
     nrd_metadata_reader XML lower m record = r) ∧
  (counts_int record →
   returns_eventually (λ n, nrd_metadata_reader XML lower n record)) ∧
  (∀ (D n : nat), (n ≤ S D)%nat →
     counts_int (nested_record "dataset/dct:title" D) ∧
     nrd_metadata_reader XML lower n (nested_record "dataset/dct:title" D)
       = OutOfFuel).
Proof.
  split_and!.
  - intros n e H. split; [by eapply nrd_metadata_reader_raises|].
    intros Hc.
    destruct (nrd_metadata_reader_total XML lower record Hc) as (out & n0 & Hout).
    pose proof (Hout (Nat.max n n0) (Nat.le_max_r _ _)) as H1.
    rewrite (nrd_metadata_reader_settles XML lower n _ record (Raise e)) in H1;
      [done|apply Nat.le_max_l|done|done].
  - intros n m r. apply nrd_metadata_reader_settles.
  - apply nrd_metadata_reader_total.
  - intros D n Hn. split; [apply nested_record_counts|].
    by apply nrd_metadata_reader_nested_deep.
Qed.

Lemma nrd_metadata_reader_exceptions_witness :
  (TypeError = TypeError ∧ ¬ counts_int bad_count_record) ∧
  nrd_metadata_reader no_markup ascii_lower 7 bad_count_record = Raise TypeError ∧
  nrd_metadata_reader no_markup ascii_lower 1000
    (nested_record "dataset/dct:title" 1000) = OutOfFuel.
Proof.
  destruct (nrd_metadata_reader_exceptions no_markup ascii_lower bad_count_record)
    as (Hraise & Hstable & _ & Hdeep).
  assert (H1 : nrd_metadata_reader no_markup ascii_lower 1 bad_count_record
               = Raise TypeError) by reflexivity.
  split; [exact (Hraise 1%nat TypeError H1)|split].
  - apply (Hstable 1%nat 7%nat (Raise TypeError)); [lia|exact H1|discriminate].
  - apply (Hdeep 1000%nat 1000%nat). lia.
Defined.

(** X13.  The rights post-processing, when the markup is well formed:
    whenever the reader returns a record whose [rights] parse to an
    element with a [RIGHTSCATEGORY] attribute, [rightsclass] is that
    attribute in lower case; [license] is the text of the first child
    if the class is [licensed] and there is a first child, and is what
    the input had otherwise; [accessURL] is the text of the first child
    if the class is [contractual] and there is a first child, and is
    what the input had otherwise.  The reader does return, with one
    result from some depth budget on, when the counts of the record are
    integers. *)
Theorem nrd_metadata_reader_rights XML lower record :
  (∀ n out r rights c,
     nrd_metadata_reader XML lower n record = Ok out →
     out !! "rights" = Some r → XML r = inr rights →
     attrib rights !! "RIGHTSCATEGORY" = Some c →
     out !! "rightsclass" = Some (VStr (lower c)) ∧
     out !! "license" =
       (if decide (lower c = "licensed")
        then overwrite (first_child_text rights) (record !! "license")
        else record !! "license") ∧
     out !! "accessURL" =
       (if decide (lower c = "contractual")
        then overwrite (first_child_text rights) (record !! "accessURL")
        else record !! "accessURL")) ∧
  (counts_int record →
   returns_eventually (λ n, nrd_metadata_reader XML lower n record)).
Proof.
  split; [|apply nrd_metadata_reader_total].
  unfold nrd_metadata_reader. intros n out r rights c H.
  apply bind_Ok_inv in H as (st & Hm & [= <-]).
  destruct (mapping_footprint n _ _ Hm) as (Hfr & _ & _). simpl in Hfr.
  assert (Hl : store st !! "license" = record !! "license").
  { apply Hfr. intros [_ Hk]. apply Hk. unfold rights_keys.
    rewrite !elem_of_cons. auto. }
  assert (Ha : store st !! "accessURL" = record !! "accessURL").
  { apply Hfr. intros [_ Hk]. apply Hk. unfold rights_keys.
    rewrite !elem_of_cons. auto. }
  rewrite (rights_pass_other XML lower (store st) "rights")
    by (unfold rights_keys; rewrite !not_elem_of_cons;
        split_and!; try discriminate; apply not_elem_of_nil).
  rewrite rights_pass_cases. intros -> -> ->. cbv zeta.
  unfold first_child_text. rewrite <- Hl, <- Ha.
  destruct (children rights !! 0%nat) as [child|];
    cbn [fmap option_fmap option_map overwrite].
  - repeat case_decide; try congruence;
      rewrite ?lookup_insert_eq, ?lookup_insert_ne by discriminate;
      rewrite ?lookup_insert_eq, ?lookup_insert_ne by discriminate; done.
  - repeat case_decide; by rewrite ?lookup_insert_eq, ?lookup_insert_ne by discriminate.
Qed.

Lemma nrd_metadata_reader_rights_witness :
  ∃ out n0,
    (∀ n, (n0 ≤ n)%nat → nrd_metadata_reader license_markup ascii_lower n reader_record = Ok out) ∧
    out !! "rightsclass" = Some (VStr "licensed") ∧
    out !! "license" = Some (VStr "CC-BY-4.0") ∧
    out !! "accessURL" = None.
Proof.
  destruct (nrd_metadata_reader_rights license_markup ascii_lower reader_record) as [Hp Ht].
  destruct Ht as (out & n0 & Hr); [apply counts_int_intro; reflexivity|].
  exists out, n0. split; [exact Hr|].
  apply (Hp n0 out license_text
           (Element {["RIGHTSCATEGORY" := "LICENSED"]} None
                    [Element ∅ (Some "CC-BY-4.0") []]) "LICENSED"
           (Hr n0 (le_n _))).
  - rewrite (nrd_metadata_reader_plain license_markup ascii_lower n0 reader_record out
               "dataset/nrd:rights" "rights"); [reflexivity|in_table| |exact (Hr n0 (le_n _))].
    apply childless_intro; reflexivity.
  - reflexivity.
  - reflexivity.
Defined.

(** ** The rule table *)

(** X14.  The rules of the table do not interfere: whenever the reader
    returns, each rule [(source, dest, callback)] of the table, run on
    its own on the input record, returns too, and what the reader's
    result holds under [dest] is what that single call leaves there.
    The reader does return, with one result from some depth budget on,
    when the counts of the record are integers. *)
Theorem nrd_metadata_reader_rule_isolated XML lower record s d cb :
  (s, d, cb) ∈ mapping →
  (∀ n out, nrd_metadata_reader XML lower n record = Ok out →
     ∃ st1, copy_element n s d cb (st_of record) = Ok st1 ∧
       ∀ k, under d k → out !! k = store st1 !! k) ∧
  (counts_int record →
   returns_eventually (λ n, nrd_metadata_reader XML lower n record)).
Proof.
  intros Hin. split; [|apply nrd_metadata_reader_total].
  intros n out. by apply nrd_metadata_reader_isolated.
Qed.

Lemma nrd_metadata_reader_rule_isolated_witness :
  ∃ out n0 st1,
    (∀ n, (n0 ≤ n)%nat → nrd_metadata_reader license_markup ascii_lower n reader_record = Ok out) ∧
    copy_element n0 "dataset/nrd:creator" "creator" (Some person_attrs)
                 (st_of reader_record) = Ok st1 ∧
    out !! "creator.1/name" = store st1 !! "creator.1/name".
Proof.
  destruct (nrd_metadata_reader_rule_isolated license_markup ascii_lower reader_record
              "dataset/nrd:creator" "creator" (Some person_attrs)) as [Hp Ht];
    [in_table|].
  destruct Ht as (out & n0 & Hr); [apply counts_int_intro; reflexivity|].
  destruct (Hp n0 out (Hr n0 (le_n _))) as (st1 & H1 & E).
  exists out, n0, st1. split_and!; [exact Hr|exact H1|].
  apply E. apply (under_dot "creator" "1/name"), under_refl.
Defined.

(** X15.  The order of the rules does not matter: whenever the loop
    over the rule table returns, the loop over any rearrangement of the
    table returns too, with the same dictionary. *)
Theorem apply_mapping_order_irrelevant n rules st st' :
  mapping ≡ₚ rules →
  apply_mapping n mapping st = Ok st' →
  ∃ st'', apply_mapping n rules st = Ok st'' ∧ store st'' = store st'.
Proof. apply apply_mapping_perm, mapping_table_ok. Qed.

Lemma apply_mapping_order_irrelevant_witness :
  ∃ n st' st'',
    apply_mapping n mapping (st_of reader_record) = Ok st' ∧
    apply_mapping n (reverse mapping) (st_of reader_record) = Ok st'' ∧
    store st'' = store st'.
Proof.
  destruct (key_bound_exists reader_record) as [L HL].
  destruct (mapping_total L (L + 2) (le_n _) (st_of reader_record))
    as (st' & H & _).
  { apply readable_intro; [exact HL|]. apply counts_int_intro. reflexivity. }
  destruct (apply_mapping_order_irrelevant (L + 2) (reverse mapping)
              (st_of reader_record) st') as (st'' & H' & E).
  - symmetry. apply reverse_Permutation.
  - exact H.
  - by exists (L + 2)%nat, st', st''.
Defined.

(** X16.  A rule without a callback whose source is a plain key copies
    it: for a rule [(source, dest, None)] of the table and a record with
    nothing below [source], whenever the reader returns, its result has
    at [dest] the value of [source], or what the input had at [dest]
    when [source] is no key.  The reader does return, with one result
    from some depth budget on, when the counts of the record are
    integers. *)
Theorem nrd_metadata_reader_plain_field XML lower record s d :
  (s, d, None) ∈ mapping → childless s record →
  (∀ n out, nrd_metadata_reader XML lower n record = Ok out →
     out !! d = overwrite (record !! s) (record !! d)) ∧
  (counts_int record →
   returns_eventually (λ n, nrd_metadata_reader XML lower n record)).
Proof.
  intros Hin Hc. split; [|apply nrd_metadata_reader_total].
  intros n out. by apply nrd_metadata_reader_plain.
Qed.

Lemma nrd_metadata_reader_plain_field_witness :
  ∃ out n0,
    (∀ n, (n0 ≤ n)%nat → nrd_metadata_reader license_markup ascii_lower n reader_record = Ok out) ∧
    out !! "title" = Some (VStr "Sample").
Proof.
  destruct (nrd_metadata_reader_plain_field license_markup ascii_lower reader_record
              "dataset/dct:title" "title") as [Hp Ht].
  - in_table.
  - apply childless_intro; reflexivity.
  - destruct Ht as (out & n0 & Hr); [apply counts_int_intro; reflexivity|].
    exists out, n0. split; [exact Hr|].
    exact (Hp n0 out (Hr n0 (le_n _))).
Defined.

(** X17.  The persons of a record reach the result with their
    attributes: for a rule [(source, dest, person_attrs)] of the table
    and a record in which [source] is no key, [source.count] is the
    integer [N], not zero, and every instance [source.i] is a key
    without language or resource variants and with nothing below its
    name, mailbox and phone, whenever the reader returns, its result
    has [dest.count = N], every [dest.i] has the value of [source.i],
    and [dest.i/name], [dest.i/email] and [dest.i/phone] have the
    values of [source.i/foaf:name], [source.i/foaf:mbox] and
    [source.i/foaf:phone] where these exist and what the input had
    there otherwise.  The reader does return, with one result from some
    depth budget on, when the counts of the record are integers. *)
Theorem nrd_metadata_reader_persons XML lower record s d N :
  (s, d, Some person_attrs) ∈ mapping →
  record !! s = None →
  record !! (s +:+ ".count") = Some (VInt N) → N ≠ 0 →
  (∀ i, (i < Z.to_nat N)%nat →
     is_Some (record !! indexed s i) ∧ plain_person (indexed s i) record) →
  (∀ n out, nrd_metadata_reader XML lower n record = Ok out →
     out !! (d +:+ ".count") = Some (VInt N) ∧
     ∀ i, (i < Z.to_nat N)%nat →
       out !! indexed d i = record !! indexed s i ∧
       out !! (indexed d i +:+ "/name") =
         overwrite (record !! (indexed s i +:+ "/foaf:name"))
                   (record !! (indexed d i +:+ "/name")) ∧
       out !! (indexed d i +:+ "/email") =
         overwrite (record !! (indexed s i +:+ "/foaf:mbox"))
                   (record !! (indexed d i +:+ "/email")) ∧
       out !! (indexed d i +:+ "/phone") =
         overwrite (record !! (indexed s i +:+ "/foaf:phone"))
                   (record !! (indexed d i +:+ "/phone"))) ∧
  (counts_int record →
   returns_eventually (λ n, nrd_metadata_reader XML lower n record)).
Proof.
  intros Hin Hs Hc HN Hp. split; [|apply nrd_metadata_reader_total].
  intros n out H.
  pose proof (nrd_metadata_reader_persons_run XML lower n record out s d N
                Hin Hs Hc HN Hp H) as E.
  destruct (copy_persons_spec s d N (st_of record)) as (_ & Hcount & Hi & _).
  { intros i Hlt. by destruct (Hp i Hlt). }
  split.
  - rewrite E by apply under_dot_key. exact Hcount.
  - intros i Hlt. destruct (Hi i Hlt) as (H0 & H1 & H2 & H3).
    rewrite !E by
      (first [apply under_indexed_key
             |apply (under_indexed d _ i), under_slash_key]).
    done.
Qed.

Lemma nrd_metadata_reader_persons_witness :
  ∃ out n0,
    (∀ n, (n0 ≤ n)%nat → nrd_metadata_reader license_markup ascii_lower n reader_record = Ok out) ∧
    out !! "creator.count" = Some (VInt 2) ∧
    out !! "creator.0/name" = Some (VStr "Alice") ∧
    out !! "creator.1/name" = Some (VStr "Bob") ∧
    out !! "creator.1" = Some (VStr "c1").
Proof.
  destruct (nrd_metadata_reader_persons license_markup ascii_lower reader_record
              "dataset/nrd:creator" "creator" 2) as [Hp Ht].
  - in_table.
  - reflexivity.
  - reflexivity.
  - lia.
  - intros i Hi. destruct i as [|[|i]]; [| |simpl in Hi; lia];
      (split; [by eexists|apply plain_person_intro; reflexivity]).
  - destruct Ht as (out & n0 & Hr); [apply counts_int_intro; reflexivity|].
    destruct (Hp n0 out (Hr n0 (le_n _))) as (Hc & Hi).
    destruct (Hi 0%nat) as (_ & Hn0 & _); [simpl; lia|].
    destruct (Hi 1%nat) as (H1 & Hn1 & _); [simpl; lia|].
    exists out, n0. split_and!; [exact Hr|exact Hc|exact Hn0|exact Hn1|exact H1].
Defined.

(** X18.  A record without a single [dataset] key passes through the
    reader: at every depth budget from one on the reader returns, its
    result differs from the input at most in [rightsclass], [license]
    and [accessURL], and is the input itself when that has no
    [rights]. *)
Theorem nrd_metadata_reader_foreign XML lower n record :
  (∀ k, key_prefix "dataset" k → record !! k = None) →
  ∃ out, nrd_metadata_reader XML lower (S n) record = Ok out ∧
    (∀ k, k ∉ rights_keys → out !! k = record !! k) ∧
    (record !! "rights" = None → out = record).
Proof.
  intros Hno. exists (rights_pass XML lower record). split_and!.
  - unfold nrd_metadata_reader.
    by rewrite (apply_mapping_foreign n (State record [])).
  - intros k Hk. by apply rights_pass_other.
  - intros Hr. by rewrite rights_pass_cases, Hr.
Qed.

Lemma nrd_metadata_reader_foreign_witness :
  ∃ out, nrd_metadata_reader no_markup ascii_lower 1 foreign_record = Ok out ∧
    (∀ k, k ∉ rights_keys → out !! k = foreign_record !! k) ∧
    (foreign_record !! "rights" = None → out = foreign_record).
Proof.
  apply (nrd_metadata_reader_foreign no_markup ascii_lower 0 foreign_record).
  intros k [t ->]. apply absent_below_intro. reflexivity.
Defined.

(** ** Footprint of the source *)

(** X19.  [copy_element] looks at nothing but the keys that begin with
    [source]: when two records agree on these keys and the call returns
    on one of them, it returns on the other, and every key on which the
    records agreed before has the same value in both afterwards.  This
    holds with every callback that itself reads below its source and
    writes under its destination only. *)
Theorem copy_element_source_only n s d cb st1 st2 st1' :
  cb_localized cb →
  agree (key_prefix s) (store st1) (store st2) →
  copy_element n s d cb st1 = Ok st1' →
  ∃ st2', copy_element n s d cb st2 = Ok st2' ∧
    ∀ k, store st1 !! k = store st2 !! k → store st1' !! k = store st2' !! k.
Proof.
  intros Hcb Hag H.
  destruct (copy_element_localized n s d cb Hcb _ _ H) as (_ & _ & Hsim).
  destruct (Hsim st2 Hag) as (st2' & H2 & Hu).
  exists st2'. split; [done|]. intros k E.
  destruct (Hu k) as [[E1 E2]|E1]; [by rewrite E1, E2|done].
Qed.

Lemma copy_element_source_only_witness :
  ∃ st2', copy_element 4 "p" "q" (Some person_attrs)
            (st_of (<["note" := VStr "other"]> persons_record)) = Ok st2' ∧
    store st2' !! "q.0/name" = Some (VStr "Alice").
Proof.
  assert (Hp : ∀ i, (i < Z.to_nat 2)%nat →
            is_Some (persons_record !! indexed "p" i) ∧
            plain_person (indexed "p" i) persons_record).
  { intros i Hi. destruct i as [|[|i]]; [| |simpl in Hi; lia];
      (split; [by eexists|apply plain_person_intro; reflexivity]). }
  assert (H1 : copy_element 4 "p" "q" (Some person_attrs) (st_of persons_record)
               = Ok (copy_persons "p" "q" 2 (st_of persons_record))).
  { apply copy_element_persons_run;
      [reflexivity|reflexivity|lia|exact Hp|apply apart_intro; reflexivity]. }
  destruct (copy_persons_spec "p" "q" 2 (st_of persons_record))
    as (_ & _ & Hi & _); [intros i Hlt; by destruct (Hp i Hlt)|].
  destruct (copy_element_source_only 4 "p" "q" (Some person_attrs)
              (st_of persons_record)
              (st_of (<["note" := VStr "other"]> persons_record))
              (copy_persons "p" "q" 2 (st_of persons_record)))
    as (st2' & H2 & E).
  - apply person_attrs_localized.
  - intros k [t ->]. symmetry. apply lookup_insert_ne.
    destruct t; discriminate.
  - exact H1.
  - exists st2'. split; [exact H2|]. rewrite <- E; [|reflexivity].
    destruct (Hi 0%nat) as (_ & Hn & _); [simpl; lia|]. exact Hn.
Defined.

(** ** The fallback wrapper around the reader *)

(** X20.  [ExceptReturn] lets through what it is not asked to catch:
    the wrapped call raises [e] exactly when the call itself raises [e]
    and [e] does not match [exception], and the world is then as the
    call left it. *)
Theorem ExceptReturn_propagates {W A B : Type} (exception : exn → bool)
    (returns : B) (f : A → W → res B * W) (args : A) (w w' : W) (e : exn) :
  ExceptReturn exception returns f args w = (Raise e, w') ↔
  f args w = (Raise e, w') ∧ exception e = false.
Proof.
  unfold ExceptReturn. destruct (f args w) as [[r|e0|] w0].
  - split; [done|]. by intros [? _].
  - destruct (exception e0) eqn:E.
    + split; [done|]. intros [[= -> ->] ?]. congruence.
    + split; [|by intros [? _]]. intros [= -> ->]. done.
  - split; [done|]. by intros [? _].
Qed.

Lemma ExceptReturn_propagates_witness :
  ExceptReturn (λ e, bool_decide (e = KeyError)) 0%nat
    (λ (_ : unit) (w : nat), (Raise TypeError, S w)) () 7%nat = (Raise TypeError, 8%nat).
Proof.
  apply (ExceptReturn_propagates (λ e, bool_decide (e = KeyError)) 0%nat
           (λ (_ : unit) (w : nat), (Raise TypeError, S w)) () 7%nat 8%nat TypeError).
  split; reflexivity.
Defined.

(** X21.  Whenever [nrd_metadata_reader] ends without exhausting the
    recursion depth, the reader wrapped in [ExceptReturn] with a handler
    that catches [TypeError] returns: the reader's result when the
    reader returns, and the fallback value when the reader raises,
    which it does with a [TypeError] only.  The world is left alone.
    Nothing is said here of a record nested so deep that the recursion
    depth is exhausted: that [RecursionError] reaches the handler like
    any other exception. *)
Theorem ExceptReturn_reader {W : Type} XML lower (exception : exn → bool)
    (returns : gmap string value) n record (w : W) :
  exception TypeError = true →
  nrd_metadata_reader XML lower n record ≠ OutOfFuel →
  ∃ out,
    ExceptReturn exception returns
      (λ r w, (nrd_metadata_reader XML lower n r, w)) record w = (Ok out, w) ∧
    (nrd_metadata_reader XML lower n record = Ok out ∨
     nrd_metadata_reader XML lower n record = Raise TypeError ∧ out = returns).
Proof.
  intros Hex Hfuel. unfold ExceptReturn.
  destruct (nrd_metadata_reader XML lower n record) as [out|e|] eqn:E; [| |done].
  - exists out. by split; [|left].
  - apply nrd_metadata_reader_raises in E as ->. rewrite Hex.
    exists returns. by split; [|right].
Qed.

Lemma ExceptReturn_reader_witness :
  ∃ out,
    ExceptReturn (λ e, bool_decide (e = TypeError)) (∅ : gmap string value)
      (λ r (w : unit), (nrd_metadata_reader no_markup ascii_lower 1 r, w))
      bad_count_record () = (Ok out, ()) ∧
    (nrd_metadata_reader no_markup ascii_lower 1 bad_count_record = Ok out ∨
     nrd_metadata_reader no_markup ascii_lower 1 bad_count_record = Raise TypeError ∧
     out = ∅).
Proof.
  apply (ExceptReturn_reader no_markup ascii_lower
           (λ e, bool_decide (e = TypeError)) ∅ 1 bad_count_record ()).
  - reflexivity.
  - discriminate.
Defined.
